(** * Task 3 of MPI_lab2: the hand-built reader-writer lock, the sorted
      linked list it protects, and the workload driver.

    Sources embedded here:
    - [task3/scripts/my_rwlock.h], [task3/scripts/my_rwlock.c]: the lock;
    - [task3_my_rwlock.c]: [my_rand], [Insert], [Member], [Delete],
      [Thread_work].

    The first part holds the definitions, the second part the theorems. *)

From stdpp Require Import base option list gmap sorting.
From Stdlib Require Import ZArith Lia.

Local Open Scope Z_scope.

(* ===================================================================== *)
(** * Part I: definitions                                                 *)
(* ===================================================================== *)

(** ** C integers

    [int] is 32 bits wide on the platforms the lab targets.  An [int] is a
    [Z]; stores of the result of [++], [--] and [+=] go through [wrap_int]
    (two's-complement wrap-around), those of an [unsigned] through
    [wrap_unsigned]. *)

Definition INT_MIN : Z := -2147483648.
Definition INT_MAX : Z := 2147483647.
Definition UINT_MODULUS : Z := 4294967296.

Definition wrap_int (z : Z) : Z := (z - INT_MIN) mod UINT_MODULUS + INT_MIN.
Definition wrap_unsigned (z : Z) : Z := z mod UINT_MODULUS.

Definition int_range (z : Z) : Prop := INT_MIN <= z <= INT_MAX.

(** ** The reader-writer lock ([my_rwlock.h], [my_rwlock.c]) *)

Module RWLock.

(** [my_rwlock_t] without its pthread members: the four [int] fields. *)
Record my_rwlock_t : Type := {
  active_readers : Z;
  waiting_readers : Z;
  waiting_writers : Z;
  writer_active : Z
}.

Definition set_active_readers (v : Z) (l : my_rwlock_t) : my_rwlock_t :=
  {| active_readers := v; waiting_readers := waiting_readers l;
     waiting_writers := waiting_writers l; writer_active := writer_active l |}.
Definition set_waiting_readers (v : Z) (l : my_rwlock_t) : my_rwlock_t :=
  {| active_readers := active_readers l; waiting_readers := v;
     waiting_writers := waiting_writers l; writer_active := writer_active l |}.
Definition set_waiting_writers (v : Z) (l : my_rwlock_t) : my_rwlock_t :=
  {| active_readers := active_readers l; waiting_readers := waiting_readers l;
     waiting_writers := v; writer_active := writer_active l |}.
Definition set_writer_active (v : Z) (l : my_rwlock_t) : my_rwlock_t :=
  {| active_readers := active_readers l; waiting_readers := waiting_readers l;
     waiting_writers := waiting_writers l; writer_active := v |}.

(** The two condition variables of the lock and the two ways the code wakes
    their waiters. *)
Inductive cond_var : Type := read_cond | write_cond.

Inductive wakeup : Type :=
| cond_signal (c : cond_var)
| cond_broadcast (c : cond_var).

(** How a run of lock code under the mutex ends: the function returns [rv],
    or the thread sits in [pthread_cond_wait] on [c] (the mutex released). *)
Inductive outcome : Type :=
| Returned (rv : Z)
| Waits (c : cond_var).

(** The monitor monad: code that runs between [pthread_mutex_lock] and the
    next [pthread_mutex_unlock] or [pthread_cond_wait].  It threads the lock
    fields and logs the wake-up calls it makes, in order. *)
Definition Mon (A : Type) : Type := my_rwlock_t -> A * my_rwlock_t * list wakeup.

#[global] Instance mon_ret : MRet Mon := fun A a l => (a, l, []).
#[global] Instance mon_bind : MBind Mon := fun A B k m l =>
  let '(a, l1, w1) := m l in
  let '(b, l2, w2) := k a l1 in (b, l2, w1 ++ w2).
Definition load (f : my_rwlock_t -> Z) : Mon Z := fun l => (f l, l, []).
Definition store (upd : Z -> my_rwlock_t -> my_rwlock_t) (v : Z) : Mon unit :=
  fun l => (tt, upd v l, []).
Definition wake (w : wakeup) : Mon unit := fun l => (tt, l, [w]).

Definition final_lock {A} (r : A * my_rwlock_t * list wakeup) : my_rwlock_t := snd (fst r).
Definition result {A} (r : A * my_rwlock_t * list wakeup) : A := fst (fst r).
Definition wakeups {A} (r : A * my_rwlock_t * list wakeup) : list wakeup := snd r.

(** [my_rwlock_init], for a non-null [rwlock]. *)
Definition init_lock : my_rwlock_t :=
  {| active_readers := 0; waiting_readers := 0; waiting_writers := 0; writer_active := 0 |}.

(** [my_rwlock_rdlock], lines 44-54: the test of the [while] and what follows
    it.  This is where a reader resumes each time [pthread_cond_wait]
    returns. *)
Definition rdlock_retest : Mon outcome :=
  wa ← load writer_active;
  ww ← load waiting_writers;
  if negb (wa =? 0) || (0 <? ww) then
    mret (Waits read_cond)
  else
    wr ← load waiting_readers;
    store set_waiting_readers (wrap_int (wr - 1));;
    ar ← load active_readers;
    store set_active_readers (wrap_int (ar + 1));;
    mret (Returned 0).

(** [my_rwlock_rdlock], lines 39-54, on a non-null lock. *)
Definition rdlock_enter : Mon outcome :=
  wr ← load waiting_readers;
  store set_waiting_readers (wrap_int (wr + 1));;
  rdlock_retest.

(** [my_rwlock_wrlock], lines 65-75. *)
Definition wrlock_retest : Mon outcome :=
  ar ← load active_readers;
  wa ← load writer_active;
  if (0 <? ar) || negb (wa =? 0) then
    mret (Waits write_cond)
  else
    ww ← load waiting_writers;
    store set_waiting_writers (wrap_int (ww - 1));;
    store set_writer_active 1;;
    mret (Returned 0).

(** [my_rwlock_wrlock], lines 61-75, on a non-null lock. *)
Definition wrlock_enter : Mon outcome :=
  ww ← load waiting_writers;
  store set_waiting_writers (wrap_int (ww + 1));;
  wrlock_retest.

(** [my_rwlock_unlock], lines 82-107, on a non-null lock. *)
Definition unlock_body : Mon outcome :=
  wa ← load writer_active;
  (if negb (wa =? 0) then
     store set_writer_active 0;;
     ww ← load waiting_writers;
     if 0 <? ww then wake (cond_signal write_cond)
     else wake (cond_broadcast read_cond)
   else
     ar ← load active_readers;
     if 0 <? ar then
       store set_active_readers (wrap_int (ar - 1));;
       ar' ← load active_readers;
       ww ← load waiting_writers;
       if (ar' =? 0) && (0 <? ww) then wake (cond_signal write_cond)
       else mret tt
     else mret tt);;
  mret (Returned 0).

(** The functions as the header declares them.  The argument is the lock
    the pointer refers to; [None] is the null pointer, on which every
    function returns [-1] before touching anything. *)
Definition on_handle (rwlock : option my_rwlock_t) (body : Mon outcome)
  : outcome * option my_rwlock_t * list wakeup :=
  match rwlock with
  | None => (Returned (-1), None, [])
  | Some l => let '(o, l', w) := body l in (o, Some l', w)
  end.

Definition my_rwlock_init (rwlock : option my_rwlock_t) :=
  on_handle rwlock (fun _ => (Returned 0, init_lock, [])).
Definition my_rwlock_rdlock (rwlock : option my_rwlock_t) := on_handle rwlock rdlock_enter.
Definition my_rwlock_wrlock (rwlock : option my_rwlock_t) := on_handle rwlock wrlock_enter.
Definition my_rwlock_unlock (rwlock : option my_rwlock_t) := on_handle rwlock unlock_body.

(** *** Threads around one lock

    The mutex makes every stretch of lock code between two suspension points
    atomic, so an interleaving is a sequence of such stretches.  A thread is
    either outside [pthread_cond_wait] ([Running]: it may call any of the
    three functions, whether or not it holds the lock) or inside it on one of
    the condition variables.  A waiting thread may resume at any moment
    ([Resume]): whether woken by a signal, by a broadcast or spuriously, it
    then re-runs the test of its [while]. *)
Inductive thread_state : Type :=
| Running
| Blocked (c : cond_var).

Inductive action : Type :=
| Rdlock     (* call my_rwlock_rdlock *)
| Wrlock     (* call my_rwlock_wrlock *)
| Unlock     (* call my_rwlock_unlock *)
| Resume.    (* pthread_cond_wait returns *)

Record system : Type := {
  lock : my_rwlock_t;
  threads : list thread_state
}.

Definition init_system (n : nat) : system :=
  {| lock := init_lock; threads := replicate n Running |}.

Definition code_of (st : thread_state) (a : action) : option (Mon outcome) :=
  match st, a with
  | Running, Rdlock => Some rdlock_enter
  | Running, Wrlock => Some wrlock_enter
  | Running, Unlock => Some unlock_body
  | Blocked read_cond, Resume => Some rdlock_retest
  | Blocked write_cond, Resume => Some wrlock_retest
  | _, _ => None
  end.

Definition after (o : outcome) : thread_state :=
  match o with
  | Returned _ => Running
  | Waits c => Blocked c
  end.

(** One atomic step of thread [t]; [None] when [t] is no thread or cannot
    take that action in its state. *)
Definition step (t : nat) (a : action) (σ : system) : option (system * outcome) :=
  match threads σ !! t with
  | None => None
  | Some st =>
      match code_of st a with
      | None => None
      | Some body =>
          let r := body (lock σ) in
          Some ({| lock := final_lock r;
                   threads := <[t := after (result r)]> (threads σ) |},
                result r)
      end
  end.

(** States reachable by [n] threads from the freshly initialised lock. *)
Inductive reachable (n : nat) : system -> Prop :=
| reach_init : reachable n (init_system n)
| reach_step σ t a σ' o :
    reachable n σ -> step t a σ = Some (σ', o) -> reachable n σ'.

Definition is_blocked_writer (st : thread_state) : bool :=
  match st with
  | Blocked write_cond => true
  | _ => false
  end.

Fixpoint blocked_writers (ts : list thread_state) : nat :=
  match ts with
  | [] => 0%nat
  | st :: ts' => ((if is_blocked_writer st then 1 else 0) + blocked_writers ts')%nat
  end.

(** An interleaving, run step by step: who moves, and how. *)
Fixpoint exec (sched : list (nat * action)) (σ : system) : option system :=
  match sched with
  | [] => Some σ
  | (t, a) :: sched' =>
      match step t a σ with
      | Some (σ', _) => exec sched' σ'
      | None => None
      end
  end.

(** Invariant I1 on the lock fields. *)
Definition exclusive (l : my_rwlock_t) : Prop :=
  ¬ (writer_active l ≠ 0 ∧ 0 < active_readers l).

(** The stretches of code a step can run. *)
Definition monitor_code (c : Mon outcome) : Prop :=
  c = rdlock_enter ∨ c = rdlock_retest ∨ c = wrlock_enter ∨ c = wrlock_retest
  ∨ c = unlock_body.

(** The test of the reader's [while]: [writer_active || waiting_writers > 0]. *)
Definition reader_must_wait (l : my_rwlock_t) : Prop :=
  writer_active l ≠ 0 ∨ 0 < waiting_writers l.

(** [waiting_writers] counts the threads that sit in the wait of
    [my_rwlock_wrlock]. *)
Definition writers_registered (σ : system) : Prop :=
  waiting_writers (lock σ) = wrap_int (Z.of_nat (blocked_writers (threads σ))).

(** Thread [t] takes a step of [my_rwlock_rdlock]: it calls it, or it
    resumes inside it. *)
Definition rdlock_step (σ : system) (t : nat) (a : action) : Prop :=
  a = Rdlock ∨ (a = Resume ∧ threads σ !! t = Some (Blocked read_cond)).

(** A run of three threads: thread 0 holds the lock for reading and thread 1
    has asked to write and waits. *)
Definition reader_then_writer : system :=
  {| lock := {| active_readers := 1; waiting_readers := 0;
                waiting_writers := 1; writer_active := 0 |};
     threads := [Running; Blocked write_cond; Running] |}.

(** The same run once thread 2 has asked to read: it waits behind the
    writer. *)
Definition three_threads : system :=
  {| lock := {| active_readers := 1; waiting_readers := 1;
                waiting_writers := 1; writer_active := 0 |};
     threads := [Running; Blocked write_cond; Blocked read_cond] |}.

(** A writer holds the lock and two more wait for it. *)
Definition writer_holds : my_rwlock_t :=
  {| active_readers := 0; waiting_readers := 3; waiting_writers := 2; writer_active := 1 |}.

(** Nobody holds the lock; a reader and a writer are still registered as
    waiting. *)
Definition waiters_only : my_rwlock_t :=
  {| active_readers := 0; waiting_readers := 1; waiting_writers := 1; writer_active := 0 |}.

(** Two readers hold the lock, no writer is about. *)
Definition three_threads_free : system :=
  {| lock := {| active_readers := 2; waiting_readers := 0;
                waiting_writers := 0; writer_active := 0 |};
     threads := [Running; Running; Running] |}.

(** The test of the writer's [while]: [active_readers > 0 || writer_active]. *)
Definition writer_must_wait (l : my_rwlock_t) : Prop :=
  0 < active_readers l ∨ writer_active l ≠ 0.

End RWLock.

(** ** The sorted singly-linked list ([task3_my_rwlock.c]) *)

Module OrderedList.

(** A pointer to a node is an address or [NULL] ([None]).  The heap holds
    the allocated nodes; reading through [NULL] or through an address that
    is not allocated has no defined result ([Fault]). *)
Record list_node_s : Type := {
  data : Z;
  next : option positive
}.

(** The global [head] and the nodes [malloc] has handed out and [free] has
    not taken back. *)
Record memory : Type := {
  head : option positive;
  nodes : gmap positive list_node_s
}.

Definition empty_memory : memory := {| head := None; nodes := ∅ |}.

Inductive res (A : Type) : Type :=
| Done (a : A)       (* the function returns *)
| Fault              (* a dereference of NULL or of an unallocated address *)
| Loops.             (* the loop bound ran out: the chain is cyclic *)
Arguments Done {A} a.
Arguments Fault {A}.
Arguments Loops {A}.

#[global] Instance res_ret : MRet res := fun A a => Done a.
#[global] Instance res_bind : MBind res := fun A B k m =>
  match m with
  | Done a => k a
  | Fault => Fault
  | Loops => Loops
  end.

(** [p->data] and the like: the node [p] points to. *)
Definition deref (m : gmap positive list_node_s) (p : option positive) : res list_node_s :=
  match p with
  | None => Fault
  | Some a => match m !! a with
              | Some n => Done n
              | None => Fault
              end
  end.

(** The loop shared by [Insert], [Member] and [Delete]:
    [while (curr != NULL && curr->data < value) { pred = curr; curr = curr->next; }]
    It returns the final [(pred, curr)].  [fuel] bounds the number of
    iterations; a chain without a cycle never has more nodes than the heap. *)
Fixpoint scan (fuel : nat) (m : gmap positive list_node_s) (value : Z)
    (pred curr : option positive) : res (option positive * option positive) :=
  match curr with
  | None => Done (pred, curr)
  | Some c =>
      match m !! c with
      | None => Fault
      | Some n =>
          if data n <? value then
            match fuel with
            | O => Loops
            | S fuel' => scan fuel' m value curr (next n)
            end
          else Done (pred, curr)
      end
  end.

(** [curr == NULL || curr->data > value] *)
Definition null_or_greater (m : gmap positive list_node_s) (curr : option positive)
    (value : Z) : res bool :=
  match curr with
  | None => Done true
  | Some _ => n ← deref m curr; mret (value <? data n)
  end.

(** [int Insert(int value)].  [temp] is what the call of [malloc] returns if
    it is reached: a fresh address, or [NULL].  The code stores through
    [temp] without testing it. *)
Definition Insert (value : Z) (temp : option positive) (st : memory) : res (Z * memory) :=
  '(pred, curr) ← scan (size (nodes st)) (nodes st) value None (head st);
  b ← null_or_greater (nodes st) curr value;
  if b : bool then
    match temp with
    | None => Fault                                   (* temp->data = value *)
    | Some t =>
        let m1 := <[t := {| data := value; next := curr |}]> (nodes st) in
        match pred with
        | None => mret (1, {| head := temp; nodes := m1 |})
        | Some p =>
            n ← deref m1 pred;                        (* pred->next = temp *)
            mret (1, {| head := head st;
                        nodes := <[p := {| data := data n; next := temp |}]> m1 |})
        end
    end
  else mret (0, st).

(** [int Member(int value)] *)
Definition Member (value : Z) (st : memory) : res Z :=
  '(_, temp) ← scan (size (nodes st)) (nodes st) value None (head st);
  b ← null_or_greater (nodes st) temp value;
  if b : bool then mret 0 else mret 1.

(** [int Delete(int value)]; [free(curr)] removes the node from the heap. *)
Definition Delete (value : Z) (st : memory) : res (Z * memory) :=
  '(pred, curr) ← scan (size (nodes st)) (nodes st) value None (head st);
  match curr with
  | None => mret (0, st)
  | Some c =>
      n ← deref (nodes st) curr;
      if data n =? value then
        match pred with
        | None => mret (1, {| head := next n; nodes := delete c (nodes st) |})
        | Some p =>
            np ← deref (nodes st) pred;               (* pred->next = curr->next *)
            mret (1, {| head := head st;
                        nodes := delete c (<[p := {| data := data np; next := next n |}]>
                                             (nodes st)) |})
        end
      else mret (0, st)
  end.

(** [int Is_empty(void)] *)
Definition Is_empty (st : memory) : Z :=
  match head st with
  | None => 1
  | Some _ => 0
  end.

(** *** What a heap represents

    [lseg m p q ns]: starting at [p] and following [next], the nodes at the
    addresses and with the keys of [ns] are met in that order, and the last
    one points to [q]. *)
Fixpoint lseg (m : gmap positive list_node_s) (p q : option positive)
    (ns : list (positive * Z)) : Prop :=
  match ns with
  | [] => p = q
  | (a, k) :: ns' =>
      p = Some a ∧ ∃ nx, m !! a = Some {| data := k; next := nx |} ∧ lseg m nx q ns'
  end.

(** The list hanging off [head] is [ns], and it ends in [NULL]. *)
Definition is_list (st : memory) (ns : list (positive * Z)) : Prop :=
  lseg (nodes st) (head st) None ns.

Definition keys (ns : list (positive * Z)) : list Z := ns.*2.

(** Strictly ascending keys; in particular no key occurs twice. *)
Definition ascending (ks : list Z) : Prop := StronglySorted Z.lt ks.

(** The keys of the chain starting at [p], read off the heap:
    [None] when the chain does not end in [NULL] within [fuel] nodes. *)
Fixpoint chain_keys (fuel : nat) (m : gmap positive list_node_s) (p : option positive)
    : option (list Z) :=
  match p with
  | None => Some []
  | Some a =>
      match fuel, m !! a with
      | S fuel', Some n => cons (data n) <$> chain_keys fuel' m (next n)
      | _, _ => None
      end
  end.

Definition key_sequence (st : memory) : option (list Z) :=
  chain_keys (size (nodes st)) (nodes st) (head st).

(** *** The walk of the loop, on the represented list

    [below value ns] are the leading nodes with a key [< value], the ones the
    loop steps over; [rest value ns] is what is left, starting at the first
    key [>= value]. *)
Fixpoint below (value : Z) (ns : list (positive * Z)) : list (positive * Z) :=
  match ns with
  | [] => []
  | (a, k) :: ns' => if k <? value then (a, k) :: below value ns' else []
  end.

Fixpoint rest (value : Z) (ns : list (positive * Z)) : list (positive * Z) :=
  match ns with
  | [] => []
  | (a, k) :: ns' => if k <? value then rest value ns' else ns
  end.

(** The address of the last node of [ns], or [pred] if there is none. *)
Fixpoint last_addr (pred : option positive) (ns : list (positive * Z)) : option positive :=
  match ns with
  | [] => pred
  | (a, _) :: ns' => last_addr (Some a) ns'
  end.

(** The address of the first node of [ns], or [NULL]. *)
Definition first_addr (ns : list (positive * Z)) : option positive :=
  match ns with
  | [] => None
  | (a, _) :: _ => Some a
  end.

(** The list with the node found by [Delete] taken out. *)
Definition unlinked (value : Z) (ns : list (positive * Z)) : list (positive * Z) :=
  below value ns ++ tail (rest value ns).

(** The list with a new node spliced in where the walk stopped. *)
Definition spliced (value : Z) (t : positive) (ns : list (positive * Z))
    : list (positive * Z) :=
  below value ns ++ (t, value) :: rest value ns.

(** What [malloc] may return in heap [m]: [NULL], or an address that is not
    in use. *)
Definition malloc_result (m : gmap positive list_node_s) (temp : option positive) : Prop :=
  match temp with
  | None => True
  | Some t => m !! t = None
  end.

(** The operations that change the list, as the workers and [main] issue
    them. *)
Inductive list_op : Type :=
| do_Insert (value : Z) (temp : option positive)
| do_Delete (value : Z).

Definition run_op (o : list_op) (st : memory) : res (Z * memory) :=
  match o with
  | do_Insert value temp => Insert value temp st
  | do_Delete value => Delete value st
  end.

(** [st'] is the memory after an operation that ran to completion in [st]. *)
Inductive op_step (st st' : memory) : Prop :=
| op_step_intro o rv :
    (∀ value temp, o = do_Insert value temp → malloc_result (nodes st) temp) →
    run_op o st = Done (rv, st') →
    op_step st st'.

(** The memories met after each completed operation of a run that starts
    with the empty list. *)
Inductive after_ops : memory -> Prop :=
| after_none : after_ops empty_memory
| after_more st st' : after_ops st -> op_step st st' -> after_ops st'.

(** A list of three nodes, keys 3, 4 and 5, as three calls of [Insert] on
    the empty list leave it (5 first, then 3, then 4). *)
Definition three_nodes : list (positive * Z) :=
  [(2%positive, 3); (3%positive, 4); (1%positive, 5)].

Definition three_keys : memory :=
  {| head := Some 2%positive;
     nodes := <[2%positive := {| data := 3; next := Some 3%positive |}]>
              (<[3%positive := {| data := 4; next := Some 1%positive |}]>
               (<[1%positive := {| data := 5; next := None |}]> ∅)) |}.

(** The two memories on the way to [three_keys]. *)
Definition one_key : memory :=
  {| head := Some 1%positive;
     nodes := <[1%positive := {| data := 5; next := None |}]> ∅ |}.

Definition two_keys : memory :=
  {| head := Some 2%positive;
     nodes := <[2%positive := {| data := 3; next := Some 1%positive |}]>
              (<[1%positive := {| data := 5; next := None |}]> ∅) |}.

(** [free(p)]: freeing an address that is not allocated has no defined
    result. *)
Definition free_node (m : gmap positive list_node_s) (a : positive)
    : res (gmap positive list_node_s) :=
  match m !! a with
  | Some _ => Done (delete a m)
  | None => Fault
  end.

(** The loop of [Free_list] and the [free(current)] after it:
    [while (following != NULL) { free(current); current = following;
    following = current->next; }  free(current);] *)
Fixpoint free_chain (fuel : nat) (m : gmap positive list_node_s) (current : positive)
    (following : option positive) : res (gmap positive list_node_s) :=
  match following with
  | None => free_node m current
  | Some f =>
      match fuel with
      | O => Loops
      | S fuel' =>
          m1 ← free_node m current;
          n ← deref m1 following;
          free_chain fuel' m1 f (next n)
      end
  end.

(** [void Free_list(void)].  It frees the nodes and leaves [head] as it
    was. *)
Definition Free_list (st : memory) : res memory :=
  match head st with
  | None => mret st
  | Some current =>
      n ← deref (nodes st) (head st);
      m ← free_chain (size (nodes st)) (nodes st) current (next n);
      mret {| head := head st; nodes := m |}
  end.

(** The addresses of the nodes of a list. *)
Definition addresses (ns : list (positive * Z)) : list positive := ns.*1.

End OrderedList.

(** ** The workload driver ([task3_my_rwlock.c]) *)

Module Driver.

Definition MAX_KEY : Z := 100000000.

(** [unsigned my_rand(unsigned* seed)]: the new [*seed] and the value
    returned. *)
Definition my_rand (seed : Z) : Z * Z :=
  let seed' := wrap_unsigned (seed * 1103515245 + 12345) in
  (seed', (seed' / 65536) mod 32768).

(** [val = my_rand(&seed) % MAX_KEY]: the remainder is taken on [unsigned]
    (the [int] constant is converted), the result stored in an [int]. *)
Definition draw_key (seed : Z) : Z * Z :=
  let '(seed', r) := my_rand seed in
  (seed', wrap_int (r mod wrap_unsigned MAX_KEY)).

(** The three branches of the worker's loop body. *)
Inductive op_class : Type := Search | Insertion | Deletion.

(** The thread-local, and the global, operation counters. *)
Record counts : Type := {
  member_count : Z;
  insert_count : Z;
  delete_count : Z
}.

Definition no_counts : counts :=
  {| member_count := 0; insert_count := 0; delete_count := 0 |}.

(** [my_member_count++] and its two siblings. *)
Definition tally (c : counts) (o : op_class) : counts :=
  match o with
  | Search =>
      {| member_count := wrap_int (member_count c + 1);
         insert_count := insert_count c; delete_count := delete_count c |}
  | Insertion =>
      {| member_count := member_count c;
         insert_count := wrap_int (insert_count c + 1); delete_count := delete_count c |}
  | Deletion =>
      {| member_count := member_count c; insert_count := insert_count c;
         delete_count := wrap_int (delete_count c + 1) |}
  end.

(** The three [+=] a worker does while it holds [count_mutex]. *)
Definition fold_in (global mine : counts) : counts :=
  {| member_count := wrap_int (member_count global + member_count mine);
     insert_count := wrap_int (insert_count global + insert_count mine);
     delete_count := wrap_int (delete_count global + delete_count mine) |}.

Definition total (c : counts) : Z := member_count c + insert_count c + delete_count c.

(** No counter is negative. *)
Definition counted (c : counts) : Prop :=
  0 <= member_count c ∧ 0 <= insert_count c ∧ 0 <= delete_count c.

(** The counter a branch increments. *)
Definition counter_of (o : op_class) : counts -> Z :=
  match o with
  | Search => member_count
  | Insertion => insert_count
  | Deletion => delete_count
  end.

End Driver.

(** ** [main]: filling the list before the threads start *)

Module Main.
Import OrderedList Driver.

(** [long] is 64 bits wide. *)
Definition LONG_MIN : Z := -9223372036854775808.
Definition wrap_long (z : Z) : Z := (z - LONG_MIN) mod 18446744073709551616 + LONG_MIN.

Section Populate.

(** The allocator: what [malloc] returns in a given heap. *)
Variable malloc : gmap positive list_node_s -> option positive.

Variable inserts_in_main : Z.

(** The loop of [main] that inserts the initial keys:
    [while (i < inserts_in_main && attempts < 2*inserts_in_main) {
       key = my_rand(&seed) % MAX_KEY; success = Insert(key);
       attempts++; if (success) i++; }]
    with [long i] and [int attempts].  It returns [i], [attempts], the seed
    and the memory at the exit of the loop. *)
Fixpoint populate_loop (fuel : nat) (i attempts seed : Z) (st : memory)
    : res (Z * Z * Z * memory) :=
  if (i <? inserts_in_main) && (attempts <? wrap_int (2 * inserts_in_main)) then
    match fuel with
    | O => Loops
    | S fuel' =>
        let '(seed', key) := draw_key seed in
        '(success, st') ← Insert key (malloc (nodes st)) st;
        let attempts' := wrap_int (attempts + 1) in
        let i' := if success =? 0 then i else wrap_long (i + 1) in
        populate_loop fuel' i' attempts' seed' st'
    end
  else mret (i, attempts, seed, st).

(** [main] up to the [printf] of the number of keys inserted: [head] is
    [NULL], [seed] is [1], [i = attempts = 0].  Each iteration increments
    [attempts], so the bound of the loop is enough fuel. *)
Definition populate : res (Z * Z * Z * memory) :=
  populate_loop (Z.to_nat (wrap_int (2 * inserts_in_main))) 0 0 1 empty_memory.

End Populate.

(** An allocator that never fails: it hands out an address that is not in
    use. *)
Definition fresh_malloc (m : gmap positive list_node_s) : option positive :=
  Some (fresh (dom m)).

(** [malloc] always succeeds, with an address that is not in use. *)
Definition never_fails (malloc : gmap positive list_node_s -> option positive) : Prop :=
  ∀ m, ∃ t, malloc m = Some t ∧ m !! t = None.

(** What holds each time the test of the loop of [populate_loop] is
    reached. *)
Definition filled (inserts_in_main i attempts : Z) (st : memory) : Prop :=
  after_ops st
  ∧ 0 <= i <= attempts
  ∧ i <= Z.max 0 inserts_in_main
  ∧ attempts <= Z.max 0 (wrap_int (2 * inserts_in_main))
  ∧ ∃ ns, is_list st ns ∧ ascending (keys ns)
          ∧ Z.of_nat (length (keys ns)) = i
          ∧ Forall (λ k, 0 <= k < 32768) (keys ns).

End Main.

(** ** The workers around the lock ([Thread_work] and [my_rwlock.c])

    Each worker of [Thread_work] repeats: acquire the lock (for reading
    before [Member], for writing before [Insert] and [Delete]), run the list
    operation, release the lock.  Here the threads carry what they are
    doing, and a thread that waits stays asleep until a wake-up reaches it: a
    [pthread_cond_signal] wakes one of the threads asleep on the condition
    variable (if there is one), a [pthread_cond_broadcast] all of them, and a
    sleeper may also wake spuriously. *)

Module Pool.
Import RWLock.

Inductive worker : Type :=
| Idle                    (* between two operations, or done *)
| Searching               (* in Member: my_rwlock_rdlock has returned *)
| Updating                (* in Insert or Delete: my_rwlock_wrlock has returned *)
| Asleep (c : cond_var)   (* in pthread_cond_wait on c *)
| Woken (c : cond_var).   (* woken on c, about to run the test of its while *)

Inductive move : Type :=
| Acquire_read     (* call my_rwlock_rdlock *)
| Acquire_write    (* call my_rwlock_wrlock *)
| Release          (* call my_rwlock_unlock *)
| Retest           (* a woken thread re-takes the mutex and tests again *)
| Spurious.        (* a sleeper wakes without a signal *)

Record pool : Type := {
  the_lock : my_rwlock_t;
  workers : list worker
}.

Definition init_pool (n : nat) : pool :=
  {| the_lock := init_lock; workers := replicate n Idle |}.

Definition same_cond (c c' : cond_var) : bool :=
  match c, c' with
  | read_cond, read_cond | write_cond, write_cond => true
  | _, _ => false
  end.

Definition searching (w : worker) : bool :=
  match w with Searching => true | _ => false end.
Definition updating (w : worker) : bool :=
  match w with Updating => true | _ => false end.
Definition asleep_on (c : cond_var) (w : worker) : bool :=
  match w with Asleep c' => same_cond c c' | _ => false end.
Definition woken_on (c : cond_var) (w : worker) : bool :=
  match w with Woken c' => same_cond c c' | _ => false end.

(** How many workers satisfy [p]. *)
Fixpoint census (p : worker -> bool) (ws : list worker) : Z :=
  match ws with
  | [] => 0
  | w :: ws' => Z.b2z (p w) + census p ws'
  end.

(** The effect of a broadcast on [c] on one worker. *)
Definition wake_all (c : cond_var) (w : worker) : worker :=
  if asleep_on c w then Woken c else w.

(** The effect of one wake-up call.  A signal with at least one sleeper on
    its condition variable wakes the sleeper [victim]; [None] when [victim]
    is not such a sleeper. *)
Definition deliver (victim : nat) (ws : list worker) (wk : wakeup) : option (list worker) :=
  match wk with
  | cond_broadcast c => Some (wake_all c <$> ws)
  | cond_signal c =>
      if census (asleep_on c) ws =? 0 then Some ws
      else match ws !! victim with
           | Some w => if asleep_on c w then Some (<[victim := Woken c]> ws) else None
           | None => None
           end
  end.

Fixpoint deliver_all (victim : nat) (ws : list worker) (wks : list wakeup)
    : option (list worker) :=
  match wks with
  | [] => Some ws
  | wk :: wks' =>
      match deliver victim ws wk with
      | Some ws' => deliver_all victim ws' wks'
      | None => None
      end
  end.

(** The lock code a worker runs on a move. *)
Definition code_for (w : worker) (mv : move) : option (Mon outcome) :=
  match w, mv with
  | Idle, Acquire_read => Some rdlock_enter
  | Idle, Acquire_write => Some wrlock_enter
  | Searching, Release => Some unlock_body
  | Updating, Release => Some unlock_body
  | Woken read_cond, Retest => Some rdlock_retest
  | Woken write_cond, Retest => Some wrlock_retest
  | _, _ => None
  end.

(** What the worker does next: it sleeps, or the lock function has returned
    and it is in its list operation (after an acquire) or between two
    operations (after a release). *)
Definition next_worker (w : worker) (mv : move) (o : outcome) : worker :=
  match o with
  | Waits c => Asleep c
  | Returned _ =>
      match w, mv with
      | Idle, Acquire_read => Searching
      | Woken read_cond, Retest => Searching
      | Idle, Acquire_write => Updating
      | Woken write_cond, Retest => Updating
      | _, _ => Idle
      end
  end.

(** One atomic step of worker [t]. *)
Definition pstep (t : nat) (mv : move) (victim : nat) (π : pool) : option pool :=
  match workers π !! t with
  | None => None
  | Some w =>
      match w, mv with
      | Asleep c, Spurious =>
          Some {| the_lock := the_lock π; workers := <[t := Woken c]> (workers π) |}
      | _, _ =>
          match code_for w mv with
          | None => None
          | Some body =>
              let r := body (the_lock π) in
              match deliver_all victim
                      (<[t := next_worker w mv (result r)]> (workers π)) (wakeups r) with
              | Some ws => Some {| the_lock := final_lock r; workers := ws |}
              | None => None
              end
          end
      end
  end.

Inductive preachable (n : nat) : pool -> Prop :=
| preach_init : preachable n (init_pool n)
| preach_step π t mv victim π' :
    preachable n π -> pstep t mv victim π = Some π' -> preachable n π'.

(** An interleaving of the workers, run step by step. *)
Fixpoint prun (sched : list (nat * move * nat)) (π : pool) : option pool :=
  match sched with
  | [] => Some π
  | (t, mv, victim) :: sched' =>
      match pstep t mv victim π with
      | Some π' => prun sched' π'
      | None => None
      end
  end.

(** The six head counts. *)
Definition readers_in (ws : list worker) : Z := census searching ws.
Definition writers_in (ws : list worker) : Z := census updating ws.
Definition readers_asleep (ws : list worker) : Z := census (asleep_on read_cond) ws.
Definition readers_woken (ws : list worker) : Z := census (woken_on read_cond) ws.
Definition writers_asleep (ws : list worker) : Z := census (asleep_on write_cond) ws.
Definition writers_woken (ws : list worker) : Z := census (woken_on write_cond) ws.

(** The lock fields count the workers, at most one worker writes and then
    nobody reads, and no sleeper is forgotten: a reader sleeps only while a
    writer holds the lock or waits for it, a writer only while somebody
    holds the lock or a writer has been woken. *)
Definition accounted (π : pool) : Prop :=
  let ws := workers π in
  active_readers (the_lock π) = readers_in ws
  ∧ writer_active (the_lock π) = writers_in ws
  ∧ waiting_readers (the_lock π) = readers_asleep ws + readers_woken ws
  ∧ waiting_writers (the_lock π) = writers_asleep ws + writers_woken ws
  ∧ writers_in ws <= 1
  ∧ (writers_in ws = 1 -> readers_in ws = 0)
  ∧ (0 < readers_asleep ws ->
     writers_in ws = 1 ∨ 0 < writers_asleep ws + writers_woken ws)
  ∧ (0 < writers_asleep ws ->
     0 < readers_in ws ∨ writers_in ws = 1 ∨ 0 < writers_woken ws).

(** A worker that holds the lock or has been woken: it can move on without
    anybody's help. *)
Definition can_move (w : worker) : bool :=
  match w with
  | Searching | Updating | Woken _ => true
  | _ => false
  end.

(** Four workers: worker 0 searches, worker 1 wants to update and sleeps,
    worker 2 wants to search and sleeps behind it. *)
Definition busy_pool : pool :=
  {| the_lock := {| active_readers := 1; waiting_readers := 1;
                    waiting_writers := 1; writer_active := 0 |};
     workers := [Searching; Asleep write_cond; Asleep read_cond; Idle] |}.

(** The same workers once worker 0 has released the lock, which wakes
    worker 1, and worker 1 has got the lock. *)
Definition writing_pool : pool :=
  {| the_lock := {| active_readers := 0; waiting_readers := 1;
                    waiting_writers := 0; writer_active := 1 |};
     workers := [Idle; Updating; Asleep read_cond; Idle] |}.

End Pool.

(** ** The whole run: [Thread_work] in every thread ([task3_my_rwlock.c])

    The threads [main] creates, each running [Thread_work] on the shared
    lock, the shared list and the global counters.  A thread moves in atomic
    stretches: it passes the test of its [for], draws [which_op] and [val]
    and calls the lock; it re-tests inside the lock after a wake-up; it runs
    its list operation once the lock function has returned; it releases the
    lock, counts the operation and increments [i]; and, its loop over, it
    adds its counters to the globals under [count_mutex].  The stretches
    inside the lock functions run under [rwlock->mutex]; a list call is one
    step, as [Member] writes nothing and a thread is in [Insert] or [Delete]
    only while it holds the lock alone.  A list operation that faults kills
    the process. *)

Module Program.
Import RWLock OrderedList Driver Pool.

(** [a / b] on [int]: truncation towards zero; the division traps on a zero
    divisor and on [INT_MIN / -1]. *)
Definition int_div (a b : Z) : option Z :=
  if (b =? 0) || ((a =? INT_MIN) && (b =? -1)) then None else Some (a ÷ b).

(** Where a thread is in [Thread_work]. *)
Inductive stage : Type :=
| AtLoop      (* at the test of the for loop *)
| Called      (* in my_rwlock_rdlock or my_rwlock_wrlock, or just back from it *)
| Operated    (* Member, Insert or Delete has returned *)
| Folded.     (* past the section guarded by count_mutex *)

(** The local variables of [Thread_work]; [mine] holds [my_member_count],
    [my_insert_count] and [my_delete_count], [which] the branch that
    [which_op] selects. *)
Record frame : Type := {
  i : Z;
  seed : Z;
  ops_per_thread : Z;
  mine : counts;
  val : Z;
  which : op_class;
  at_stage : stage
}.

Record program : Type := {
  pool : Pool.pool;           (* rwlock, and what each thread does with it *)
  shared : memory;            (* head and the nodes *)
  frames : list frame;        (* one per thread, by rank *)
  globals : counts            (* member_count, insert_count, delete_count *)
}.

Inductive action : Type :=
| Begin         (* i < ops_per_thread: draw, then call the lock *)
| Wake          (* woken inside the lock: test again *)
| Spuriously    (* wake up without a signal *)
| Operate       (* Member(val), Insert(val) or Delete(val) *)
| Finish        (* my_rwlock_unlock, count the operation, i++ *)
| Fold_in.      (* the loop is over: add the counters to the globals *)

(** The lock call of each branch. *)
Definition acquire_for (o : op_class) : move :=
  match o with
  | Search => Acquire_read
  | Insertion => Acquire_write
  | Deletion => Acquire_write
  end.

Definition folded (f : frame) : bool :=
  match at_stage f with
  | Folded => true
  | _ => false
  end.

(** All threads have run the section guarded by [count_mutex]. *)
Definition all_folded (σ : program) : bool := forallb folded (frames σ).

(** The sum of [g] over the threads. *)
Fixpoint weigh (g : frame -> Z) (fs : list frame) : Z :=
  match fs with
  | [] => 0
  | f :: fs' => g f + weigh g fs'
  end.

(** What a thread that has folded contributed to a global counter. *)
Definition contribution (o : op_class) (f : frame) : Z :=
  if folded f then counter_of o (mine f) else 0.

Section Run.

(** The branch the comparisons of [which_op] with [search_percent] and
    [search_percent + insert_percent] select.  [which_op] is the draw [r] of
    [my_rand] divided by [32768.0]; the comparisons are on [double]s, so the
    choice is kept abstract, as a function of [r]. *)
Variable branch : Z -> op_class.

(** [time(NULL)] as thread [rank] reads it. *)
Variable now : nat -> Z.

(** The allocator: what [malloc] returns in a given heap. *)
Variable malloc : gmap positive list_node_s -> option positive.

Variables thread_count total_ops : Z.

(** The list as [main] leaves it before it creates the threads. *)
Variable st0 : memory.

(** The locals of [Thread_work(rank)] at its first test of [i < ops_per_thread];
    [share] is [total_ops / thread_count].  [val] and [which_op] are not
    initialised; they are written before they are read. *)
Definition Thread_entry (share : Z) (rank : nat) : frame :=
  {| i := 0;
     seed := wrap_unsigned (Z.of_nat rank + now rank);
     ops_per_thread := share;
     mine := no_counts;
     val := 0;
     which := Search;
     at_stage := AtLoop |}.

(** The state once [main] has created its threads, of ranks
    [0 .. thread_count - 1], and each has set up its locals.  A thread that
    has set up its locals and not yet moved has touched nothing that is
    shared, so the threads that run while [main] still creates the others
    are covered.  With no thread nothing is divided; with at least one, a
    division that traps kills the process. *)
Definition start : option program :=
  let n := Z.to_nat thread_count in
  match n with
  | O => Some {| pool := init_pool n; shared := st0; frames := []; globals := no_counts |}
  | S _ =>
      match int_div total_ops thread_count with
      | None => None
      | Some share =>
          Some {| pool := init_pool n; shared := st0;
                  frames := Thread_entry share <$> seq 0 n;
                  globals := no_counts |}
      end
  end.

(** The list call of each branch; its return value is not used. *)
Definition list_call (o : op_class) (v : Z) (st : memory) : res memory :=
  match o with
  | Search => _ ← Member v st; mret st
  | Insertion => r ← Insert v (malloc (nodes st)) st; mret (snd r)
  | Deletion => r ← Delete v st; mret (snd r)
  end.

(** The locals after the two draws at the head of the loop body. *)
Definition drawn (f : frame) : frame :=
  let '(seed1, r) := my_rand (seed f) in
  let '(seed2, v) := draw_key seed1 in
  {| i := i f; seed := seed2; ops_per_thread := ops_per_thread f; mine := mine f;
     val := v; which := branch r; at_stage := Called |}.

Definition operated (f : frame) : frame :=
  {| i := i f; seed := seed f; ops_per_thread := ops_per_thread f; mine := mine f;
     val := val f; which := which f; at_stage := Operated |}.

(** [my_member_count++] (or its sibling) and the [i++] of the loop. *)
Definition finished (f : frame) : frame :=
  {| i := wrap_int (i f + 1); seed := seed f; ops_per_thread := ops_per_thread f;
     mine := tally (mine f) (which f);
     val := val f; which := which f; at_stage := AtLoop |}.

Definition past_fold (f : frame) : frame :=
  {| i := i f; seed := seed f; ops_per_thread := ops_per_thread f; mine := mine f;
     val := val f; which := which f; at_stage := Folded |}.

Definition with_pool (σ : program) (t : nat) (f : frame) (π : option Pool.pool)
    : option (res program) :=
  match π with
  | Some π' => Some (Done {| pool := π'; shared := shared σ;
                             frames := <[t := f]> (frames σ); globals := globals σ |})
  | None => None
  end.

(** One atomic stretch of thread [t].  [None]: the thread cannot make that
    move now; [Some Fault]: the process dies in a list call. *)
Definition Thread_work (t : nat) (a : action) (victim : nat) (σ : program)
    : option (res program) :=
  match frames σ !! t with
  | None => None
  | Some f =>
      match a, at_stage f with
      | Begin, AtLoop =>
          if i f <? ops_per_thread f then
            with_pool σ t (drawn f)
              (pstep t (acquire_for (which (drawn f))) victim (pool σ))
          else None
      | Wake, Called => with_pool σ t f (pstep t Retest victim (pool σ))
      | Spuriously, Called => with_pool σ t f (pstep t Spurious victim (pool σ))
      | Operate, Called =>
          match workers (pool σ) !! t with
          | Some Searching | Some Updating =>
              match list_call (which f) (val f) (shared σ) with
              | Done st' =>
                  Some (Done {| pool := pool σ; shared := st';
                                frames := <[t := operated f]> (frames σ);
                                globals := globals σ |})
              | Fault => Some Fault
              | Loops => Some Loops
              end
          | _ => None
          end
      | Finish, Operated =>
          with_pool σ t (finished f) (pstep t Release victim (pool σ))
      | Fold_in, AtLoop =>
          if i f <? ops_per_thread f then None
          else Some (Done {| pool := pool σ; shared := shared σ;
                             frames := <[t := past_fold f]> (frames σ);
                             globals := fold_in (globals σ) (mine f) |})
      | _, _ => None
      end
  end.

(** The states of a run. *)
Inductive running : program -> Prop :=
| running_start σ : start = Some σ -> running σ
| running_step σ t a victim σ' :
    running σ -> Thread_work t a victim σ = Some (Done σ') -> running σ'.

(** A run, step by step: who moves, how, and whom its signal wakes. *)
Fixpoint run (sched : list (nat * action * nat)) (σ : program) : option (res program) :=
  match sched with
  | [] => Some (Done σ)
  | (t, a, victim) :: sched' =>
      match Thread_work t a victim σ with
      | Some (Done σ') => run sched' σ'
      | other => other
      end
  end.

End Run.

(** *** What holds along a run *)

(** What the lock bookkeeping says about a thread fits where the thread is in
    [Thread_work]. *)
Definition agrees (w : worker) (f : frame) : Prop :=
  match at_stage f with
  | AtLoop => w = Idle
  | Folded => w = Idle
  | Called =>
      match which f with
      | Search => w = Asleep read_cond ∨ w = Woken read_cond ∨ w = Searching
      | _ => w = Asleep write_cond ∨ w = Woken write_cond ∨ w = Updating
      end
  | Operated =>
      match which f with
      | Search => w = Searching
      | _ => w = Updating
      end
  end.

(** The locals of a thread whose share is [share]: its counters add up to
    the number [i] of operations it has completed. *)
Definition frame_ok (share : Z) (f : frame) : Prop :=
  ops_per_thread f = share
  ∧ counted (mine f)
  ∧ total (mine f) = i f
  ∧ 0 <= i f <= share
  ∧ (at_stage f = Called ∨ at_stage f = Operated -> i f < share)
  ∧ (at_stage f = Folded -> i f = share).

Definition sound (n : nat) (share : Z) (σ : program) : Prop :=
  accounted (pool σ)
  ∧ length (workers (pool σ)) = n
  ∧ length (frames σ) = n
  ∧ after_ops (shared σ)
  ∧ (∀ t w f, workers (pool σ) !! t = Some w -> frames σ !! t = Some f -> agrees w f)
  ∧ (∀ t f, frames σ !! t = Some f -> frame_ok share f)
  ∧ counted (globals σ)
  ∧ (∀ o, counter_of o (globals σ) = weigh (contribution o) (frames σ))
  ∧ total (globals σ) = share * weigh (fun f => Z.b2z (folded f)) (frames σ).

(** What a move of the lock makes of the worker that takes it. *)
Definition after_move (w : worker) (mv : move) (w' : worker) : Prop :=
  match mv with
  | Acquire_read => w = Idle ∧ (w' = Asleep read_cond ∨ w' = Searching)
  | Acquire_write => w = Idle ∧ (w' = Asleep write_cond ∨ w' = Updating)
  | Release => (w = Searching ∨ w = Updating) ∧ w' = Idle
  | Retest =>
      (w = Woken read_cond ∧ (w' = Asleep read_cond ∨ w' = Searching))
      ∨ (w = Woken write_cond ∧ (w' = Asleep write_cond ∨ w' = Updating))
  | Spurious => ∃ c, w = Asleep c ∧ w' = Woken c
  end.

(** A worker stays as it is, or a sleeper has been woken. *)
Definition kept_or_woken (w w' : worker) : Prop :=
  w' = w ∨ ∃ c, w = Asleep c ∧ w' = Woken c.

(** The steps a thread still has to take, when each of the [n] threads may
    be woken once by every release. *)
Definition effort (n : nat) (f : frame) : Z :=
  let rounds := (Z.of_nat n + 3) * (ops_per_thread f - i f) in
  match at_stage f with
  | AtLoop => rounds + 1
  | Called => rounds
  | Operated => rounds - 1
  | Folded => 0
  end.

Definition remaining (n : nat) (σ : program) : Z :=
  weigh (effort n) (frames σ)
  + readers_woken (workers (pool σ)) + writers_woken (workers (pool σ)).

(** A run in which no thread wakes up without a signal. *)
Definition no_spurious (sched : list (nat * action * nat)) : Prop :=
  Forall (fun s => s.1.2 ≠ Spuriously) sched.

(** *** A run of two threads

    Two threads, three operations asked for, the list empty, every clock
    reading 0: each thread has one operation to do.  Thread 0 draws a search
    and gets the lock; thread 1 draws an insertion of 5758 and sleeps in
    [my_rwlock_wrlock] until the unlock of thread 0 wakes it. *)
Definition two_threads_branch (r : Z) : op_class :=
  if r <? 16384 then Search else Insertion.

Definition two_threads_schedule : list (nat * action * nat) :=
  [(0, Begin, 0); (1, Begin, 0); (0, Operate, 0); (0, Finish, 1); (1, Wake, 0);
   (1, Operate, 0); (1, Finish, 0); (0, Fold_in, 0); (1, Fold_in, 0)]%nat.

Definition two_threads_end : program :=
  {| pool := init_pool 2;
     shared := {| head := Some 1%positive;
                  nodes := <[1%positive := {| data := 5758; next := None |}]> ∅ |};
     frames :=
       [ {| i := 1; seed := 3554416254; ops_per_thread := 1;
            mine := {| member_count := 1; insert_count := 0; delete_count := 0 |};
            val := 21468; which := Search; at_stage := Folded |};
         {| i := 1; seed := 2524885223; ops_per_thread := 1;
            mine := {| member_count := 0; insert_count := 1; delete_count := 0 |};
            val := 5758; which := Insertion; at_stage := Folded |} ];
     globals := {| member_count := 1; insert_count := 1; delete_count := 0 |} |}.

End Program.

(* ===================================================================== *)
(** * Part II: theorems                                                   *)
(* ===================================================================== *)

(** ** Wrap-around *)

Lemma wrap_int_id z : int_range z -> wrap_int z = z.
Proof.
  unfold int_range, wrap_int, INT_MIN, INT_MAX, UINT_MODULUS. intros Hz.
  rewrite Z.mod_small; lia.
Qed.

Lemma wrap_int_range z : int_range (wrap_int z).
Proof.
  unfold int_range, wrap_int, INT_MIN, INT_MAX, UINT_MODULUS.
  pose proof (Z.mod_pos_bound (z - -2147483648) 4294967296). lia.
Qed.

Lemma wrap_int_add_l a b : wrap_int (wrap_int a + b) = wrap_int (a + b).
Proof.
  unfold wrap_int. f_equal.
  replace ((a - INT_MIN) mod UINT_MODULUS + INT_MIN + b - INT_MIN)
    with ((a - INT_MIN) mod UINT_MODULUS + b) by ring.
  rewrite Z.add_mod_idemp_l by (unfold UINT_MODULUS; lia).
  f_equal. ring.
Qed.

(** ** The lock *)

Module RWLockFacts.
Import RWLock.

(** Unfold a stretch of monitor code applied to a lock with named fields. *)
Ltac run_mon :=
  unfold rdlock_enter, rdlock_retest, wrlock_enter, wrlock_retest, unlock_body;
  unfold mbind, mret, mon_bind, mon_ret, load, store, wake,
    final_lock, result, wakeups,
    set_active_readers, set_waiting_readers, set_waiting_writers, set_writer_active;
  cbn -[wrap_int Z.eqb Z.ltb].

Ltac split_tests :=
  repeat match goal with
         | |- context [ if ?b then _ else _ ] => destruct b eqn:?; cbn -[wrap_int Z.eqb Z.ltb]
         end.

Lemma code_of_monitor st a c : code_of st a = Some c -> monitor_code c.
Proof.
  unfold monitor_code.
  destruct st as [|[]], a; simpl; intros [= <-]; auto 6.
Qed.

Lemma exclusive_preserved c l :
  monitor_code c -> exclusive l -> exclusive (final_lock (c l)).
Proof.
  unfold exclusive.
  destruct l as [ar wr ww wa].
  intros [->|[->|[->|[->| ->]]]]; run_mon; split_tests; cbn; lia.
Qed.

Lemma step_lock t a σ σ' o :
  step t a σ = Some (σ', o) ->
  ∃ st c, threads σ !! t = Some st ∧ code_of st a = Some c
          ∧ lock σ' = final_lock (c (lock σ)) ∧ o = result (c (lock σ))
          ∧ threads σ' = <[t := after o]> (threads σ).
Proof.
  unfold step. intros H.
  destruct (threads σ !! t) as [st|] eqn:Ht; [|done].
  destruct (code_of st a) as [c|] eqn:Hc; [|done].
  injection H as <- <-. exists st, c. done.
Qed.

Lemma reachable_exclusive n σ : reachable n σ -> exclusive (lock σ).
Proof.
  induction 1 as [|σ t a σ' o _ IH Hstep].
  - unfold exclusive. simpl. lia.
  - apply step_lock in Hstep as (st & c & _ & Hc & -> & _).
    eapply exclusive_preserved; eauto using code_of_monitor.
Qed.

(** C1. Mutual exclusion (invariant I1): in every state that [n] threads
    reach from the initialised lock by any interleaving of calls of
    [my_rwlock_rdlock], [my_rwlock_wrlock] and [my_rwlock_unlock] (and of
    returns from their waits), [writer_active] and [active_readers > 0] do
    not hold together. *)
Theorem mutual_exclusion n σ :
  reachable n σ ->
  ¬ (writer_active (lock σ) ≠ 0 ∧ 0 < active_readers (lock σ)).
Proof. apply reachable_exclusive. Qed.

Lemma exec_reachable n sched σ σ' :
  reachable n σ -> exec sched σ = Some σ' -> reachable n σ'.
Proof.
  revert σ. induction sched as [|[t a] sched IH]; simpl; intros σ Hr He.
  - injection He as <-. exact Hr.
  - destruct (step t a σ) as [[σ1 o]|] eqn:Hs; [|done].
    eapply IH; [|exact He]. eapply reach_step; eauto.
Qed.

Lemma three_threads_reachable : reachable 3 three_threads.
Proof.
  apply (exec_reachable 3 [(0, Rdlock); (1, Wrlock); (2, Rdlock)]%nat (init_system 3)).
  - apply reach_init.
  - reflexivity.
Qed.

Lemma mutual_exclusion_witness :
  ¬ (writer_active (lock three_threads) ≠ 0 ∧ 0 < active_readers (lock three_threads)).
Proof. exact (mutual_exclusion 3 three_threads three_threads_reachable). Defined.

(** *** Writer priority *)

Lemma blocked_writers_insert ts t st st' :
  ts !! t = Some st ->
  Z.of_nat (blocked_writers (<[t := st']> ts))
  = Z.of_nat (blocked_writers ts)
    - Z.b2z (is_blocked_writer st) + Z.b2z (is_blocked_writer st').
Proof.
  revert t. induction ts as [|x ts IH]; intros [|t]; simpl; try done.
  - intros [= ->]. destruct (is_blocked_writer st), (is_blocked_writer st'); simpl; lia.
  - intros Ht. specialize (IH t Ht). destruct (is_blocked_writer x); lia.
Qed.

Lemma blocked_writers_length ts : (blocked_writers ts <= length ts)%nat.
Proof. induction ts as [|x ts IH]; simpl; [lia|]. destruct (is_blocked_writer x); lia. Qed.

Lemma blocked_writers_pos ts w :
  ts !! w = Some (Blocked write_cond) -> (0 < blocked_writers ts)%nat.
Proof.
  revert w. induction ts as [|x ts IH]; intros [|w]; simpl; try done.
  - intros [= ->]. simpl. lia.
  - intros Hw. specialize (IH w Hw). lia.
Qed.

Lemma reachable_length n σ : reachable n σ -> length (threads σ) = n.
Proof.
  induction 1 as [|σ t a σ' o _ IH Hstep].
  - simpl. apply length_replicate.
  - apply step_lock in Hstep as (st & c & _ & _ & _ & _ & ->).
    by rewrite length_insert.
Qed.

Lemma wrap_step_back a : wrap_int (wrap_int (wrap_int a + 1) - 1) = wrap_int a.
Proof.
  replace (wrap_int (wrap_int a + 1) - 1) with (wrap_int (wrap_int a + 1) + -1) by ring.
  rewrite wrap_int_add_l.
  replace (wrap_int a + 1 + -1) with (wrap_int a + 0) by ring.
  rewrite wrap_int_add_l. f_equal. ring.
Qed.

Lemma reachable_writers_registered n σ : reachable n σ -> writers_registered σ.
Proof.
  unfold writers_registered.
  induction 1 as [|σ t a σ' o _ IH Hstep].
  - simpl. induction n; simpl; auto.
  - apply step_lock in Hstep as (st & c & Ht & Hc & -> & -> & ->).
    rewrite (blocked_writers_insert _ _ _ _ Ht).
    destruct σ as [[ar wr ww wa] ts]. simpl in *. subst ww.
    set (k := Z.of_nat (blocked_writers ts)).
    destruct st as [|[]], a; simpl in Hc; try discriminate;
      injection Hc as <-; run_mon; split_tests;
      rewrite ?wrap_step_back; try reflexivity;
      try (replace (k - 0 + 0) with k by ring; reflexivity).
    + rewrite wrap_int_add_l. f_equal. ring.
    + f_equal. ring.
    + replace (wrap_int k - 1) with (wrap_int k + -1) by ring.
      rewrite wrap_int_add_l. f_equal. ring.
Qed.

(** While the test of its loop holds, a reader registers as waiting and goes
    to sleep, and a reader that wakes goes back to sleep; neither touches
    [active_readers]. *)
Lemma reader_waits l :
  reader_must_wait l ->
  rdlock_enter l
  = (Waits read_cond, set_waiting_readers (wrap_int (waiting_readers l + 1)) l, [])
  ∧ rdlock_retest l = (Waits read_cond, l, []).
Proof.
  unfold reader_must_wait. destruct l as [ar wr ww wa]. simpl. intros Hw.
  assert (negb (wa =? 0) || (0 <? ww) = true) as Hb.
  { destruct (Z.eqb_spec wa 0), (Z.ltb_spec 0 ww); simpl; try reflexivity; lia. }
  split; run_mon; rewrite Hb; reflexivity.
Qed.

Lemma blocked_writer_registered n σ w :
  Z.of_nat n <= INT_MAX -> reachable n σ ->
  threads σ !! w = Some (Blocked write_cond) ->
  0 < waiting_writers (lock σ).
Proof.
  intros Hn Hr Hw.
  rewrite (reachable_writers_registered n σ Hr).
  pose proof (blocked_writers_pos _ _ Hw).
  pose proof (blocked_writers_length (threads σ)).
  rewrite (reachable_length n σ Hr) in *.
  rewrite wrap_int_id; [lia|]. unfold int_range, INT_MIN, INT_MAX in *. lia.
Qed.

(** C2. Writer priority, no reader overtaking.  (1) While
    [writer_active || waiting_writers > 0] holds, a reader entering
    [my_rwlock_rdlock] increments [waiting_readers] and waits, a reader
    waking in it waits again, and [active_readers] is not touched.  (2) Hence,
    in every state that at most [INT_MAX] threads can reach in which some
    thread [w] sits in the wait of [my_rwlock_wrlock], every step of
    [my_rwlock_rdlock] by any thread [r] (its call, or a return from its
    wait) leaves [r] waiting: no reader is admitted before [w] is. *)
Theorem writer_priority :
  (∀ l, reader_must_wait l ->
        rdlock_enter l
        = (Waits read_cond, set_waiting_readers (wrap_int (waiting_readers l + 1)) l, [])
        ∧ rdlock_retest l = (Waits read_cond, l, [])
        ∧ active_readers (final_lock (rdlock_enter l)) = active_readers l
        ∧ active_readers (final_lock (rdlock_retest l)) = active_readers l)
  ∧ (∀ n σ w r a σ' o,
        Z.of_nat n <= INT_MAX ->
        reachable n σ ->
        threads σ !! w = Some (Blocked write_cond) ->
        rdlock_step σ r a ->
        step r a σ = Some (σ', o) ->
        o = Waits read_cond
        ∧ threads σ' !! r = Some (Blocked read_cond)
        ∧ threads σ' !! w = Some (Blocked write_cond)
        ∧ active_readers (lock σ') = active_readers (lock σ)).
Proof.
  split.
  - intros l Hl. destruct (reader_waits l Hl) as [H1 H2].
    rewrite H1, H2. by destruct l.
  - intros n σ w r a σ' o Hn Hr Hw Hrd Hstep.
    assert (reader_must_wait (lock σ)) as Hwait
      by (right; eapply blocked_writer_registered; eauto).
    destruct (reader_waits _ Hwait) as [H1 H2].
    apply step_lock in Hstep as (st & c & Ht & Hc & Hl & -> & Hts).
    assert (r < length (threads σ))%nat as Hlen by (by eapply lookup_lt_Some).
    assert (r ≠ w) as Hne.
    { intros ->. rewrite Hw in Ht. injection Ht as <-.
      destruct Hrd as [-> | [-> Hrd]]; [done|congruence]. }
    assert (c (lock σ) = rdlock_enter (lock σ) ∨ c (lock σ) = rdlock_retest (lock σ)) as Hcode.
    { destruct Hrd as [-> | [-> Hrd]].
      - destruct st as [|[]]; simpl in Hc; try discriminate. injection Hc as <-. by left.
      - rewrite Hrd in Ht. injection Ht as <-. simpl in Hc. injection Hc as <-. by right. }
    rewrite Hl, Hts.
    destruct Hcode as [-> | ->]; rewrite ?H1, ?H2; unfold result, final_lock; simpl;
      (split; [reflexivity|]);
      (split; [by apply list_lookup_insert_eq|]);
      (split; [by rewrite list_lookup_insert_ne|]);
      reflexivity.
Qed.

Lemma reader_then_writer_reachable : reachable 3 reader_then_writer.
Proof.
  apply (exec_reachable 3 [(0, Rdlock); (1, Wrlock)]%nat (init_system 3)).
  - apply reach_init.
  - reflexivity.
Qed.

Lemma writer_priority_witness :
  (rdlock_enter (lock reader_then_writer)
   = (Waits read_cond,
      set_waiting_readers (wrap_int (waiting_readers (lock reader_then_writer) + 1))
        (lock reader_then_writer), [])
   ∧ rdlock_retest (lock reader_then_writer) = (Waits read_cond, lock reader_then_writer, [])
   ∧ active_readers (final_lock (rdlock_enter (lock reader_then_writer)))
     = active_readers (lock reader_then_writer)
   ∧ active_readers (final_lock (rdlock_retest (lock reader_then_writer)))
     = active_readers (lock reader_then_writer))
  ∧ (Waits read_cond = Waits read_cond
     ∧ threads three_threads !! 2%nat = Some (Blocked read_cond)
     ∧ threads three_threads !! 1%nat = Some (Blocked write_cond)
     ∧ active_readers (lock three_threads) = active_readers (lock reader_then_writer)).
Proof.
  split.
  - apply (proj1 writer_priority (lock reader_then_writer)). right. simpl. lia.
  - apply (proj2 writer_priority 3%nat reader_then_writer 1%nat 2%nat Rdlock
             three_threads (Waits read_cond)).
    + unfold INT_MAX. lia.
    + exact reader_then_writer_reachable.
    + reflexivity.
    + left. reflexivity.
    + reflexivity.
Defined.

(** *** Release *)

(** C5. Release wake policy.  When [writer_active] is set, [my_rwlock_unlock]
    clears it, touches no other field, and makes exactly one wake-up call:
    [pthread_cond_signal] on [write_cond] if [waiting_writers > 0], else
    [pthread_cond_broadcast] on [read_cond].  When [writer_active] is clear
    and [active_readers > 0], it decrements [active_readers], touches no other
    field, and signals [write_cond] once if the count has reached zero and
    [waiting_writers > 0]; otherwise it wakes nobody. *)
Theorem release_wake_policy l :
  (writer_active l ≠ 0 ->
   my_rwlock_unlock (Some l)
   = (Returned 0, Some (set_writer_active 0 l),
      [if 0 <? waiting_writers l then cond_signal write_cond
       else cond_broadcast read_cond]))
  ∧ (writer_active l = 0 -> 0 < active_readers l -> int_range (active_readers l) ->
     my_rwlock_unlock (Some l)
     = (Returned 0, Some (set_active_readers (active_readers l - 1) l),
        if (active_readers l - 1 =? 0) && (0 <? waiting_writers l)
        then [cond_signal write_cond] else [])).
Proof.
  destruct l as [ar wr ww wa]. unfold my_rwlock_unlock, on_handle. simpl. split.
  - intros Hwa. run_mon. split_tests; try reflexivity; exfalso; lia.
  - intros -> Har Hrange.
    assert (wrap_int (ar - 1) = ar - 1) as Hdec
      by (apply wrap_int_id; unfold int_range, INT_MIN, INT_MAX in *; lia).
    run_mon.
    repeat (rewrite ?Hdec;
            match goal with
            | |- context [ if ?b then _ else _ ] =>
                destruct b eqn:?; cbn -[wrap_int Z.eqb Z.ltb]
            end);
      rewrite ?Hdec; try reflexivity; exfalso; lia.
Qed.

Lemma release_wake_policy_witness :
  my_rwlock_unlock (Some writer_holds)
  = (Returned 0, Some (set_writer_active 0 writer_holds), [cond_signal write_cond])
  ∧ my_rwlock_unlock (Some (lock reader_then_writer))
    = (Returned 0, Some (set_active_readers 0 (lock reader_then_writer)),
       [cond_signal write_cond]).
Proof.
  split.
  - apply (proj1 (release_wake_policy writer_holds)). simpl. lia.
  - apply (proj2 (release_wake_policy (lock reader_then_writer))).
    + reflexivity.
    + simpl. lia.
    + unfold int_range, INT_MIN, INT_MAX. simpl. lia.
Defined.

(** C8. Release without hold is inert.  On a valid lock with [writer_active]
    clear and [active_readers == 0], [my_rwlock_unlock] changes none of the
    four fields, makes no wake-up call, and returns [0]. *)
Theorem unlock_without_hold_inert l :
  writer_active l = 0 -> active_readers l = 0 ->
  my_rwlock_unlock (Some l) = (Returned 0, Some l, []).
Proof.
  destruct l as [ar wr ww wa]. simpl. intros -> ->. reflexivity.
Qed.

Lemma unlock_without_hold_inert_witness :
  my_rwlock_unlock (Some waiters_only) = (Returned 0, Some waiters_only, []).
Proof. apply (unlock_without_hold_inert waiters_only); reflexivity. Defined.

End RWLockFacts.

(** ** The list *)

Module OrderedListFacts.
Import OrderedList.

(** *** Segments of the heap *)

Lemma lseg_lookup m p q ns a k :
  lseg m p q ns -> (a, k) ∈ ns -> ∃ nx, m !! a = Some {| data := k; next := nx |}.
Proof.
  revert p. induction ns as [|[a' k'] ns IH]; simpl; intros p Hl Hin.
  - by apply elem_of_nil in Hin.
  - destruct Hl as (-> & nx & Ha & Hl).
    apply elem_of_cons in Hin as [[= -> ->]|Hin]; eauto.
Qed.

Lemma lseg_allocated m p q ns a :
  lseg m p q ns -> a ∈ ns.*1 -> is_Some (m !! a).
Proof.
  intros Hl Hin. apply list_elem_of_fmap in Hin as ([a' k] & -> & Hin).
  destruct (lseg_lookup _ _ _ _ _ _ Hl Hin) as [nx Hnx]. simpl. eauto.
Qed.

Lemma lseg_fresh m p q ns t :
  lseg m p q ns -> m !! t = None -> t ∉ ns.*1.
Proof.
  intros Hl Ht Hin. destruct (lseg_allocated _ _ _ _ _ Hl Hin) as [n Hn]. congruence.
Qed.

Lemma lseg_first m p ns : lseg m p None ns -> p = first_addr ns.
Proof. destruct ns as [|[a k] ns]; simpl; [done|]. by intros [-> _]. Qed.

Lemma lseg_app m p q r n1 n2 :
  lseg m p q n1 -> lseg m q r n2 -> lseg m p r (n1 ++ n2).
Proof.
  revert p. induction n1 as [|[a k] n1 IH]; simpl; intros p.
  - by intros ->.
  - intros (-> & nx & Ha & Hl) H2. split; [done|]. exists nx. eauto.
Qed.

Lemma lseg_split m p r n1 n2 :
  lseg m p r (n1 ++ n2) -> ∃ q, lseg m p q n1 ∧ lseg m q r n2.
Proof.
  revert p. induction n1 as [|[a k] n1 IH]; simpl; intros p.
  - intros H. by exists p.
  - intros (-> & nx & Ha & Hl). destruct (IH _ Hl) as (q & H1 & H2).
    exists q. split; [|done]. split; [done|]. eauto.
Qed.

(** Writing to, or freeing, an address off the segment leaves it in place. *)
Lemma lseg_insert m p q ns a n :
  a ∉ ns.*1 -> lseg m p q ns -> lseg (<[a := n]> m) p q ns.
Proof.
  revert p. induction ns as [|[a' k] ns IH]; simpl; intros p Hnot; [done|].
  apply not_elem_of_cons in Hnot as [Hne Hnot].
  intros (-> & nx & Ha & Hl). split; [done|]. exists nx.
  rewrite lookup_insert_ne by done. eauto.
Qed.

Lemma lseg_delete m p q ns a :
  a ∉ ns.*1 -> lseg m p q ns -> lseg (delete a m) p q ns.
Proof.
  revert p. induction ns as [|[a' k] ns IH]; simpl; intros p Hnot; [done|].
  apply not_elem_of_cons in Hnot as [Hne Hnot].
  intros (-> & nx & Ha & Hl). split; [done|]. exists nx.
  rewrite lookup_delete_ne by done. eauto.
Qed.

Lemma lseg_functional m p ns ns' :
  lseg m p None ns -> lseg m p None ns' -> ns = ns'.
Proof.
  revert p ns'. induction ns as [|[a k] ns IH]; intros p [|[a' k'] ns']; simpl.
  - done.
  - intros -> [? _]. done.
  - intros [-> _] ?. done.
  - intros (-> & nx & Ha & Hl) ([= <-] & nx' & Ha' & Hl').
    rewrite Ha in Ha'. injection Ha' as <- <-. f_equal. eauto.
Qed.

(** A chain that ends in [NULL] meets no address twice. *)
Lemma lseg_NoDup m p ns : lseg m p None ns -> NoDup ns.*1.
Proof.
  revert p. induction ns as [|[a k] ns IH]; simpl; intros p.
  - constructor.
  - intros (-> & nx & Ha & Hl). constructor; [|by eapply IH].
    intros Hin. apply list_elem_of_fmap in Hin as ([a' k'] & Heq & Hin).
    simpl in Heq. subst a'.
    apply list_elem_of_split in Hin as (l1 & l2 & ->).
    apply lseg_split in Hl as (q & H1 & H2).
    assert (lseg m (Some a) None ((a, k) :: l1 ++ (a, k') :: l2)) as Hfull.
    { simpl. split; [done|]. exists nx. split; [done|]. eapply lseg_app; eauto. }
    assert (q = Some a) as -> by (simpl in H2; tauto).
    pose proof (lseg_functional _ _ _ _ H2 Hfull) as Heq.
    apply (f_equal length) in Heq. simpl in Heq. rewrite length_app in Heq.
    simpl in Heq. lia.
Qed.

Lemma lseg_length m p ns : lseg m p None ns -> (length ns <= size m)%nat.
Proof.
  intros Hl.
  assert (list_to_set (C := gset positive) ns.*1 ⊆ dom m) as Hsub.
  { intros a Ha. apply elem_of_list_to_set in Ha. apply elem_of_dom.
    eapply lseg_allocated; eauto. }
  apply subseteq_size in Hsub.
  rewrite size_list_to_set in Hsub by (by eapply lseg_NoDup).
  rewrite length_fmap, size_dom in Hsub. done.
Qed.

(** *** The walk *)

Lemma below_rest value ns : below value ns ++ rest value ns = ns.
Proof.
  induction ns as [|[a k] ns IH]; simpl; [done|].
  destruct (k <? value); simpl; [by rewrite IH | done].
Qed.

Lemma below_lt value ns : Forall (λ k, k < value) (keys (below value ns)).
Proof.
  induction ns as [|[a k] ns IH]; simpl; [constructor|].
  destruct (Z.ltb_spec k value); simpl; constructor; auto.
Qed.

Lemma rest_ge value ns c k r : rest value ns = (c, k) :: r -> value <= k.
Proof.
  induction ns as [|[a k'] ns IH]; simpl; [done|].
  destruct (Z.ltb_spec k' value); [done|]. intros [= -> -> ->]. done.
Qed.

Lemma last_addr_snoc pred ns p k : last_addr pred (ns ++ [(p, k)]) = Some p.
Proof. revert pred. induction ns as [|[a k'] ns IH]; simpl; auto. Qed.

Lemma last_addr_inv pred ns :
  (ns = [] ∧ last_addr pred ns = pred)
  ∨ (∃ b p k, ns = b ++ [(p, k)] ∧ last_addr pred ns = Some p).
Proof.
  destruct (decide (ns = [])) as [->|Hne]; [by left|right].
  destruct (exists_last Hne) as (b & [p k] & ->).
  exists b, p, k. split; [done|]. apply last_addr_snoc.
Qed.

Lemma scan_walk fuel m value pred curr ns :
  lseg m curr None ns -> (length ns <= fuel)%nat ->
  scan fuel m value pred curr
  = Done (last_addr pred (below value ns), first_addr (rest value ns)).
Proof.
  revert fuel pred curr. induction ns as [|[a k] ns IH]; simpl; intros fuel pred curr.
  - intros -> _. by destruct fuel.
  - intros (-> & nx & Ha & Hl) Hlen.
    destruct fuel as [|fuel]; [lia|]. simpl. rewrite Ha. simpl.
    destruct (k <? value); simpl; [|done].
    apply IH; [done|lia].
Qed.

Lemma locate value st ns :
  is_list st ns ->
  scan (size (nodes st)) (nodes st) value None (head st)
  = Done (last_addr None (below value ns), first_addr (rest value ns)).
Proof. intros Hl. apply scan_walk; [done|]. by eapply lseg_length. Qed.

(** *** Ascending keys *)

Lemma ascending_cons k ks :
  ascending (k :: ks) ↔ ascending ks ∧ Forall (λ k', k < k') ks.
Proof.
  unfold ascending. split.
  - intros H. inversion H; subst. done.
  - intros [? ?]. by constructor.
Qed.

Lemma ascending_NoDup ks : ascending ks -> NoDup ks.
Proof.
  induction ks as [|k ks IH]; [constructor|].
  intros [Hs Hall]%ascending_cons. constructor; [|auto].
  intros Hin. rewrite Forall_forall in Hall. specialize (Hall _ Hin). lia.
Qed.

(** In an ascending list the walk stops on [value] exactly when [value] is a
    key. *)
Lemma member_rest value ns :
  ascending (keys ns) ->
  value ∈ keys ns ↔ ∃ c r, rest value ns = (c, value) :: r.
Proof.
  induction ns as [|[a k] ns IH]; simpl.
  - intros _. split; [by intros ?%elem_of_nil | by intros (? & ? & ?)].
  - intros [Hs Hall]%ascending_cons. specialize (IH Hs).
    destruct (Z.ltb_spec k value) as [Hlt|Hge].
    + rewrite <- IH. split; [|by right].
      intros [->|?]%elem_of_cons; [lia|done].
    + split.
      * intros [->|Hin]%elem_of_cons; [by eauto|].
        rewrite Forall_forall in Hall. specialize (Hall _ Hin). lia.
      * intros (c & r & [= -> -> ->]). by left.
Qed.

Lemma ascending_spliced value t ns :
  ascending (keys ns) -> value ∉ keys ns -> ascending (keys (spliced value t ns)).
Proof.
  unfold spliced. induction ns as [|[a k] ns IH]; simpl.
  - intros _ _. apply ascending_cons. split; constructor.
  - intros [Hs Hall]%ascending_cons Hnot.
    apply not_elem_of_cons in Hnot as [Hne Hnot].
    destruct (Z.ltb_spec k value) as [Hlt|Hge]; simpl.
    + apply ascending_cons. split; [by apply IH|].
      unfold keys. rewrite fmap_app, Forall_app. simpl. rewrite Forall_cons.
      rewrite <- (below_rest value ns) in Hall.
      unfold keys in Hall. rewrite fmap_app, Forall_app in Hall. tauto.
    + apply ascending_cons. split; [by apply ascending_cons|].
      constructor; [lia|]. eapply Forall_impl; [exact Hall|]. simpl. lia.
Qed.

Lemma ascending_unlinked value ns :
  ascending (keys ns) -> ascending (keys (unlinked value ns)).
Proof.
  unfold unlinked. induction ns as [|[a k] ns IH]; simpl.
  - intros _. constructor.
  - intros [Hs Hall]%ascending_cons.
    destruct (Z.ltb_spec k value) as [Hlt|Hge]; simpl; [|done].
    apply ascending_cons. split; [by apply IH|].
    rewrite <- (below_rest value ns) in Hall.
    unfold keys in *. rewrite fmap_app, Forall_app in *.
    split; [tauto|]. destruct Hall as [_ Hall].
    destruct (rest value ns) as [|n r]; simpl in *; [done|].
    by apply Forall_cons in Hall as [_ ?].
Qed.

(** *** The list around the place where the walk stops *)

Lemma walk_parts value st ns :
  is_list st ns ->
  lseg (nodes st) (head st) (first_addr (rest value ns)) (below value ns)
  ∧ lseg (nodes st) (first_addr (rest value ns)) None (rest value ns)
  ∧ NoDup ((below value ns).*1 ++ (rest value ns).*1).
Proof.
  unfold is_list. intros Hl.
  pose proof (lseg_NoDup _ _ _ Hl) as Hnd.
  rewrite <- (below_rest value ns) in Hl, Hnd.
  rewrite fmap_app in Hnd.
  apply lseg_split in Hl as (q & H1 & H2).
  rewrite <- (lseg_first _ _ _ H2). done.
Qed.

Lemma lseg_snoc_inv m p q b a k :
  lseg m p q (b ++ [(a, k)]) ->
  lseg m p (Some a) b ∧ m !! a = Some {| data := k; next := q |}.
Proof.
  intros (q' & H1 & H2)%lseg_split. simpl in H2.
  destruct H2 as (-> & nx & Ha & ->). done.
Qed.

Lemma greater_when_absent value st ns :
  is_list st ns -> value ∉ keys ns ->
  null_or_greater (nodes st) (first_addr (rest value ns)) value = Done true.
Proof.
  intros Hl Hnot.
  destruct (walk_parts value st ns Hl) as (_ & H2 & _).
  destruct (rest value ns) as [|[c k] r] eqn:Hrest; [done|].
  simpl in *. destruct H2 as (_ & nx & -> & _). simpl.
  pose proof (rest_ge _ _ _ _ _ Hrest) as Hge.
  assert (k ≠ value) as Hne.
  { intros ->. apply Hnot. rewrite <- (below_rest value ns), Hrest.
    unfold keys. rewrite fmap_app. apply elem_of_app. right. simpl. by left. }
  unfold mret, res_ret. f_equal. apply Z.ltb_lt. lia.
Qed.

Lemma equal_when_present value st ns :
  is_list st ns -> ascending (keys ns) -> value ∈ keys ns ->
  ∃ c r nx, rest value ns = (c, value) :: r
            ∧ nodes st !! c = Some {| data := value; next := nx |}
            ∧ lseg (nodes st) nx None r
            ∧ null_or_greater (nodes st) (first_addr (rest value ns)) value = Done false.
Proof.
  intros Hl Hs Hin.
  destruct (walk_parts value st ns Hl) as (_ & H2 & _).
  apply member_rest in Hin as (c & r & Hrest); [|done].
  rewrite Hrest in *. simpl in H2. destruct H2 as (_ & nx & Hc & Hr).
  exists c, r, nx. repeat split; try done.
  simpl. rewrite Hc. simpl. unfold mret, res_ret. f_equal. apply Z.ltb_irrefl.
Qed.

(** *** [Insert] *)

Lemma Insert_present value temp st ns :
  is_list st ns -> ascending (keys ns) -> value ∈ keys ns ->
  Insert value temp st = Done (0, st).
Proof.
  intros Hl Hs Hin. unfold Insert. rewrite (locate value st ns Hl). simpl.
  destruct (equal_when_present value st ns Hl Hs Hin) as (c & r & nx & _ & _ & _ & ->).
  reflexivity.
Qed.

Lemma Insert_alloc_fails value st ns :
  is_list st ns -> value ∉ keys ns -> Insert value None st = Fault.
Proof.
  intros Hl Hnot. unfold Insert. rewrite (locate value st ns Hl). simpl.
  rewrite (greater_when_absent value st ns Hl Hnot). reflexivity.
Qed.

Lemma Insert_absent value t st ns :
  is_list st ns -> value ∉ keys ns -> nodes st !! t = None ->
  ∃ st', Insert value (Some t) st = Done (1, st') ∧ is_list st' (spliced value t ns).
Proof.
  intros Hl Hnot Ht. unfold Insert, spliced. rewrite (locate value st ns Hl). simpl.
  rewrite (greater_when_absent value st ns Hl Hnot). simpl.
  destruct (walk_parts value st ns Hl) as (H1 & H2 & Hnd).
  pose proof (lseg_fresh _ _ _ _ _ H1 Ht) as Ht1.
  pose proof (lseg_fresh _ _ _ _ _ H2 Ht) as Ht2.
  set (curr := first_addr (rest value ns)) in *.
  destruct (last_addr_inv None (below value ns)) as [[Hb ->]|(b & p & kp & Hb & ->)].
  - eexists. split; [reflexivity|]. rewrite Hb in *. simpl in H1.
    unfold is_list. simpl. split; [done|]. exists curr.
    rewrite lookup_insert_eq. split; [done|]. by apply lseg_insert.
  - rewrite Hb in *. apply lseg_snoc_inv in H1 as [H1 Hp].
    rewrite fmap_app in Hnd, Ht1. simpl in Hnd, Ht1.
    apply NoDup_app in Hnd as (Hnd1 & Hnd2 & _).
    apply NoDup_app in Hnd1 as (_ & Hnd1 & _).
    assert (p ≠ t) as Hpt by (intros ->; congruence).
    assert (p ∉ b.*1) as Hpb by (intros ?; eapply Hnd1; [done|by left]).
    assert (p ∉ (rest value ns).*1) as Hpr
      by (apply Hnd2, elem_of_app; right; by left).
    assert (t ∉ b.*1) as Htb by (intros ?; apply Ht1, elem_of_app; by left).
    unfold deref. rewrite lookup_insert_ne by done. rewrite Hp. simpl.
    eexists. split; [reflexivity|]. unfold is_list. simpl.
    rewrite <- app_assoc. eapply lseg_app.
    + apply lseg_insert; [done|]. apply lseg_insert; [done|]. exact H1.
    + simpl. split; [done|]. exists (Some t). rewrite lookup_insert_eq. split; [done|].
      split; [done|]. exists curr.
      rewrite lookup_insert_ne, lookup_insert_eq by done. split; [done|].
      apply lseg_insert; [done|]. by apply lseg_insert.
Qed.

(** *** [Delete] *)

Lemma Delete_absent value st ns :
  is_list st ns -> value ∉ keys ns -> Delete value st = Done (0, st).
Proof.
  intros Hl Hnot. unfold Delete. rewrite (locate value st ns Hl). simpl.
  destruct (walk_parts value st ns Hl) as (_ & H2 & _).
  destruct (rest value ns) as [|[c k] r] eqn:Hrest; [done|].
  simpl in *. destruct H2 as (_ & nx & -> & _). simpl.
  destruct (Z.eqb_spec k value) as [->|_]; [|done].
  exfalso. apply Hnot. rewrite <- (below_rest value ns), Hrest.
  unfold keys. rewrite fmap_app. apply elem_of_app. right. simpl. by left.
Qed.

Lemma Delete_present value st ns :
  is_list st ns -> ascending (keys ns) -> value ∈ keys ns ->
  ∃ st', Delete value st = Done (1, st') ∧ is_list st' (unlinked value ns).
Proof.
  intros Hl Hs Hin. unfold Delete, unlinked. rewrite (locate value st ns Hl). simpl.
  destruct (walk_parts value st ns Hl) as (H1 & H2 & Hnd).
  destruct (equal_when_present value st ns Hl Hs Hin) as (c & r & nx & Hrest & Hc & Hr & _).
  pose proof (lseg_NoDup _ _ _ H2) as Hndr.
  rewrite Hrest in *. simpl in *. rewrite Hc. simpl. rewrite Z.eqb_refl.
  apply NoDup_cons in Hndr as [Hcr _].
  destruct (last_addr_inv None (below value ns)) as [[Hb ->]|(b & p & kp & Hb & ->)].
  - eexists. split; [reflexivity|]. rewrite Hb. unfold is_list. simpl.
    by apply lseg_delete.
  - rewrite Hb in *. apply lseg_snoc_inv in H1 as [H1 Hp].
    rewrite fmap_app in Hnd. simpl in Hnd.
    apply NoDup_app in Hnd as (Hnd1 & Hnd2 & _).
    apply NoDup_app in Hnd1 as (_ & Hnd1 & _).
    assert (p ∉ b.*1) as Hpb by (intros ?; eapply Hnd1; [done|by left]).
    assert (p ≠ c ∧ p ∉ r.*1) as [Hpc Hpr].
    { apply not_elem_of_cons, Hnd2, elem_of_app. right. by left. }
    assert (c ∉ b.*1) as Hcb.
    { intros ?. eapply Hnd2; [apply elem_of_app; by left|by left]. }
    unfold deref. rewrite Hp. simpl.
    eexists. split; [reflexivity|]. unfold is_list. simpl.
    rewrite <- app_assoc. eapply lseg_app.
    + apply lseg_delete; [done|]. apply lseg_insert; [done|]. exact H1.
    + simpl. split; [done|]. exists nx.
      rewrite lookup_delete_ne, lookup_insert_eq by done. split; [done|].
      apply lseg_delete; [done|]. by apply lseg_insert.
Qed.

(** *** Reading the keys off the heap *)

Lemma chain_keys_lseg fuel m p ns :
  lseg m p None ns -> (length ns <= fuel)%nat -> chain_keys fuel m p = Some (keys ns).
Proof.
  revert fuel p. induction ns as [|[a k] ns IH]; simpl; intros fuel p.
  - intros -> _. by destruct fuel.
  - intros (-> & nx & Ha & Hl) Hlen. destruct fuel as [|fuel]; [lia|].
    simpl. rewrite Ha. simpl. rewrite (IH fuel nx) by (done || lia). done.
Qed.

Lemma is_list_key_sequence st ns : is_list st ns -> key_sequence st = Some (keys ns).
Proof. intros Hl. apply chain_keys_lseg; [done|]. by eapply lseg_length. Qed.

(** *** Splicing and unlinking the same key *)

Lemma below_spliced value t ns : below value (spliced value t ns) = below value ns.
Proof.
  unfold spliced. induction ns as [|[a k] ns IH]; simpl.
  - by rewrite Z.ltb_irrefl.
  - destruct (k <? value) eqn:Hk; simpl.
    + by rewrite Hk, IH.
    + by rewrite Z.ltb_irrefl.
Qed.

Lemma rest_spliced value t ns :
  rest value (spliced value t ns) = (t, value) :: rest value ns.
Proof.
  unfold spliced. induction ns as [|[a k] ns IH]; simpl.
  - by rewrite Z.ltb_irrefl.
  - destruct (k <? value) eqn:Hk; simpl.
    + by rewrite Hk, IH.
    + by rewrite Z.ltb_irrefl.
Qed.

Lemma unlinked_spliced value t ns : unlinked value (spliced value t ns) = ns.
Proof.
  unfold unlinked. rewrite below_spliced, rest_spliced. simpl. apply below_rest.
Qed.

Lemma is_list_three_keys : is_list three_keys three_nodes.
Proof.
  unfold is_list, three_keys, three_nodes. simpl.
  repeat (split; [reflexivity|]; eexists; split; [reflexivity|]). reflexivity.
Qed.

Lemma ascending_three_nodes : ascending (keys three_nodes).
Proof. unfold ascending. simpl. repeat constructor. Qed.

Lemma rest_gt value ns :
  ascending (keys ns) -> value ∉ keys ns ->
  Forall (λ k, value < k) (keys (rest value ns)).
Proof.
  intros Hs Hnot.
  pose proof (ascending_spliced value 1%positive ns Hs Hnot) as H.
  unfold spliced, keys, ascending in H. rewrite fmap_app in H.
  apply StronglySorted_app_1_r in H. simpl in H.
  by apply StronglySorted_cons in H as [? _].
Qed.

(** *** The claims on the list *)

(** C4. [Insert] on a sorted duplicate-free list.  The walk stops at the
    first key [>= value].  If [value] is a key, that is where it stops, and
    [Insert] returns [0] with the memory unchanged, whatever [malloc] would
    have answered.  Otherwise, with [malloc] returning the fresh address [t],
    [Insert] returns [1] and the list is the old one with the node [t]
    spliced in between the keys below [value] and the keys above it, still
    ascending; a second [Insert] of [value] then returns [0] and changes
    nothing. *)
Theorem Insert_semantics value t temp st ns :
  is_list st ns -> ascending (keys ns) -> nodes st !! t = None ->
  (value ∈ keys ns ->
   (∃ c r, rest value ns = (c, value) :: r)
   ∧ Insert value temp st = Done (0, st))
  ∧ (value ∉ keys ns ->
     ∃ st', Insert value (Some t) st = Done (1, st')
            ∧ is_list st' (below value ns ++ (t, value) :: rest value ns)
            ∧ ns = below value ns ++ rest value ns
            ∧ Forall (λ k, k < value) (keys (below value ns))
            ∧ Forall (λ k, value < k) (keys (rest value ns))
            ∧ ascending (keys (below value ns ++ (t, value) :: rest value ns))
            ∧ Insert value temp st' = Done (0, st')).
Proof.
  intros Hl Hs Ht. split.
  - intros Hin. split; [by apply member_rest|by eapply Insert_present].
  - intros Hnot.
    destruct (Insert_absent value t st ns Hl Hnot Ht) as (st' & Hins & Hl').
    pose proof (ascending_spliced value t ns Hs Hnot) as Hs'.
    exists st'. repeat split; try done.
    + symmetry. apply below_rest.
    + apply below_lt.
    + by apply rest_gt.
    + eapply Insert_present; [exact Hl'|exact Hs'|].
      unfold spliced, keys. rewrite fmap_app. apply elem_of_app. right. by left.
Qed.

Lemma Insert_semantics_witness :
  ((∃ c r, rest 4 three_nodes = (c, 4) :: r)
   ∧ Insert 4 None three_keys = Done (0, three_keys))
  ∧ (∃ st', Insert 6 (Some 4%positive) three_keys = Done (1, st')
            ∧ is_list st' (below 6 three_nodes ++ (4%positive, 6) :: rest 6 three_nodes)
            ∧ three_nodes = below 6 three_nodes ++ rest 6 three_nodes
            ∧ Forall (λ k, k < 6) (keys (below 6 three_nodes))
            ∧ Forall (λ k, 6 < k) (keys (rest 6 three_nodes))
            ∧ ascending (keys (below 6 three_nodes ++ (4%positive, 6) :: rest 6 three_nodes))
            ∧ Insert 6 None st' = Done (0, st')).
Proof.
  split.
  - apply (proj1 (Insert_semantics 4 4%positive None three_keys three_nodes
                    is_list_three_keys ascending_three_nodes eq_refl)).
    rewrite list_elem_of_In. simpl. lia.
  - apply (proj2 (Insert_semantics 6 4%positive None three_keys three_nodes
                    is_list_three_keys ascending_three_nodes eq_refl)).
    rewrite list_elem_of_In. simpl. lia.
Defined.

(** C7. Round trip.  For a key that the list does not hold, [Insert] (with
    [malloc] returning a fresh address) followed by [Delete] of the same key
    both return [1] and leave the memory as it was before the [Insert]: the
    same key sequence, in the same nodes.  This holds for every list that
    ends in [NULL], the sorted duplicate-free ones among them. *)
Theorem Insert_Delete_round_trip value t st ns :
  is_list st ns -> value ∉ keys ns -> nodes st !! t = None ->
  ∃ st1, Insert value (Some t) st = Done (1, st1)
         ∧ key_sequence st1 = Some (keys (spliced value t ns))
         ∧ ∃ st2, Delete value st1 = Done (1, st2)
                  ∧ is_list st2 ns
                  ∧ key_sequence st2 = key_sequence st
                  ∧ st2 = st.
Proof.
  intros Hl Hnot Ht.
  destruct (Insert_absent value t st ns Hl Hnot Ht) as (st1 & Hins & Hl1).
  exists st1. split; [done|]. split; [by apply is_list_key_sequence|].
  exists st. repeat split; try done.
  pose proof Hins as Hst1. unfold Insert in Hst1.
  rewrite (locate value st ns Hl) in Hst1. simpl in Hst1.
  rewrite (greater_when_absent value st ns Hl Hnot) in Hst1. simpl in Hst1.
  unfold Delete. rewrite (locate value st1 _ Hl1), below_spliced, rest_spliced.
  destruct (walk_parts value st ns Hl) as (H1 & H2 & _).
  set (curr := first_addr (rest value ns)) in *.
  destruct (last_addr_inv None (below value ns)) as [[Hb Hlast]|(b & p & kp & Hb & Hlast)];
    rewrite Hlast in *; rewrite Hb in H1.
  - injection Hst1 as <-. simpl in *. rewrite lookup_insert_eq. simpl.
    rewrite Z.eqb_refl. unfold mret, res_ret. do 2 f_equal.
    destruct st as [h m]. simpl in *. subst h. f_equal. by apply delete_insert_id.
  - apply lseg_snoc_inv in H1 as [H1 Hp].
    assert (t ≠ p) as Htp by (intros ->; congruence).
    assert (p ≠ t) as Hpt by congruence.
    unfold deref in Hst1. rewrite lookup_insert_ne, Hp in Hst1 by done.
    simpl in Hst1. injection Hst1 as <-. simpl.
    rewrite (lookup_insert_ne _ p t) by done. rewrite !lookup_insert_eq. simpl.
    rewrite Z.eqb_refl. simpl.
    unfold mret, res_ret. do 2 f_equal.
    destruct st as [h m]. simpl in *. f_equal.
    rewrite insert_insert_eq, delete_insert_ne, delete_insert_id by done.
    by apply insert_id.
Qed.

Lemma Insert_Delete_round_trip_witness :
  ∃ st1, Insert 6 (Some 4%positive) three_keys = Done (1, st1)
         ∧ key_sequence st1 = Some (keys (spliced 6 4%positive three_nodes))
         ∧ ∃ st2, Delete 6 st1 = Done (1, st2)
                  ∧ is_list st2 three_nodes
                  ∧ key_sequence st2 = key_sequence three_keys
                  ∧ st2 = three_keys.
Proof.
  apply (Insert_Delete_round_trip 6 4%positive three_keys three_nodes
           is_list_three_keys).
  - rewrite list_elem_of_In. simpl. lia.
  - reflexivity.
Defined.

Lemma op_step_invariant st st' ns :
  op_step st st' -> is_list st ns -> ascending (keys ns) ->
  ∃ ns', is_list st' ns' ∧ ascending (keys ns').
Proof.
  intros [o rv Hmalloc Hrun] Hl Hs. destruct o as [value temp|value]; simpl in Hrun.
  - destruct (decide (value ∈ keys ns)) as [Hin|Hnot].
    + rewrite (Insert_present value temp st ns Hl Hs Hin) in Hrun.
      injection Hrun as _ <-. eauto.
    + destruct temp as [t|].
      * specialize (Hmalloc value (Some t) eq_refl). simpl in Hmalloc.
        destruct (Insert_absent value t st ns Hl Hnot Hmalloc) as (st1 & Hins & Hl1).
        rewrite Hins in Hrun. injection Hrun as _ <-.
        eauto using ascending_spliced.
      * by rewrite (Insert_alloc_fails value st ns Hl Hnot) in Hrun.
  - destruct (decide (value ∈ keys ns)) as [Hin|Hnot].
    + destruct (Delete_present value st ns Hl Hs Hin) as (st1 & Hdel & Hl1).
      rewrite Hdel in Hrun. injection Hrun as _ <-.
      eauto using ascending_unlinked.
    + rewrite (Delete_absent value st ns Hl Hnot) in Hrun.
      injection Hrun as _ <-. eauto.
Qed.

Lemma after_ops_invariant st :
  after_ops st -> ∃ ns, is_list st ns ∧ ascending (keys ns).
Proof.
  induction 1 as [|st st' _ (ns & Hl & Hs) Hstep].
  - exists []. split; [done|constructor].
  - eapply op_step_invariant; eauto.
Qed.

(** C3. Sortedness and uniqueness.  Start from the empty list and run any
    sequence of [Insert] and [Delete] calls, each to completion, [malloc]
    returning [NULL] or an unused address each time.  After each call the
    chain from [head] ends in [NULL] and its keys are strictly ascending, so
    no key occurs twice.  From such a memory every [Delete], and every
    [Insert] for which [malloc] succeeds, runs to completion in turn. *)
Theorem sorted_unique_after_ops st :
  after_ops st ->
  (∃ ks, key_sequence st = Some ks ∧ ascending ks ∧ NoDup ks)
  ∧ (∀ value, ∃ rv st', Delete value st = Done (rv, st') ∧ op_step st st')
  ∧ (∀ value t, nodes st !! t = None ->
                ∃ rv st', Insert value (Some t) st = Done (rv, st') ∧ op_step st st').
Proof.
  intros (ns & Hl & Hs)%after_ops_invariant. split; [|split].
  - exists (keys ns). eauto using is_list_key_sequence, ascending_NoDup.
  - intros value.
    assert (∃ rv st', Delete value st = Done (rv, st')) as (rv & st' & Hdel).
    { destruct (decide (value ∈ keys ns)) as [Hin|Hnot].
      - destruct (Delete_present value st ns Hl Hs Hin) as (st' & ? & _). eauto.
      - rewrite (Delete_absent value st ns Hl Hnot). eauto. }
    exists rv, st'. split; [done|].
    by apply (op_step_intro st st' (do_Delete value) rv).
  - intros value t Ht.
    assert (∃ rv st', Insert value (Some t) st = Done (rv, st')) as (rv & st' & Hins).
    { destruct (decide (value ∈ keys ns)) as [Hin|Hnot].
      - rewrite (Insert_present value (Some t) st ns Hl Hs Hin). eauto.
      - destruct (Insert_absent value t st ns Hl Hnot Ht) as (st' & ? & _). eauto. }
    exists rv, st'. split; [done|].
    apply (op_step_intro st st' (do_Insert value (Some t)) rv); [|done].
    by intros ? ? [= <- <-].
Qed.

Lemma after_ops_three_keys : after_ops three_keys.
Proof.
  apply (after_more two_keys).
  - apply (after_more one_key).
    + apply (after_more empty_memory); [apply after_none|].
      apply (op_step_intro _ _ (do_Insert 5 (Some 1%positive)) 1); [|reflexivity].
      by intros ? ? [= <- <-].
    + apply (op_step_intro _ _ (do_Insert 3 (Some 2%positive)) 1); [|reflexivity].
      by intros ? ? [= <- <-].
  - apply (op_step_intro _ _ (do_Insert 4 (Some 3%positive)) 1); [|reflexivity].
    by intros ? ? [= <- <-].
Qed.

Lemma sorted_unique_after_ops_witness :
  (∃ ks, key_sequence three_keys = Some ks ∧ ascending ks ∧ NoDup ks)
  ∧ (∀ value, ∃ rv st', Delete value three_keys = Done (rv, st') ∧ op_step three_keys st')
  ∧ (∀ value t, nodes three_keys !! t = None ->
                ∃ rv st', Insert value (Some t) three_keys = Done (rv, st')
                          ∧ op_step three_keys st').
Proof. exact (sorted_unique_after_ops three_keys after_ops_three_keys). Defined.

(** C9, as the code has it.  When [malloc] returns [NULL] for a key the list
    does not hold, [Insert] stores through the null pointer
    ([temp->data = value]) without a test: the call has no result, neither
    [0] nor [1] nor an error, to hand to its caller.  [Insert] returns
    without a new node only for a key that is already there, and it does
    not call [malloc] then. *)
Theorem Insert_alloc_failure value st ns :
  is_list st ns -> ascending (keys ns) ->
  (value ∉ keys ns -> Insert value None st = Fault)
  ∧ (value ∈ keys ns -> Insert value None st = Done (0, st)).
Proof.
  intros Hl Hs. split.
  - by apply Insert_alloc_fails.
  - by apply Insert_present.
Qed.

Lemma Insert_alloc_failure_witness :
  Insert 6 None three_keys = Fault ∧ Insert 4 None three_keys = Done (0, three_keys).
Proof.
  split.
  - apply (proj1 (Insert_alloc_failure 6 three_keys three_nodes
                    is_list_three_keys ascending_three_nodes)).
    rewrite list_elem_of_In. simpl. lia.
  - apply (proj2 (Insert_alloc_failure 4 three_keys three_nodes
                    is_list_three_keys ascending_three_nodes)).
    rewrite list_elem_of_In. simpl. lia.
Defined.

(** C9, as the claim states it, fails: on the empty list, an [Insert] whose
    [malloc] returns [NULL] reports nothing to its caller. *)
Lemma Insert_alloc_failure_unreported :
  Insert 7 None empty_memory = Fault
  ∧ ¬ (∃ rv st', Insert 7 None empty_memory = Done (rv, st')).
Proof.
  split; [reflexivity|]. intros (rv & st' & H). discriminate H.
Qed.

End OrderedListFacts.

(** ** The driver *)

Module DriverFacts.
Import Driver.

(** C10. The key space.  For every seed, [my_rand] leaves in [*seed] the
    value [seed * 1103515245 + 12345] reduced modulo [2^32] and returns a
    value in [[0, 32768)]; the key [my_rand(&seed) % MAX_KEY] a worker draws is
    that value itself, so it is below [32768] although [MAX_KEY] is
    [100000000]. *)
Theorem key_space_bound seed :
  fst (my_rand seed) = (seed * 1103515245 + 12345) mod 2 ^ 32
  ∧ 0 <= snd (my_rand seed) < 32768
  ∧ snd (draw_key seed) = snd (my_rand seed)
  ∧ 0 <= snd (draw_key seed) < 32768
  ∧ MAX_KEY = 100000000.
Proof.
  unfold draw_key, my_rand, wrap_unsigned, UINT_MODULUS, MAX_KEY. simpl fst. simpl snd.
  set (s := (seed * 1103515245 + 12345) mod 4294967296).
  assert (0 <= s / 65536 mod 32768 < 32768) as Hr by (apply Z.mod_pos_bound; lia).
  assert (wrap_int ((s / 65536 mod 32768) mod (100000000 mod 4294967296))
          = s / 65536 mod 32768) as Hkey.
  { change (100000000 mod 4294967296) with 100000000.
    rewrite (Z.mod_small (s / 65536 mod 32768)) by lia.
    apply wrap_int_id. unfold int_range, INT_MIN, INT_MAX. lia. }
  rewrite Hkey. repeat split; lia || reflexivity.
Qed.

(** *** Counting *)

Lemma tally_counts c o :
  counted c -> total c < INT_MAX ->
  counted (tally c o)
  ∧ total (tally c o) = total c + 1
  ∧ counter_of o (tally c o) = counter_of o c + 1.
Proof.
  unfold counted, total, INT_MAX. destruct c as [m i d]. simpl. intros (Hm & Hi & Hd) Hlt.
  destruct o; simpl;
    rewrite wrap_int_id by (unfold int_range, INT_MIN, INT_MAX; lia); lia.
Qed.

Lemma fold_in_counts g c :
  counted g -> counted c -> total g + total c <= INT_MAX ->
  counted (fold_in g c)
  ∧ total (fold_in g c) = total g + total c
  ∧ ∀ o, counter_of o (fold_in g c) = counter_of o g + counter_of o c.
Proof.
  unfold counted, total, INT_MAX. destruct g as [gm gi gd], c as [m i d]. simpl.
  intros (? & ? & ?) (? & ? & ?) Hle.
  rewrite !wrap_int_id by (unfold int_range, INT_MIN, INT_MAX; lia).
  repeat split; try lia.
  intros []; simpl; apply wrap_int_id; unfold int_range, INT_MIN, INT_MAX; lia.
Qed.

End DriverFacts.

(** ** More on the list: [Member], [Delete], [Free_list] *)

Module ListOps.
Import OrderedList OrderedListFacts.

Lemma Member_result value st ns :
  is_list st ns -> ascending (keys ns) ->
  Member value st = Done (if decide (value ∈ keys ns) then 1 else 0).
Proof.
  intros Hl Hs. unfold Member. rewrite (locate value st ns Hl). simpl.
  destruct (decide (value ∈ keys ns)) as [Hin|Hnot].
  - destruct (equal_when_present value st ns Hl Hs Hin) as (c & r & nx & _ & _ & _ & ->).
    reflexivity.
  - rewrite (greater_when_absent value st ns Hl Hnot). reflexivity.
Qed.

(** X1. [Member] on a sorted duplicate-free list returns [1] if [value] is one
    of its keys and [0] if not. *)
Theorem Member_decides value st ns :
  is_list st ns -> ascending (keys ns) ->
  Member value st = Done (if decide (value ∈ keys ns) then 1 else 0).
Proof.
  intros Hl Hs. unfold Member. rewrite (locate value st ns Hl). simpl.
  destruct (decide (value ∈ keys ns)) as [Hin|Hnot].
  - destruct (equal_when_present value st ns Hl Hs Hin) as (c & r & nx & _ & _ & _ & ->).
    reflexivity.
  - rewrite (greater_when_absent value st ns Hl Hnot). reflexivity.
Qed.

Lemma Member_decides_witness :
  Member 4 three_keys = Done (if decide (4 ∈ keys three_nodes) then 1 else 0).
Proof.
  exact (Member_decides 4 three_keys three_nodes is_list_three_keys ascending_three_nodes).
Defined.

(** *** Which nodes are allocated *)

Lemma Insert_absent_dom value t st ns st' :
  is_list st ns -> value ∉ keys ns -> nodes st !! t = None ->
  Insert value (Some t) st = Done (1, st') ->
  dom (nodes st') = {[t]} ∪ dom (nodes st).
Proof.
  intros Hl Hnot Ht Hins. unfold Insert in Hins.
  rewrite (locate value st ns Hl) in Hins. simpl in Hins.
  rewrite (greater_when_absent value st ns Hl Hnot) in Hins. simpl in Hins.
  destruct (walk_parts value st ns Hl) as (H1 & _ & _).
  destruct (last_addr_inv None (below value ns)) as [[Hb Hlast]|(b & p & kp & Hb & Hlast)];
    rewrite Hlast in Hins; rewrite Hb in H1.
  - injection Hins as <-. simpl. apply dom_insert_L.
  - apply lseg_snoc_inv in H1 as [_ Hp].
    assert (t ≠ p) as Htp by (intros ->; congruence).
    unfold deref in Hins. rewrite lookup_insert_ne, Hp in Hins by done.
    simpl in Hins. injection Hins as <-. simpl.
    rewrite dom_insert_lookup_L, dom_insert_L; [done|].
    rewrite lookup_insert_ne by done. eauto.
Qed.

Lemma Delete_present_dom value st ns st' :
  is_list st ns -> ascending (keys ns) -> value ∈ keys ns ->
  Delete value st = Done (1, st') ->
  ∃ c r, rest value ns = (c, value) :: r ∧ dom (nodes st') = dom (nodes st) ∖ {[c]}.
Proof.
  intros Hl Hs Hin Hdel. unfold Delete in Hdel.
  rewrite (locate value st ns Hl) in Hdel. simpl in Hdel.
  destruct (walk_parts value st ns Hl) as (H1 & _ & _).
  destruct (equal_when_present value st ns Hl Hs Hin) as (c & r & nx & Hrest & Hc & _ & _).
  exists c, r. split; [done|].
  rewrite Hrest in Hdel. simpl in Hdel. rewrite Hc in Hdel. simpl in Hdel.
  rewrite Z.eqb_refl in Hdel.
  destruct (last_addr_inv None (below value ns)) as [[Hb Hlast]|(b & p & kp & Hb & Hlast)];
    rewrite Hlast in Hdel; rewrite Hb in H1.
  - injection Hdel as <-. simpl. apply dom_delete_L.
  - apply lseg_snoc_inv in H1 as [_ Hp].
    unfold deref in Hdel. rewrite Hp in Hdel. simpl in Hdel.
    injection Hdel as <-. simpl. rewrite dom_delete_L, dom_insert_lookup_L; eauto.
Qed.

Lemma Delete_present_parts value st ns :
  is_list st ns -> ascending (keys ns) -> value ∈ keys ns ->
  ∃ c l1 l2 st',
    ns = l1 ++ (c, value) :: l2
    ∧ Delete value st = Done (1, st')
    ∧ is_list st' (l1 ++ l2)
    ∧ dom (nodes st') = dom (nodes st) ∖ {[c]}
    ∧ ascending (keys (l1 ++ l2))
    ∧ (value ∉ keys (l1 ++ l2)).
Proof.
  intros Hl Hs Hin.
  destruct (Delete_present value st ns Hl Hs Hin) as (st' & Hdel & Hl').
  destruct (Delete_present_dom value st ns st' Hl Hs Hin Hdel) as (c & r & Hrest & Hdom).
  pose proof (ascending_unlinked value ns Hs) as Hs'.
  unfold unlinked in Hl', Hs'. rewrite Hrest in Hl', Hs'. simpl in Hl', Hs'.
  assert (ns = below value ns ++ (c, value) :: r) as Hns
    by (by rewrite <- Hrest, below_rest).
  assert (value ∉ keys (below value ns ++ r)) as Hgone.
  { apply ascending_NoDup in Hs. rewrite Hns in Hs. unfold keys in *.
    rewrite fmap_app in *. simpl in Hs.
    apply NoDup_app in Hs as (_ & Hd & Hr). apply NoDup_cons in Hr as [Hr _].
    intros [H|H]%elem_of_app; [|done]. apply (Hd _ H). by left. }
  exists c, (below value ns), r, st'. done.
Qed.

(** X2. [Delete] on a sorted duplicate-free list.  For a key the list does not
    hold it returns [0] and changes nothing.  For a key it holds it returns
    [1], unlinks the one node with that key, keeping the others in order, and
    frees it; the key is then gone, and a second [Delete] returns [0]. *)
Theorem Delete_semantics value st ns :
  is_list st ns -> ascending (keys ns) ->
  (value ∉ keys ns -> Delete value st = Done (0, st))
  ∧ (value ∈ keys ns ->
     ∃ c l1 l2 st',
       ns = l1 ++ (c, value) :: l2
       ∧ Delete value st = Done (1, st')
       ∧ is_list st' (l1 ++ l2)
       ∧ nodes st' !! c = None
       ∧ ascending (keys (l1 ++ l2))
       ∧ (value ∉ keys (l1 ++ l2))
       ∧ Delete value st' = Done (0, st')).
Proof.
  intros Hl Hs. split; [by apply Delete_absent|]. intros Hin.
  destruct (Delete_present_parts value st ns Hl Hs Hin)
    as (c & l1 & l2 & st' & Hns & Hdel & Hl' & Hdom & Hs' & Hgone).
  exists c, l1, l2, st'. repeat split; try done.
  - apply not_elem_of_dom. rewrite Hdom.
    apply not_elem_of_difference. right. by apply elem_of_singleton.
  - by eapply Delete_absent.
Qed.

Lemma Delete_semantics_witness :
  Delete 6 three_keys = Done (0, three_keys)
  ∧ ∃ c l1 l2 st',
      three_nodes = l1 ++ (c, 4) :: l2
      ∧ Delete 4 three_keys = Done (1, st')
      ∧ is_list st' (l1 ++ l2)
      ∧ nodes st' !! c = None
      ∧ ascending (keys (l1 ++ l2))
      ∧ (4 ∉ keys (l1 ++ l2))
      ∧ Delete 4 st' = Done (0, st').
Proof.
  split.
  - apply (proj1 (Delete_semantics 6 three_keys three_nodes
                    is_list_three_keys ascending_three_nodes)).
    rewrite list_elem_of_In. simpl. lia.
  - apply (proj2 (Delete_semantics 4 three_keys three_nodes
                    is_list_three_keys ascending_three_nodes)).
    rewrite list_elem_of_In. simpl. lia.
Defined.

(** *** The list as a set of keys *)

Lemma Member_when value st ns (P : Prop) `{!Decision P} :
  is_list st ns -> ascending (keys ns) -> (P ↔ value ∈ keys ns) ->
  Member value st = Done (if decide P then 1 else 0).
Proof.
  intros Hl Hs HP. rewrite (Member_result value st ns Hl Hs).
  repeat case_decide; try done; tauto.
Qed.

Lemma keys_spliced value t ns k :
  k ∈ keys (spliced value t ns) ↔ k = value ∨ k ∈ keys ns.
Proof.
  rewrite <- (below_rest value ns) at 2. unfold spliced, keys.
  rewrite !fmap_app, !elem_of_app. simpl. rewrite elem_of_cons. tauto.
Qed.

(** X3. [Insert], [Delete] and [Member] together behave as a set of keys.  On a
    sorted duplicate-free list, [Insert value] returns [1] exactly when
    [value] was not a key, and afterwards [Member k] returns [1] exactly for
    [value] and the old keys; [Delete value] returns [1] exactly when [value]
    was a key, and afterwards [Member k] returns [1] exactly for the old keys
    other than [value]. *)
Theorem set_of_keys value t st ns :
  is_list st ns -> ascending (keys ns) -> nodes st !! t = None ->
  (∃ st', Insert value (Some t) st
          = Done (if decide (value ∈ keys ns) then 0 else 1, st')
          ∧ ∀ k, Member k st'
                 = Done (if decide (k = value ∨ k ∈ keys ns) then 1 else 0))
  ∧ (∃ st', Delete value st
            = Done (if decide (value ∈ keys ns) then 1 else 0, st')
            ∧ ∀ k, Member k st'
                   = Done (if decide (k ∈ keys ns ∧ k ≠ value) then 1 else 0)).
Proof.
  intros Hl Hs Ht. destruct (decide (value ∈ keys ns)) as [Hin|Hnot]; split.
  - exists st. split; [by eapply Insert_present|].
    intros k. apply (Member_when k st ns); [done..|]. split; [|tauto].
    intros [->|?]; done.
  - destruct (Delete_present_parts value st ns Hl Hs Hin)
      as (c & l1 & l2 & st' & Hns & Hdel & Hl' & _ & Hs' & Hgone).
    exists st'. split; [done|].
    intros k. apply (Member_when k st' (l1 ++ l2)); [done..|].
    rewrite Hns. unfold keys in *. rewrite !fmap_app, !elem_of_app in *. simpl.
    rewrite elem_of_cons. split.
    + intros [[?|[?|?]] Hne]; tauto.
    + intros Hk. split; [tauto|]. intros ->. tauto.
  - destruct (Insert_absent value t st ns Hl Hnot Ht) as (st' & Hins & Hl').
    exists st'. split; [done|].
    intros k. apply (Member_when k st' (spliced value t ns)); [done| |].
    + by apply ascending_spliced.
    + symmetry. apply keys_spliced.
  - exists st. split; [by eapply Delete_absent|].
    intros k. apply (Member_when k st ns); [done..|]. split; [tauto|].
    intros Hk. split; [done|]. by intros ->.
Qed.

Lemma set_of_keys_witness :
  (∃ st', Insert 6 (Some 4%positive) three_keys
          = Done (if decide (6 ∈ keys three_nodes) then 0 else 1, st')
          ∧ ∀ k, Member k st'
                 = Done (if decide (k = 6 ∨ k ∈ keys three_nodes) then 1 else 0))
  ∧ (∃ st', Delete 6 three_keys
            = Done (if decide (6 ∈ keys three_nodes) then 1 else 0, st')
            ∧ ∀ k, Member k st'
                   = Done (if decide (k ∈ keys three_nodes ∧ k ≠ 6) then 1 else 0)).
Proof.
  exact (set_of_keys 6 4%positive three_keys three_nodes
           is_list_three_keys ascending_three_nodes eq_refl).
Defined.

(** *** No node is lost *)

Lemma addresses_spliced value t ns a :
  a ∈ addresses (spliced value t ns) ↔ a = t ∨ a ∈ addresses ns.
Proof.
  rewrite <- (below_rest value ns) at 2. unfold spliced, addresses.
  rewrite !fmap_app, !elem_of_app. simpl. rewrite elem_of_cons. tauto.
Qed.

Lemma op_step_tidy st st' ns :
  op_step st st' -> is_list st ns -> ascending (keys ns) ->
  dom (nodes st) = list_to_set (addresses ns) ->
  ∃ ns', is_list st' ns' ∧ ascending (keys ns')
         ∧ dom (nodes st') = list_to_set (addresses ns').
Proof.
  intros [o rv Hmalloc Hrun] Hl Hs Hdom. destruct o as [value temp|value]; simpl in Hrun.
  - destruct (decide (value ∈ keys ns)) as [Hin|Hnot].
    + rewrite (Insert_present value temp st ns Hl Hs Hin) in Hrun.
      injection Hrun as _ <-. eauto.
    + destruct temp as [t|].
      * specialize (Hmalloc value (Some t) eq_refl). simpl in Hmalloc.
        destruct (Insert_absent value t st ns Hl Hnot Hmalloc) as (st1 & Hins & Hl1).
        pose proof (Insert_absent_dom value t st ns st1 Hl Hnot Hmalloc Hins) as Hdom1.
        rewrite Hins in Hrun. injection Hrun as _ <-.
        exists (spliced value t ns). split; [done|].
        split; [by apply ascending_spliced|].
        rewrite Hdom1, Hdom. apply set_eq. intros a.
        rewrite elem_of_union, elem_of_singleton, !elem_of_list_to_set.
        by rewrite addresses_spliced.
      * by rewrite (Insert_alloc_fails value st ns Hl Hnot) in Hrun.
  - destruct (decide (value ∈ keys ns)) as [Hin|Hnot].
    + destruct (Delete_present_parts value st ns Hl Hs Hin)
        as (c & l1 & l2 & st1 & Hns & Hdel & Hl1 & Hdom1 & Hs1 & _).
      rewrite Hdel in Hrun. injection Hrun as _ <-.
      exists (l1 ++ l2). split; [done|]. split; [done|].
      pose proof (lseg_NoDup _ _ _ Hl) as Hnd.
      rewrite Hdom1, Hdom, Hns. rewrite Hns in Hnd. unfold addresses in *.
      rewrite fmap_app in Hnd. simpl in Hnd.
      apply NoDup_app in Hnd as (_ & Hd & Hr). apply NoDup_cons in Hr as [Hr _].
      apply set_eq. intros a.
      rewrite elem_of_difference, elem_of_singleton, !elem_of_list_to_set.
      rewrite !fmap_app, !elem_of_app. simpl. rewrite elem_of_cons. split.
      * intros [[?|[?|?]] ?]; tauto.
      * intros [H|H]; (split; [tauto|]); intros ->; [|done].
        apply (Hd _ H). by left.
    + rewrite (Delete_absent value st ns Hl Hnot) in Hrun.
      injection Hrun as _ <-. eauto.
Qed.

Lemma after_ops_tidy st :
  after_ops st ->
  ∃ ns, is_list st ns ∧ ascending (keys ns)
        ∧ dom (nodes st) = list_to_set (addresses ns).
Proof.
  induction 1 as [|st st' _ (ns & Hl & Hs & Hdom) Hstep].
  - exists []. split; [done|]. split; [constructor|]. simpl.
    unfold addresses. simpl. apply dom_empty_L.
  - eapply op_step_tidy; eauto.
Qed.

(** X4. No leak.  Start from the empty list and run any sequence of [Insert] and
    [Delete] calls to completion: the allocated nodes are then exactly the
    nodes of the chain from [head], one per key.  [Insert] allocates only
    what it links in and [Delete] frees what it unlinks. *)
Theorem no_node_lost st :
  after_ops st ->
  ∃ ns, is_list st ns
        ∧ (∀ a, is_Some (nodes st !! a) ↔ a ∈ addresses ns)
        ∧ size (nodes st) = length (keys ns).
Proof.
  intros (ns & Hl & _ & Hdom)%after_ops_tidy. exists ns. split; [done|]. split.
  - intros a. by rewrite <- elem_of_dom, Hdom, elem_of_list_to_set.
  - rewrite <- size_dom, Hdom, size_list_to_set by (by eapply lseg_NoDup).
    unfold addresses, keys. by rewrite !length_fmap.
Qed.

Lemma no_node_lost_witness :
  ∃ ns, is_list three_keys ns
        ∧ (∀ a, is_Some (nodes three_keys !! a) ↔ a ∈ addresses ns)
        ∧ size (nodes three_keys) = length (keys ns).
Proof. exact (no_node_lost three_keys after_ops_three_keys). Defined.

(** *** [Free_list] *)

Lemma decide_None_ext {A} (P Q : Prop) `{!Decision P, !Decision Q} (x y : option A) :
  (P ↔ Q) -> (¬ Q -> x = y) ->
  (if decide P then None else x) = (if decide Q then None else y).
Proof. intros HPQ Hxy. repeat case_decide; try done; tauto. Qed.

Lemma free_chain_frees fuel m current following ns :
  is_Some (m !! current) -> lseg m following None ns ->
  current ∉ addresses ns -> (length ns <= fuel)%nat ->
  ∃ m', free_chain fuel m current following = Done m'
        ∧ ∀ a, m' !! a = if decide (a = current ∨ a ∈ addresses ns) then None
                         else m !! a.
Proof.
  revert fuel m current following.
  induction ns as [|[f k] ns IH]; simpl; intros fuel m current following Hc Hl Hnot Hlen.
  - subst following. destruct fuel; simpl; unfold free_node;
      destruct Hc as [n ->]; (eexists; split; [reflexivity|]); intros a;
      (case_decide as Ha; [destruct Ha as [->|Ha];
         [apply lookup_delete_eq|by apply elem_of_nil in Ha]|]);
      apply lookup_delete_ne; intros ->; apply Ha; by left.
  - destruct Hl as (-> & nx & Hf & Hl).
    apply not_elem_of_cons in Hnot as [Hne Hnot].
    destruct fuel as [|fuel]; [lia|]. simpl. unfold free_node at 1.
    destruct Hc as [n Hn]. rewrite Hn. simpl.
    rewrite lookup_delete_ne, Hf by done. simpl.
    pose proof (lseg_NoDup m (Some f) ((f, k) :: ns)) as Hnd.
    simpl in Hnd. apply NoDup_cons in Hnd as [Hfns _]; [|by eauto].
    destruct (IH fuel (delete current m) f nx) as (m' & Hfree & Hm').
    + rewrite lookup_delete_ne by done. eauto.
    + by apply lseg_delete.
    + done.
    + lia.
    + exists m'. split; [done|]. intros a. rewrite Hm'. unfold addresses in *. simpl.
      destruct (decide (a = current)) as [->|Hac].
      * rewrite lookup_delete_eq, (decide_True (P := current = current ∨ _)) by (by left).
        by case_decide.
      * rewrite lookup_delete_ne by done.
        apply decide_None_ext; [|done]. rewrite elem_of_cons. tauto.
Qed.

Lemma Free_list_result st ns :
  is_list st ns ->
  ∃ m, Free_list st = Done {| head := head st; nodes := m |}
       ∧ ∀ a, m !! a = if decide (a ∈ addresses ns) then None else nodes st !! a.
Proof.
  unfold is_list, Free_list. destruct st as [h m]. simpl.
  destruct ns as [|[c k] ns]; simpl.
  - intros ->. by exists m.
  - intros (-> & nx & Hc & Hl). unfold deref. rewrite Hc. simpl.
    pose proof (lseg_NoDup m (Some c) ((c, k) :: ns)) as Hnd.
    simpl in Hnd. apply NoDup_cons in Hnd as [Hcns _]; [|by eauto].
    destruct (free_chain_frees (size m) m c nx ns) as (m' & -> & Hm'); try by eauto.
    { pose proof (lseg_length m (Some c) ((c, k) :: ns)) as Hlen.
      simpl in Hlen. specialize (Hlen (conj eq_refl (ex_intro _ nx (conj Hc Hl)))). lia. }
    simpl. exists m'. split; [done|]. intros a. rewrite Hm'. unfold addresses. simpl.
    apply decide_None_ext; [|done]. rewrite elem_of_cons. tauto.
Qed.

Lemma scan_dangling fuel m value pred c :
  m !! c = None -> scan fuel m value pred (Some c) = Fault.
Proof. intros Hc. destruct fuel; simpl; by rewrite Hc. Qed.

(** X5. [Free_list] frees every node of the list and nothing else, and it leaves
    [head] as it was.  So after [Free_list] on a list that was not empty,
    [head] points to a freed node: [Is_empty] still answers [0], and [Member],
    [Insert] and [Delete] read through the dangling pointer. *)
Theorem Free_list_frees_nodes st ns :
  is_list st ns ->
  ∃ st', Free_list st = Done st'
         ∧ head st' = head st
         ∧ (∀ a, a ∈ addresses ns -> nodes st' !! a = None)
         ∧ (∀ a, a ∉ addresses ns -> nodes st' !! a = nodes st !! a)
         ∧ (ns ≠ [] ->
            Is_empty st' = 0
            ∧ ∀ value temp, Member value st' = Fault
                            ∧ Insert value temp st' = Fault
                            ∧ Delete value st' = Fault).
Proof.
  intros Hl. destruct (Free_list_result st ns Hl) as (m & Hfree & Hm).
  exists {| head := head st; nodes := m |}. split; [done|]. split; [done|].
  split; [|split].
  - intros a Ha. simpl. rewrite Hm. by rewrite decide_True.
  - intros a Ha. simpl. rewrite Hm. by rewrite decide_False.
  - intros Hne. destruct ns as [|[c k] ns]; [done|].
    destruct Hl as (Hhead & _).
    assert (m !! c = None) as Hc.
    { rewrite Hm, decide_True; [done|]. unfold addresses. simpl. by left. }
    unfold Is_empty, Member, Insert, Delete. simpl. rewrite Hhead.
    split; [done|]. intros value temp.
    by rewrite !(scan_dangling _ m value None c Hc).
Qed.

Lemma Free_list_frees_nodes_witness :
  ∃ st', Free_list three_keys = Done st'
         ∧ head st' = head three_keys
         ∧ (∀ a, a ∈ addresses three_nodes -> nodes st' !! a = None)
         ∧ (∀ a, a ∉ addresses three_nodes -> nodes st' !! a = nodes three_keys !! a)
         ∧ (three_nodes ≠ [] ->
            Is_empty st' = 0
            ∧ ∀ value temp, Member value st' = Fault
                            ∧ Insert value temp st' = Fault
                            ∧ Delete value st' = Fault).
Proof. exact (Free_list_frees_nodes three_keys three_nodes is_list_three_keys). Defined.

(** X6. After any run of [Insert] and [Delete] calls from the empty list,
    [Free_list] leaves no node allocated. *)
Theorem Free_list_after_ops st :
  after_ops st -> Free_list st = Done {| head := head st; nodes := ∅ |}.
Proof.
  intros (ns & Hl & _ & Hdom)%after_ops_tidy.
  destruct (Free_list_result st ns Hl) as (m & -> & Hm).
  do 2 f_equal. apply map_eq. intros a. rewrite Hm, lookup_empty.
  case_decide as Ha; [done|].
  apply not_elem_of_dom. by rewrite Hdom, elem_of_list_to_set.
Qed.

Lemma Free_list_after_ops_witness :
  Free_list three_keys = Done {| head := head three_keys; nodes := ∅ |}.
Proof. exact (Free_list_after_ops three_keys after_ops_three_keys). Defined.

End ListOps.

(** ** Filling the list in [main] *)

Module MainFacts.
Import OrderedList OrderedListFacts Driver Main.

Lemma wrap_long_id z : int_range z -> wrap_long z = z.
Proof.
  unfold int_range, wrap_long, LONG_MIN, INT_MIN, INT_MAX. intros Hz.
  rewrite Z.mod_small; lia.
Qed.

Lemma draw_key_range seed : 0 <= snd (draw_key seed) < 32768.
Proof.
  unfold draw_key, my_rand, wrap_unsigned, UINT_MODULUS, MAX_KEY. simpl snd.
  set (s := (seed * 1103515245 + 12345) mod 4294967296).
  assert (0 <= s / 65536 mod 32768 < 32768) as Hr by (apply Z.mod_pos_bound; lia).
  change (100000000 mod 4294967296) with 100000000.
  rewrite (Z.mod_small (s / 65536 mod 32768)) by lia.
  rewrite wrap_int_id; [done|]. unfold int_range, INT_MIN, INT_MAX. lia.
Qed.

(** Strictly ascending integers between two bounds: there are no more of
    them than the bounds leave room for. *)
Lemma ascending_room ks lo hi :
  ascending ks -> Forall (λ k, lo <= k < hi) ks -> lo <= hi ->
  Z.of_nat (length ks) <= hi - lo.
Proof.
  revert lo. induction ks as [|k ks IH]; intros lo Hs Hall Hle; simpl; [lia|].
  apply ascending_cons in Hs as [Hs Hgt]. apply Forall_cons in Hall as [Hk Hall].
  assert (Z.of_nat (length ks) <= hi - (k + 1)); [|lia].
  apply IH; [done| |lia].
  rewrite Forall_forall in *. intros x Hx.
  specialize (Hgt x Hx). specialize (Hall x Hx). lia.
Qed.

Section Populate.

Variable malloc : gmap positive list_node_s -> option positive.
Variable inserts_in_main : Z.
Hypothesis malloc_never_fails : never_fails malloc.

Abbreviation budget := (wrap_int (2 * inserts_in_main)).

Abbreviation filled := (filled inserts_in_main).

Lemma populate_loop_filled fuel i attempts seed st :
  int_range inserts_in_main ->
  filled i attempts st -> budget - attempts <= Z.of_nat fuel ->
  ∃ i' attempts' seed' st',
    populate_loop malloc inserts_in_main fuel i attempts seed st
    = Done (i', attempts', seed', st')
    ∧ filled i' attempts' st'
    ∧ (inserts_in_main <= i' ∨ budget <= attempts').
Proof.
  intros Hn. revert i attempts seed st.
  induction fuel as [|fuel IH]; intros i attempts seed st Hf Hfuel;
    cbn [populate_loop];
    destruct (Z.ltb_spec i inserts_in_main) as [Hi|Hi];
    destruct (Z.ltb_spec attempts budget) as [Ha|Ha]; cbn [andb];
    try (exists i, attempts, seed, st; split; [reflexivity|]; split; [done|]; lia).
  - lia.
  - pose proof (draw_key_range seed) as Hkey.
    destruct (draw_key seed) as [seed' key]. simpl in Hkey.
    destruct Hf as (Hops & Hia & Hin & Hab & ns & Hl & Hs & Hlen & Hall).
    destruct (malloc_never_fails (nodes st)) as (t & Hmalloc & Ht). rewrite Hmalloc.
    pose proof (wrap_int_range (2 * inserts_in_main)) as Hb. fold budget in Hb.
    assert (wrap_int (attempts + 1) = attempts + 1) as Hatt
      by (apply wrap_int_id; unfold int_range, INT_MIN, INT_MAX in *; lia).
    destruct (decide (key ∈ keys ns)) as [Hpresent|Habsent].
    + rewrite (Insert_present key (Some t) st ns Hl Hs Hpresent). simpl.
      rewrite Hatt. apply IH; [|lia].
      split; [done|]. split; [lia|]. split; [lia|]. split; [lia|]. eauto 10.
    + destruct (Insert_absent key t st ns Hl Habsent Ht) as (st' & Hins & Hl').
      rewrite Hins. simpl. rewrite Hatt.
      assert (wrap_long (i + 1) = i + 1) as Hlong
        by (apply wrap_long_id; unfold int_range, INT_MIN, INT_MAX in *; lia).
      rewrite Hlong. apply IH; [|lia].
      split.
      { apply (after_more st); [done|].
        apply (op_step_intro st st' (do_Insert key (Some t)) 1); [|done].
        by intros ? ? [= <- <-]. }
      split; [lia|]. split; [lia|]. split; [lia|].
      exists (spliced key t ns). split; [done|].
      split; [by apply ascending_spliced|]. split.
      * unfold spliced, keys in *. rewrite !length_fmap in *.
        rewrite length_app. simpl.
        rewrite <- (below_rest key ns), length_app in Hlen. lia.
      * unfold spliced, keys in *. rewrite fmap_app. simpl.
        rewrite <- (below_rest key ns), fmap_app in Hall.
        apply Forall_app in Hall as [H1 H2].
        apply Forall_app. split; [done|]. by constructor.
Qed.

End Populate.


Lemma fresh_malloc_never_fails : never_fails fresh_malloc.
Proof.
  intros m. exists (fresh (dom m)). split; [done|].
  apply not_elem_of_dom, is_fresh.
Qed.


End MainFacts.

(** ** More on the lock: what each function does to the fields *)

Module LockOps.
Import RWLock RWLockFacts.

Lemma wrap_inc_dec x : int_range x -> wrap_int (wrap_int (x + 1) - 1) = x.
Proof.
  intros Hx.
  replace (wrap_int (x + 1) - 1) with (wrap_int (x + 1) + -1) by ring.
  rewrite wrap_int_add_l. replace (x + 1 + -1) with x by ring.
  by apply wrap_int_id.
Qed.

Ltac in_range := unfold int_range, INT_MIN, INT_MAX in *; simpl in *; lia.

Lemma rdlock_enter_passes l :
  ¬ reader_must_wait l ->
  0 <= waiting_readers l <= INT_MAX -> 0 <= active_readers l < INT_MAX ->
  rdlock_enter l = (Returned 0, set_active_readers (active_readers l + 1) l, []).
Proof.
  unfold reader_must_wait. destruct l as [ar wr ww wa]. simpl. intros Hw Hwr Har.
  run_mon. split_tests; rewrite ?(wrap_inc_dec wr), ?(wrap_int_id (ar + 1)) by in_range;
    try reflexivity; exfalso; lia.
Qed.

Lemma rdlock_enter_waits l :
  reader_must_wait l -> 0 <= waiting_readers l < INT_MAX ->
  rdlock_enter l = (Waits read_cond, set_waiting_readers (waiting_readers l + 1) l, []).
Proof.
  intros Hw Hwr. destruct (reader_waits l Hw) as [-> _].
  rewrite wrap_int_id by in_range. reflexivity.
Qed.

Lemma rdlock_retest_passes l :
  ¬ reader_must_wait l ->
  0 <= waiting_readers l <= INT_MAX -> 0 <= active_readers l < INT_MAX ->
  rdlock_retest l
  = (Returned 0,
     set_active_readers (active_readers l + 1)
       (set_waiting_readers (waiting_readers l - 1) l), []).
Proof.
  unfold reader_must_wait. destruct l as [ar wr ww wa]. simpl. intros Hw Hwr Har.
  run_mon. split_tests; rewrite ?(wrap_int_id (wr - 1)), ?(wrap_int_id (ar + 1)) by in_range;
    try reflexivity; exfalso; lia.
Qed.

Lemma rdlock_retest_waits l :
  reader_must_wait l -> rdlock_retest l = (Waits read_cond, l, []).
Proof. intros Hw. by destruct (reader_waits l Hw) as [_ ->]. Qed.

Lemma wrlock_retest_waits l :
  writer_must_wait l -> wrlock_retest l = (Waits write_cond, l, []).
Proof.
  unfold writer_must_wait. destruct l as [ar wr ww wa]. simpl. intros Hw.
  run_mon. split_tests; [reflexivity|exfalso; lia].
Qed.

Lemma wrlock_retest_passes l :
  ¬ writer_must_wait l -> 0 <= waiting_writers l <= INT_MAX ->
  wrlock_retest l
  = (Returned 0, set_writer_active 1 (set_waiting_writers (waiting_writers l - 1) l), []).
Proof.
  unfold writer_must_wait. destruct l as [ar wr ww wa]. simpl. intros Hw Hww.
  run_mon. split_tests; rewrite ?(wrap_int_id (ww - 1)) by in_range;
    try reflexivity; exfalso; lia.
Qed.

Lemma wrlock_enter_waits l :
  writer_must_wait l -> 0 <= waiting_writers l < INT_MAX ->
  wrlock_enter l = (Waits write_cond, set_waiting_writers (waiting_writers l + 1) l, []).
Proof.
  unfold writer_must_wait. destruct l as [ar wr ww wa]. simpl. intros Hw Hww.
  run_mon. split_tests; rewrite ?(wrap_int_id (ww + 1)) by in_range;
    try reflexivity; exfalso; lia.
Qed.

Lemma wrlock_enter_passes l :
  ¬ writer_must_wait l -> 0 <= waiting_writers l <= INT_MAX ->
  wrlock_enter l = (Returned 0, set_writer_active 1 l, []).
Proof.
  unfold writer_must_wait. destruct l as [ar wr ww wa]. simpl. intros Hw Hww.
  run_mon. split_tests; rewrite ?(wrap_inc_dec ww) by in_range;
    try reflexivity; exfalso; lia.
Qed.

Lemma unlock_by_writer l :
  writer_active l ≠ 0 ->
  unlock_body l
  = (Returned 0, set_writer_active 0 l,
     [if 0 <? waiting_writers l then cond_signal write_cond
      else cond_broadcast read_cond]).
Proof.
  destruct l as [ar wr ww wa]. simpl. intros Hwa.
  run_mon. split_tests; try reflexivity; exfalso; lia.
Qed.

Lemma unlock_by_reader l :
  writer_active l = 0 -> 0 < active_readers l <= INT_MAX ->
  unlock_body l
  = (Returned 0, set_active_readers (active_readers l - 1) l,
     if (active_readers l - 1 =? 0) && (0 <? waiting_writers l)
     then [cond_signal write_cond] else []).
Proof.
  destruct l as [ar wr ww wa]. simpl. intros -> Har.
  assert (wrap_int (ar - 1) = ar - 1) as Hdec by (apply wrap_int_id; in_range).
  run_mon.
  repeat (rewrite ?Hdec;
          match goal with
          | |- context [ if ?b then _ else _ ] =>
              destruct b eqn:?; cbn -[wrap_int Z.eqb Z.ltb]
          end);
    rewrite ?Hdec; try reflexivity; exfalso; lia.
Qed.

(** X8. Acquire, then release.  On a lock that no writer holds or waits for,
    [my_rwlock_rdlock] returns [0] at once, however many readers are in, and
    the [my_rwlock_unlock] that follows puts the four fields back and wakes
    nobody.  On a lock that nobody holds, [my_rwlock_wrlock] returns [0] at
    once, and the [my_rwlock_unlock] that follows puts the fields back and
    makes one wake-up call: a signal to a writer if one waits, else a
    broadcast to the readers. *)
Theorem acquire_release_round_trip l :
  (¬ reader_must_wait l ->
   0 <= waiting_readers l <= INT_MAX -> 0 <= active_readers l < INT_MAX ->
   my_rwlock_rdlock (Some l)
   = (Returned 0, Some (set_active_readers (active_readers l + 1) l), [])
   ∧ my_rwlock_unlock (Some (set_active_readers (active_readers l + 1) l))
     = (Returned 0, Some l, []))
  ∧ (¬ writer_must_wait l -> 0 <= waiting_writers l <= INT_MAX ->
     my_rwlock_wrlock (Some l) = (Returned 0, Some (set_writer_active 1 l), [])
     ∧ my_rwlock_unlock (Some (set_writer_active 1 l))
       = (Returned 0, Some l,
          [if 0 <? waiting_writers l then cond_signal write_cond
           else cond_broadcast read_cond])).
Proof.
  unfold my_rwlock_rdlock, my_rwlock_wrlock, my_rwlock_unlock, on_handle. split.
  - intros Hw Hwr Har. rewrite (rdlock_enter_passes l Hw Hwr Har). split; [done|].
    unfold reader_must_wait in Hw.
    rewrite unlock_by_reader; destruct l as [ar wr ww wa]; simpl in *; try lia.
    replace (ar + 1 - 1) with ar by ring.
    destruct (Z.ltb_spec 0 ww); [lia|]. by rewrite andb_false_r.
  - intros Hw Hww. rewrite (wrlock_enter_passes l Hw Hww). split; [done|].
    unfold writer_must_wait in Hw.
    rewrite unlock_by_writer; destruct l as [ar wr ww wa]; simpl in *; try lia.
    unfold set_writer_active. simpl. replace wa with 0 by lia. reflexivity.
Qed.

Lemma acquire_release_round_trip_witness :
  (my_rwlock_rdlock (Some (lock three_threads_free))
   = (Returned 0, Some (set_active_readers 3 (lock three_threads_free)), [])
   ∧ my_rwlock_unlock (Some (set_active_readers 3 (lock three_threads_free)))
     = (Returned 0, Some (lock three_threads_free), []))
  ∧ (my_rwlock_wrlock (Some waiters_only)
     = (Returned 0, Some (set_writer_active 1 waiters_only), [])
     ∧ my_rwlock_unlock (Some (set_writer_active 1 waiters_only))
       = (Returned 0, Some waiters_only, [cond_signal write_cond])).
Proof.
  split.
  - apply (proj1 (acquire_release_round_trip (lock three_threads_free)));
      unfold reader_must_wait, INT_MAX; simpl; lia.
  - apply (proj2 (acquire_release_round_trip waiters_only));
      unfold writer_must_wait, INT_MAX; simpl; lia.
Defined.

End LockOps.

(** ** The workers around the lock *)

Module PoolFacts.
Import RWLock RWLockFacts LockOps Pool.

(** *** Head counts *)

Lemma census_insert p ws t w w' :
  ws !! t = Some w ->
  census p (<[t := w']> ws) = census p ws - Z.b2z (p w) + Z.b2z (p w').
Proof.
  revert t. induction ws as [|x ws IH]; intros [|t]; simpl; try done.
  - intros [= ->]. lia.
  - intros Ht. rewrite (IH t Ht). lia.
Qed.

Lemma census_nonneg p ws : 0 <= census p ws.
Proof. induction ws as [|w ws IH]; simpl; [lia|]. destruct (p w); simpl; lia. Qed.

Lemma census_lookup p ws t w :
  ws !! t = Some w -> p w = true -> 1 <= census p ws.
Proof.
  revert t. induction ws as [|x ws IH]; intros [|t]; simpl; try done.
  - intros [= ->] ->. pose proof (census_nonneg p ws). simpl. lia.
  - intros Ht Hp. specialize (IH t Ht Hp). destruct (p x); simpl; lia.
Qed.

Lemma census_pos p ws : 0 < census p ws -> ∃ t w, ws !! t = Some w ∧ p w = true.
Proof.
  induction ws as [|w ws IH]; simpl; [lia|].
  destruct (p w) eqn:Hp; simpl.
  - intros _. by exists 0%nat, w.
  - intros (t & w' & Ht & Hw)%IH. by exists (S t), w'.
Qed.

Lemma heads_bound ws :
  0 <= readers_in ws ∧ 0 <= writers_in ws
  ∧ 0 <= readers_asleep ws ∧ 0 <= readers_woken ws
  ∧ 0 <= writers_asleep ws ∧ 0 <= writers_woken ws
  ∧ readers_in ws + writers_in ws + readers_asleep ws + readers_woken ws
    + writers_asleep ws + writers_woken ws <= Z.of_nat (length ws).
Proof.
  unfold readers_in, writers_in, readers_asleep, readers_woken,
    writers_asleep, writers_woken.
  induction ws as [|w ws IH]; simpl; [lia|].
  destruct w as [| | |[]|[]]; simpl; lia.
Qed.

Lemma heads_insert ws t w w' :
  ws !! t = Some w ->
  readers_in (<[t := w']> ws)
  = readers_in ws - Z.b2z (searching w) + Z.b2z (searching w')
  ∧ writers_in (<[t := w']> ws)
    = writers_in ws - Z.b2z (updating w) + Z.b2z (updating w')
  ∧ readers_asleep (<[t := w']> ws)
    = readers_asleep ws - Z.b2z (asleep_on read_cond w) + Z.b2z (asleep_on read_cond w')
  ∧ readers_woken (<[t := w']> ws)
    = readers_woken ws - Z.b2z (woken_on read_cond w) + Z.b2z (woken_on read_cond w')
  ∧ writers_asleep (<[t := w']> ws)
    = writers_asleep ws - Z.b2z (asleep_on write_cond w) + Z.b2z (asleep_on write_cond w')
  ∧ writers_woken (<[t := w']> ws)
    = writers_woken ws - Z.b2z (woken_on write_cond w) + Z.b2z (woken_on write_cond w').
Proof. intros Ht. repeat split; by apply census_insert. Qed.

Lemma heads_broadcast ws :
  readers_in (wake_all read_cond <$> ws) = readers_in ws
  ∧ writers_in (wake_all read_cond <$> ws) = writers_in ws
  ∧ readers_asleep (wake_all read_cond <$> ws) = 0
  ∧ readers_woken (wake_all read_cond <$> ws) = readers_asleep ws + readers_woken ws
  ∧ writers_asleep (wake_all read_cond <$> ws) = writers_asleep ws
  ∧ writers_woken (wake_all read_cond <$> ws) = writers_woken ws.
Proof.
  unfold readers_in, writers_in, readers_asleep, readers_woken,
    writers_asleep, writers_woken.
  induction ws as [|w ws IH]; [simpl; lia|].
  rewrite fmap_cons. destruct w as [| | |[]|[]]; cbn [census wake_all asleep_on
    woken_on searching updating same_cond Z.b2z]; lia.
Qed.

(** *** The invariant *)

Ltac counts :=
  unfold readers_in, writers_in, readers_asleep, readers_woken,
    writers_asleep, writers_woken in *.

(** The head counts of [ws] with worker [t] replaced by [w'], and their
    bounds. *)
Ltac replaced Ht w' :=
  let H := fresh "Hrepl" in
  let B := fresh "Hbound" in
  pose proof (heads_insert _ _ _ w' Ht) as H;
  match type of Ht with
  | ?ws !! ?t = _ =>
      pose proof (heads_bound (<[t := w']> ws)) as B;
      rewrite length_insert in B
  end;
  cbn [searching updating asleep_on woken_on same_cond Z.b2z] in H.

Ltac settle :=
  split;
  [ unfold accounted, reader_must_wait, writer_must_wait, final_lock in *;
    simpl in *; counts; lia
  | simpl; by rewrite ?length_fmap, ?length_insert ].

(** The cases of a signal on [write_cond]: nobody sleeps on it, or the
    victim does and is woken. *)
Ltac signalled Hstep victim :=
  match type of Hstep with
  | context [ census ?p ?ws1 =? 0 ] =>
      destruct (Z.eqb_spec (census p ws1) 0);
      [ injection Hstep as <-
      | let wv := fresh "wv" in
        let Hv := fresh "Hv" in
        destruct (ws1 !! victim) as [wv|] eqn:Hv; [|discriminate Hstep];
        destruct wv as [| | |[]|[]]; simpl in Hstep; try discriminate Hstep;
        injection Hstep as <-;
        replaced Hv (Woken write_cond) ]
  end.

Lemma reader_wait_dec l : reader_must_wait l ∨ ¬ reader_must_wait l.
Proof. unfold reader_must_wait. lia. Qed.

Lemma writer_wait_dec l : writer_must_wait l ∨ ¬ writer_must_wait l.
Proof. unfold writer_must_wait. lia. Qed.

Lemma pstep_accounted n π t mv victim π' :
  Z.of_nat n <= INT_MAX -> length (workers π) = n ->
  accounted π -> pstep t mv victim π = Some π' ->
  accounted π' ∧ length (workers π') = n.
Proof.
  intros Hn Hlen Hacc Hstep. destruct π as [l ws]. unfold pstep in Hstep.
  simpl in *. subst n.
  destruct (ws !! t) as [w|] eqn:Ht; [|done].
  pose proof (heads_bound ws) as Hold.
  unfold accounted in Hacc. simpl in Hacc.
  destruct Hacc as (Har & Hwa & Hwr & Hww & Hone & Hexcl & Hrs & Hws).
  destruct w as [| | |[]|[]], mv; simpl in Hstep; try discriminate.
  - (* Idle, Acquire_read *)
    destruct (reader_wait_dec l) as [Hw|Hw].
    + replaced Ht (Asleep read_cond).
      rewrite rdlock_enter_waits in Hstep by (done || lia).
      simpl in Hstep. injection Hstep as <-.
      settle.
    + replaced Ht Searching.
      rewrite rdlock_enter_passes in Hstep by (done || lia).
      simpl in Hstep. injection Hstep as <-.
      settle.
  - (* Idle, Acquire_write *)
    destruct (writer_wait_dec l) as [Hw|Hw].
    + replaced Ht (Asleep write_cond).
      rewrite wrlock_enter_waits in Hstep by (done || lia).
      simpl in Hstep. injection Hstep as <-.
      settle.
    + replaced Ht Updating.
      rewrite wrlock_enter_passes in Hstep by (done || lia).
      simpl in Hstep. injection Hstep as <-.
      settle.
  - (* Searching, Release *)
    replaced Ht Idle.
    assert (writer_active l = 0) as Hfree by lia.
    rewrite (unlock_by_reader l) in Hstep by lia.
    unfold result, wakeups in Hstep. simpl in Hstep.
    destruct ((active_readers l - 1 =? 0) && (0 <? waiting_writers l)) eqn:Hsig;
      simpl in Hstep.
    + signalled Hstep victim; settle.
    + injection Hstep as <-. settle.
  - (* Updating, Release *)
    replaced Ht Idle.
    assert (writer_active l ≠ 0) as Hheld by lia.
    rewrite (unlock_by_writer l) in Hstep by done.
    unfold result, wakeups in Hstep. simpl in Hstep.
    destruct (0 <? waiting_writers l) eqn:Hsig; simpl in Hstep.
    + signalled Hstep victim; settle.
    + injection Hstep as <-.
      pose proof (heads_broadcast (<[t := Idle]> ws)) as Hcast.
      pose proof (heads_bound (wake_all read_cond <$> <[t := Idle]> ws)) as Hall.
      rewrite length_fmap, length_insert in Hall.
      settle.
  - (* Asleep read_cond, Spurious *)
    injection Hstep as <-. replaced Ht (Woken read_cond). settle.
  - (* Asleep write_cond, Spurious *)
    injection Hstep as <-. replaced Ht (Woken write_cond). settle.
  - (* Woken read_cond, Retest *)
    destruct (reader_wait_dec l) as [Hw|Hw].
    + replaced Ht (Asleep read_cond).
      rewrite rdlock_retest_waits in Hstep by done.
      simpl in Hstep. injection Hstep as <-. settle.
    + replaced Ht Searching.
      rewrite rdlock_retest_passes in Hstep by (done || lia).
      simpl in Hstep. injection Hstep as <-. settle.
  - (* Woken write_cond, Retest *)
    destruct (writer_wait_dec l) as [Hw|Hw].
    + replaced Ht (Asleep write_cond).
      rewrite wrlock_retest_waits in Hstep by done.
      simpl in Hstep. injection Hstep as <-. settle.
    + replaced Ht Updating.
      rewrite wrlock_retest_passes in Hstep by (done || lia).
      simpl in Hstep. injection Hstep as <-. settle.
Qed.

Lemma census_idle p n : p Idle = false -> census p (replicate n Idle) = 0.
Proof. intros Hp. induction n as [|n IH]; simpl; [done|]. rewrite Hp, IH. done. Qed.

Lemma preachable_accounted n π :
  Z.of_nat n <= INT_MAX -> preachable n π ->
  accounted π ∧ length (workers π) = n.
Proof.
  intros Hn. induction 1 as [|π t mv victim π' _ [IH1 IH2] Hstep].
  - split; [|apply length_replicate].
    unfold accounted, init_pool. simpl. counts.
    rewrite !census_idle by done. lia.
  - eapply pstep_accounted; eauto.
Qed.

Lemma prun_reachable n sched π π' :
  preachable n π -> prun sched π = Some π' -> preachable n π'.
Proof.
  revert π. induction sched as [|[[t mv] victim] sched IH]; simpl; intros π Hr He.
  - injection He as <-. exact Hr.
  - destruct (pstep t mv victim π) as [π1|] eqn:Hs; [|done].
    eapply IH; [|exact He]. eapply preach_step; eauto.
Qed.

Lemma busy_pool_reachable : preachable 4 busy_pool.
Proof.
  apply (prun_reachable 4
           [(0, Acquire_read, 0); (1, Acquire_write, 0); (2, Acquire_read, 0)]%nat
           (init_pool 4)).
  - apply preach_init.
  - reflexivity.
Qed.

Lemma writing_pool_reachable : preachable 4 writing_pool.
Proof.
  apply (prun_reachable 4 [(0, Release, 1); (1, Retest, 0)]%nat busy_pool).
  - apply busy_pool_reachable.
  - reflexivity.
Qed.

(** *** What the workers can rely on *)

(** X9. The lock fields are head counts.  In every state the workers of
    [Thread_work] can reach, [active_readers] is the number of workers inside
    [Member], [writer_active] the number inside [Insert] or [Delete], which
    is [0] or [1], and [waiting_readers] and [waiting_writers] are the
    numbers of workers waiting in [my_rwlock_rdlock] and in
    [my_rwlock_wrlock]; so no field is ever negative or above the number of
    threads. *)
Theorem lock_fields_count n π :
  Z.of_nat n <= INT_MAX -> preachable n π ->
  active_readers (the_lock π) = readers_in (workers π)
  ∧ writer_active (the_lock π) = writers_in (workers π)
  ∧ waiting_readers (the_lock π)
    = readers_asleep (workers π) + readers_woken (workers π)
  ∧ waiting_writers (the_lock π)
    = writers_asleep (workers π) + writers_woken (workers π)
  ∧ (writer_active (the_lock π) = 0 ∨ writer_active (the_lock π) = 1)
  ∧ 0 <= active_readers (the_lock π) <= Z.of_nat n
  ∧ 0 <= waiting_readers (the_lock π) <= Z.of_nat n
  ∧ 0 <= waiting_writers (the_lock π) <= Z.of_nat n.
Proof.
  intros Hn Hr. destruct (preachable_accounted n π Hn Hr) as [Hacc Hlen].
  pose proof (heads_bound (workers π)) as Hb. rewrite Hlen in Hb.
  unfold accounted in Hacc. simpl in Hacc. lia.
Qed.

Lemma lock_fields_count_witness :
  active_readers (the_lock busy_pool) = readers_in (workers busy_pool)
  ∧ writer_active (the_lock busy_pool) = writers_in (workers busy_pool)
  ∧ waiting_readers (the_lock busy_pool)
    = readers_asleep (workers busy_pool) + readers_woken (workers busy_pool)
  ∧ waiting_writers (the_lock busy_pool)
    = writers_asleep (workers busy_pool) + writers_woken (workers busy_pool)
  ∧ (writer_active (the_lock busy_pool) = 0 ∨ writer_active (the_lock busy_pool) = 1)
  ∧ 0 <= active_readers (the_lock busy_pool) <= Z.of_nat 4
  ∧ 0 <= waiting_readers (the_lock busy_pool) <= Z.of_nat 4
  ∧ 0 <= waiting_writers (the_lock busy_pool) <= Z.of_nat 4.
Proof.
  apply (lock_fields_count 4 busy_pool); [unfold INT_MAX; lia|].
  exact busy_pool_reachable.
Defined.

(** X10. Exclusion between the workers.  While one worker is inside [Insert] or
    [Delete], that is between the return of its [my_rwlock_wrlock] and its
    [my_rwlock_unlock], no other worker is inside [Insert], [Delete] or
    [Member]. *)
Theorem writer_works_alone n π t1 t2 :
  Z.of_nat n <= INT_MAX -> preachable n π ->
  workers π !! t1 = Some Updating -> t1 ≠ t2 ->
  workers π !! t2 ≠ Some Updating ∧ workers π !! t2 ≠ Some Searching.
Proof.
  intros Hn Hr H1 Hne. destruct (preachable_accounted n π Hn Hr) as [Hacc _].
  unfold accounted in Hacc. simpl in Hacc.
  destruct Hacc as (_ & _ & _ & _ & Hone & Hexcl & _ & _).
  pose proof (census_lookup updating _ _ _ H1 eq_refl) as Hw. fold (writers_in (workers π)) in Hw.
  split; intros H2.
  - pose proof (census_insert updating _ _ _ Idle H1) as Hins. simpl in Hins.
    assert (<[t1 := Idle]> (workers π) !! t2 = Some Updating) as H2'
      by (by rewrite list_lookup_insert_ne).
    pose proof (census_lookup updating _ _ _ H2' eq_refl). counts. lia.
  - pose proof (census_lookup searching _ _ _ H2 eq_refl). counts. lia.
Qed.

Lemma writer_works_alone_witness :
  workers writing_pool !! 0%nat ≠ Some Updating
  ∧ workers writing_pool !! 0%nat ≠ Some Searching.
Proof.
  apply (writer_works_alone 4 writing_pool 1 0).
  - unfold INT_MAX. lia.
  - exact writing_pool_reachable.
  - reflexivity.
  - lia.
Defined.

(** *** No wake-up is lost *)

Lemma retest_wakes_nobody l :
  wakeups (rdlock_retest l) = [] ∧ wakeups (wrlock_retest l) = [].
Proof. destruct l as [ar wr ww wa]. split; run_mon; split_tests; reflexivity. Qed.

Lemma unlock_wakeups l :
  wakeups (unlock_body l) = []
  ∨ wakeups (unlock_body l) = [cond_signal write_cond]
  ∨ wakeups (unlock_body l) = [cond_broadcast read_cond].
Proof. destruct l as [ar wr ww wa]. run_mon. split_tests; auto. Qed.

Lemma deliver_enabled ws wk : ∃ victim ws', deliver victim ws wk = Some ws'.
Proof.
  destruct wk as [c|c]; simpl; [|by exists 0%nat; eauto].
  destruct (Z.eqb_spec (census (asleep_on c) ws) 0) as [|Hne]; [by exists 0%nat; eauto|].
  pose proof (census_nonneg (asleep_on c) ws).
  destruct (census_pos (asleep_on c) ws) as (v & w & Hv & Hw); [lia|].
  exists v. rewrite Hv, Hw. eauto.
Qed.

Lemma release_enabled t w π :
  workers π !! t = Some w -> w = Searching ∨ w = Updating ->
  ∃ victim π', pstep t Release victim π = Some π'.
Proof.
  intros Ht Hw. unfold pstep. rewrite Ht.
  assert (∃ victim ws',
            deliver_all victim
              (<[t := next_worker w Release (result (unlock_body (the_lock π)))]>
                 (workers π))
              (wakeups (unlock_body (the_lock π))) = Some ws') as (victim & ws' & Hd).
  { destruct (unlock_wakeups (the_lock π)) as [->|[->| ->]]; cbn [deliver_all].
    - by exists 0%nat; eauto.
    - match goal with
      | |- context [ deliver _ ?ws ?wk ] =>
          destruct (deliver_enabled ws wk) as (victim & ws' & Hd)
      end.
      exists victim, ws'. by rewrite Hd.
    - by exists 0%nat; eauto. }
  exists victim. destruct Hw as [-> | ->]; simpl; rewrite Hd; eauto.
Qed.

Lemma retest_enabled t c π :
  workers π !! t = Some (Woken c) -> ∃ π', pstep t Retest 0 π = Some π'.
Proof.
  intros Ht. unfold pstep. rewrite Ht.
  destruct (retest_wakes_nobody (the_lock π)) as [Hr Hw].
  destruct c; simpl; rewrite ?Hr, ?Hw; simpl; eauto.
Qed.

(** X11. No lost wake-up, no deadlock.  In every state the workers can reach in
    which some worker sleeps in [pthread_cond_wait], some worker holds the
    lock or has been woken; that worker can take its next step, a
    [my_rwlock_unlock] or a new test of its [while], on its own: nobody
    sleeps while the lock is free and no wake-up is on its way, so the
    sleepers never depend on a spurious wake-up. *)
Theorem no_lost_wakeup n π t c :
  Z.of_nat n <= INT_MAX -> preachable n π ->
  workers π !! t = Some (Asleep c) ->
  ∃ t' w mv victim π',
    workers π !! t' = Some w
    ∧ can_move w = true
    ∧ (mv = Release ∨ mv = Retest)
    ∧ pstep t' mv victim π = Some π'.
Proof.
  intros Hn Hr Ht. destruct (preachable_accounted n π Hn Hr) as [Hacc _].
  unfold accounted in Hacc. simpl in Hacc.
  destruct Hacc as (_ & _ & _ & _ & Hone & _ & Hrs & Hws).
  pose proof (heads_bound (workers π)) as Hb.
  assert (0 < readers_in (workers π) ∨ 0 < writers_in (workers π)
          ∨ 0 < writers_woken (workers π)) as Hmover.
  { pose proof (census_lookup (asleep_on c) _ _ _ Ht) as Hc.
    destruct c; simpl in Hc; specialize (Hc eq_refl); counts; lia. }
  destruct Hmover as [H|[H|H]];
    apply census_pos in H as (t' & w & Ht' & Hw);
    destruct w as [| | |[]|[]]; try discriminate Hw.
  - destruct (release_enabled t' Searching π Ht') as (victim & π' & Hs); [by left|].
    exists t', Searching, Release, victim, π'. auto.
  - destruct (release_enabled t' Updating π Ht') as (victim & π' & Hs); [by right|].
    exists t', Updating, Release, victim, π'. auto.
  - destruct (retest_enabled t' write_cond π Ht') as (π' & Hs).
    exists t', (Woken write_cond), Retest, 0%nat, π'. auto.
Qed.

Lemma no_lost_wakeup_witness :
  ∃ t' w mv victim π',
    workers busy_pool !! t' = Some w
    ∧ can_move w = true
    ∧ (mv = Release ∨ mv = Retest)
    ∧ pstep t' mv victim busy_pool = Some π'.
Proof.
  apply (no_lost_wakeup 4 busy_pool 2 read_cond).
  - unfold INT_MAX. lia.
  - exact busy_pool_reachable.
  - reflexivity.
Defined.

(** *** Who gets in *)

(** X12. Admission, in terms of what the workers are doing.  A worker that calls
    [my_rwlock_rdlock] gets the lock at once exactly when no worker is inside
    [Insert] or [Delete] and none waits in [my_rwlock_wrlock], however many
    are inside [Member]; otherwise it sleeps on [read_cond].  A worker that
    calls [my_rwlock_wrlock] gets the lock at once exactly when no worker is
    inside a list operation; otherwise it sleeps on [write_cond]. *)
Theorem admission n π t victim :
  Z.of_nat n <= INT_MAX -> preachable n π ->
  workers π !! t = Some Idle ->
  (∃ π', pstep t Acquire_read victim π = Some π'
         ∧ workers π' !! t
           = Some (if decide (writers_in (workers π) = 0
                              ∧ writers_asleep (workers π) + writers_woken (workers π) = 0)
                   then Searching else Asleep read_cond))
  ∧ (∃ π', pstep t Acquire_write victim π = Some π'
           ∧ workers π' !! t
             = Some (if decide (readers_in (workers π) = 0 ∧ writers_in (workers π) = 0)
                     then Updating else Asleep write_cond)).
Proof.
  intros Hn Hr Ht. destruct (preachable_accounted n π Hn Hr) as [Hacc Hlen].
  destruct π as [l ws]. simpl in *. subst n.
  assert (t < length ws)%nat as Hlt by (by eapply lookup_lt_Some).
  pose proof (heads_bound ws) as Hold.
  unfold accounted in Hacc. simpl in Hacc.
  destruct Hacc as (Har & Hwa & Hwr & Hww & Hone & Hexcl & Hrs & Hws).
  unfold pstep. simpl. rewrite Ht. simpl. split.
  - destruct (reader_wait_dec l) as [Hw|Hw].
    + replaced Ht (Asleep read_cond).
      rewrite rdlock_enter_waits by (done || lia). simpl.
      eexists. split; [reflexivity|]. simpl. rewrite list_lookup_insert_eq by done.
      rewrite decide_False; [done|]. unfold reader_must_wait in Hw. lia.
    + replaced Ht Searching.
      rewrite rdlock_enter_passes by (done || lia). simpl.
      eexists. split; [reflexivity|]. simpl. rewrite list_lookup_insert_eq by done.
      rewrite decide_True; [done|]. unfold reader_must_wait in Hw. lia.
  - destruct (writer_wait_dec l) as [Hw|Hw].
    + replaced Ht (Asleep write_cond).
      rewrite wrlock_enter_waits by (done || lia). simpl.
      eexists. split; [reflexivity|]. simpl. rewrite list_lookup_insert_eq by done.
      rewrite decide_False; [done|]. unfold writer_must_wait in Hw. lia.
    + replaced Ht Updating.
      rewrite wrlock_enter_passes by (done || lia). simpl.
      eexists. split; [reflexivity|]. simpl. rewrite list_lookup_insert_eq by done.
      rewrite decide_True; [done|]. unfold writer_must_wait in Hw. lia.
Qed.

Lemma admission_witness :
  (∃ π', pstep 3 Acquire_read 0 busy_pool = Some π'
         ∧ workers π' !! 3%nat
           = Some (if decide (writers_in (workers busy_pool) = 0
                              ∧ writers_asleep (workers busy_pool)
                                + writers_woken (workers busy_pool) = 0)
                   then Searching else Asleep read_cond))
  ∧ (∃ π', pstep 3 Acquire_write 0 busy_pool = Some π'
           ∧ workers π' !! 3%nat
             = Some (if decide (readers_in (workers busy_pool) = 0
                                ∧ writers_in (workers busy_pool) = 0)
                     then Updating else Asleep write_cond)).
Proof.
  apply (admission 4 busy_pool 3 0).
  - unfold INT_MAX. lia.
  - exact busy_pool_reachable.
  - reflexivity.
Defined.

End PoolFacts.

(** ** The whole run *)

Module ProgramFacts.
Import RWLock RWLockFacts LockOps OrderedList OrderedListFacts ListOps.
Import Driver DriverFacts Pool PoolFacts Main Program.

(** *** Sums over the threads *)

Lemma weigh_insert g fs t f f' :
  fs !! t = Some f -> weigh g (<[t := f']> fs) = weigh g fs - g f + g f'.
Proof.
  revert t. induction fs as [|x fs IH]; intros [|t]; simpl; try done.
  - intros [= ->]. lia.
  - intros Ht. rewrite (IH t Ht). lia.
Qed.

Lemma weigh_const g c fs :
  (∀ f, f ∈ fs -> g f = c) -> weigh g fs = Z.of_nat (length fs) * c.
Proof.
  induction fs as [|x fs IH]; intros Hg; [simpl; lia|].
  cbn [weigh length]. rewrite (Hg x) by (by left).
  rewrite IH by (intros f Hf; apply Hg; by right). lia.
Qed.

Lemma weigh_nonneg g fs : (∀ f, f ∈ fs -> 0 <= g f) -> 0 <= weigh g fs.
Proof.
  induction fs as [|x fs IH]; intros Hg; simpl; [lia|].
  specialize (Hg x (list_elem_of_here _ _)) as Hx.
  assert (0 <= weigh g fs) by (apply IH; intros f Hf; apply Hg; by right). lia.
Qed.

Lemma weigh_sum g1 g2 fs :
  weigh (fun f => g1 f + g2 f) fs = weigh g1 fs + weigh g2 fs.
Proof. induction fs as [|x fs IH]; simpl; lia. Qed.

(** *** What a move of the lock does to the workers *)

Lemma deliver_effect victim ws wk ws' :
  deliver victim ws wk = Some ws' ->
  length ws' = length ws
  ∧ ∀ t w, ws !! t = Some w -> ∃ w', ws' !! t = Some w' ∧ kept_or_woken w w'.
Proof.
  unfold kept_or_woken. destruct wk as [c|c]; simpl.
  - destruct (census (asleep_on c) ws =? 0); [intros [= <-]; eauto|].
    destruct (ws !! victim) as [wv|] eqn:Hv; [|done].
    destruct (asleep_on c wv) eqn:Hwv; [|done]. intros [= <-].
    split; [by rewrite length_insert|]. intros t w Ht.
    destruct (decide (t = victim)) as [->|Hne].
    + rewrite list_lookup_insert_eq by (by eapply lookup_lt_Some).
      exists (Woken c). split; [done|]. right. exists c. split; [|done].
      rewrite Hv in Ht. injection Ht as <-.
      destruct wv as [| | |c'|c']; try discriminate.
      destruct c, c'; done.
    + rewrite list_lookup_insert_ne by done. eauto.
  - intros [= <-]. split; [by rewrite length_fmap|]. intros t w Ht.
    rewrite list_lookup_fmap, Ht. simpl. eexists. split; [done|].
    unfold wake_all. destruct (asleep_on c w) eqn:Hw; [|by left].
    right. exists c. split; [|done].
    destruct w as [| | |c'|c']; try discriminate. destruct c, c'; done.
Qed.

Lemma kept_or_woken_trans w1 w2 w3 :
  kept_or_woken w1 w2 -> kept_or_woken w2 w3 -> kept_or_woken w1 w3.
Proof.
  unfold kept_or_woken. intros [->|(c & -> & ->)] [->|(c' & H & ->)]; eauto.
  discriminate.
Qed.

Lemma deliver_all_effect victim ws wks ws' :
  deliver_all victim ws wks = Some ws' ->
  length ws' = length ws
  ∧ ∀ t w, ws !! t = Some w -> ∃ w', ws' !! t = Some w' ∧ kept_or_woken w w'.
Proof.
  revert ws. induction wks as [|wk wks IH]; simpl; intros ws.
  - intros [= <-]. split; [done|]. intros t w Ht. exists w. split; [done|by left].
  - destruct (deliver victim ws wk) as [ws1|] eqn:Hd; [|done]. intros Hrest.
    destruct (deliver_effect _ _ _ _ Hd) as [Hl1 H1].
    destruct (IH _ Hrest) as [Hl2 H2]. split; [congruence|].
    intros t w Ht. destruct (H1 t w Ht) as (w1 & Ht1 & Hk1).
    destruct (H2 t w1 Ht1) as (w2 & Ht2 & Hk2).
    exists w2. split; [done|]. by eapply kept_or_woken_trans.
Qed.

Lemma lock_outcomes l :
  (wakeups (rdlock_enter l) = []
   ∧ (result (rdlock_enter l) = Waits read_cond ∨ result (rdlock_enter l) = Returned 0))
  ∧ (wakeups (rdlock_retest l) = []
     ∧ (result (rdlock_retest l) = Waits read_cond
        ∨ result (rdlock_retest l) = Returned 0))
  ∧ (wakeups (wrlock_enter l) = []
     ∧ (result (wrlock_enter l) = Waits write_cond
        ∨ result (wrlock_enter l) = Returned 0))
  ∧ (wakeups (wrlock_retest l) = []
     ∧ (result (wrlock_retest l) = Waits write_cond
        ∨ result (wrlock_retest l) = Returned 0))
  ∧ result (unlock_body l) = Returned 0.
Proof.
  destruct l as [ar wr ww wa].
  repeat split; run_mon; split_tests; auto.
Qed.

Lemma pstep_quiet t mv victim π π' :
  mv = Acquire_read ∨ mv = Acquire_write ∨ mv = Retest ->
  pstep t mv victim π = Some π' ->
  ∃ w w', workers π !! t = Some w ∧ after_move w mv w'
          ∧ workers π' = <[t := w']> (workers π).
Proof.
  intros Hmv Hstep. unfold pstep in Hstep.
  destruct (workers π !! t) as [w|] eqn:Ht; [|done].
  destruct (lock_outcomes (the_lock π))
    as ((Hw1 & Hr1) & (Hw2 & Hr2) & (Hw3 & Hr3) & (Hw4 & Hr4) & _).
  exists w.
  destruct Hmv as [->|[->| ->]]; destruct w as [| | |[]|[]];
    simpl in Hstep; try discriminate;
    rewrite ?Hw1, ?Hw2, ?Hw3, ?Hw4 in Hstep; simpl in Hstep;
    injection Hstep as <-; simpl.
  - destruct Hr1 as [-> | ->]; eexists; (split; [done|]);
      (split; [|reflexivity]); simpl; auto.
  - destruct Hr3 as [-> | ->]; eexists; (split; [done|]);
      (split; [|reflexivity]); simpl; auto.
  - destruct Hr2 as [-> | ->]; eexists; (split; [done|]);
      (split; [|reflexivity]); simpl; auto.
  - destruct Hr4 as [-> | ->]; eexists; (split; [done|]);
      (split; [|reflexivity]); simpl; auto.
Qed.

Lemma pstep_release t victim π π' :
  pstep t Release victim π = Some π' ->
  ∃ w, workers π !! t = Some w ∧ (w = Searching ∨ w = Updating)
       ∧ length (workers π') = length (workers π)
       ∧ workers π' !! t = Some Idle
       ∧ ∀ t' x, t' ≠ t -> workers π !! t' = Some x ->
                 ∃ x', workers π' !! t' = Some x' ∧ kept_or_woken x x'.
Proof.
  intros Hstep. unfold pstep in Hstep.
  destruct (workers π !! t) as [w|] eqn:Ht; [|done].
  assert (t < length (workers π))%nat as Hlt by (by eapply lookup_lt_Some).
  destruct (lock_outcomes (the_lock π)) as (_ & _ & _ & _ & Hr).
  exists w. split; [done|].
  destruct w as [| | |[]|[]]; simpl in Hstep; try discriminate;
    rewrite Hr in Hstep; simpl in Hstep;
    (destruct (deliver_all victim (<[t := Idle]> (workers π))
                 (wakeups (unlock_body (the_lock π)))) as [ws'|] eqn:Hd; [|done]);
    injection Hstep as <-; simpl;
    destruct (deliver_all_effect _ _ _ _ Hd) as [Hlen Hkept];
    rewrite length_insert in Hlen;
    (split; [auto|]); (split; [done|]); split.
  1,3: destruct (Hkept t Idle) as (w' & Hw' & [->|(c & Hc & _)]);
         [by apply list_lookup_insert_eq|done|done].
  all: intros t' x Hne Hx; apply Hkept; by rewrite list_lookup_insert_ne.
Qed.

Lemma pstep_spurious t victim π π' :
  pstep t Spurious victim π = Some π' ->
  ∃ c, workers π !! t = Some (Asleep c)
       ∧ π' = {| the_lock := the_lock π; workers := <[t := Woken c]> (workers π) |}.
Proof.
  intros Hstep. unfold pstep in Hstep.
  destruct (workers π !! t) as [w|] eqn:Ht; [|done].
  destruct w as [| | |c|[]]; simpl in Hstep; try discriminate.
  injection Hstep as <-. eauto.
Qed.

Lemma acquire_enabled t mv victim π :
  workers π !! t = Some Idle -> mv = Acquire_read ∨ mv = Acquire_write ->
  ∃ π', pstep t mv victim π = Some π'.
Proof.
  intros Ht Hmv. unfold pstep. rewrite Ht.
  destruct (lock_outcomes (the_lock π)) as ((Hw1 & _) & _ & (Hw3 & _) & _).
  destruct Hmv as [-> | ->]; simpl; rewrite ?Hw1, ?Hw3; simpl; eauto.
Qed.

(** A worker asleep in the lock is never left alone: some worker holds the
    lock or has been woken. *)
Lemma sleeper_has_mover π t c :
  accounted π -> workers π !! t = Some (Asleep c) ->
  ∃ t' w, workers π !! t' = Some w ∧ can_move w = true.
Proof.
  intros Hacc Ht. unfold accounted in Hacc. simpl in Hacc.
  destruct Hacc as (_ & _ & _ & _ & Hone & _ & Hrs & Hws).
  pose proof (heads_bound (workers π)) as Hb.
  assert (0 < readers_in (workers π) ∨ 0 < writers_in (workers π)
          ∨ 0 < writers_woken (workers π)) as Hmover.
  { pose proof (census_lookup (asleep_on c) _ _ _ Ht) as Hc.
    destruct c; simpl in Hc; specialize (Hc eq_refl); counts; lia. }
  destruct Hmover as [H|[H|H]];
    apply census_pos in H as (t' & w & Ht' & Hw);
    destruct w as [| | |[]|[]]; try discriminate Hw; eauto.
Qed.

Lemma agrees_woken w w' f : agrees w f -> kept_or_woken w w' -> agrees w' f.
Proof.
  unfold agrees, kept_or_woken. intros Ha [->|(c & -> & ->)]; [done|].
  destruct (at_stage f), (which f); try discriminate Ha;
    destruct Ha as [Ha|[Ha|Ha]]; try discriminate Ha; injection Ha as ->; auto.
Qed.

(** *** The list calls of the loop body *)

(** With an allocator that never fails, the list call of each branch returns,
    and leaves the list as a sequence of completed operations leaves it. *)
Lemma list_call_ok malloc o v st :
  never_fails malloc -> after_ops st ->
  ∃ st', list_call malloc o v st = Done st' ∧ after_ops st'.
Proof.
  intros Hm Hst. destruct (after_ops_invariant st Hst) as (ns & Hl & Hs).
  destruct o; unfold list_call.
  - rewrite (Member_result v st ns Hl Hs). simpl. eauto.
  - destruct (Hm (nodes st)) as (t & -> & Ht).
    destruct (decide (v ∈ keys ns)) as [Hin|Hnot].
    + rewrite (Insert_present v (Some t) st ns Hl Hs Hin). simpl. eauto.
    + destruct (Insert_absent v t st ns Hl Hnot Ht) as (st' & Hins & _).
      rewrite Hins. simpl. exists st'. split; [done|].
      apply (after_more st st' Hst).
      apply (op_step_intro st st' (do_Insert v (Some t)) 1); [|done].
      intros ? ? [= <- <-]. exact Ht.
  - destruct (decide (v ∈ keys ns)) as [Hin|Hnot].
    + destruct (Delete_present v st ns Hl Hs Hin) as (st' & Hdel & _).
      rewrite Hdel. simpl. exists st'. split; [done|].
      apply (after_more st st' Hst).
      by apply (op_step_intro st st' (do_Delete v) 1).
    + rewrite (Delete_absent v st ns Hl Hnot). simpl. eauto.
Qed.

(** *** The locals *)

Lemma drawn_fields branch f :
  i (drawn branch f) = i f
  ∧ ops_per_thread (drawn branch f) = ops_per_thread f
  ∧ mine (drawn branch f) = mine f
  ∧ at_stage (drawn branch f) = Called.
Proof.
  unfold drawn. destruct (my_rand (seed f)) as [seed1 r].
  destruct (draw_key seed1) as [seed2 v]. done.
Qed.

Lemma frame_ok_drawn branch share f :
  frame_ok share f -> i f < ops_per_thread f -> frame_ok share (drawn branch f).
Proof.
  unfold frame_ok.
  destruct (drawn_fields branch f) as (-> & -> & -> & ->).
  intros (Hs & Hc & Ht & Hi & _ & _) Hlt.
  repeat split; try done; try lia; try apply Hc; intros; first [lia | done].
Qed.

Lemma frame_ok_operated share f :
  frame_ok share f -> at_stage f = Called -> frame_ok share (operated f).
Proof.
  unfold frame_ok. simpl. intros (Hs & Hc & Ht & Hi & Hlt & _) Hst.
  repeat split; try done; try lia; try apply Hc. intros _. apply Hlt. by left.
Qed.

Lemma frame_ok_finished share f :
  share <= INT_MAX -> frame_ok share f -> at_stage f = Operated ->
  frame_ok share (finished f)
  ∧ i (finished f) = i f + 1
  ∧ counter_of (which f) (mine (finished f)) = counter_of (which f) (mine f) + 1
  ∧ ∀ o, o ≠ which f -> counter_of o (mine (finished f)) = counter_of o (mine f).
Proof.
  unfold frame_ok. simpl. intros Hmax (Hs & Hc & Ht & Hi & Hlt & _) Hst.
  assert (i f < share) as Hlt' by (apply Hlt; by right).
  destruct (tally_counts (mine f) (which f) Hc) as (Hc' & Ht' & _); [lia|].
  rewrite wrap_int_id by (unfold int_range, INT_MIN, INT_MAX in *; lia).
  pose proof Hc as (? & ? & ?). pose proof Ht as Hsum. unfold total in Hsum.
  split; [|split; [done|split]].
  - repeat split; try done; try lia; try apply Hc'; intros [|]; discriminate.
  - destruct (which f); simpl;
      rewrite ?wrap_int_id by (unfold int_range, INT_MIN, INT_MAX in *; lia); lia.
  - intros o Hne. destruct (which f), o; simpl; done.
Qed.

Lemma frame_ok_past_fold share f :
  frame_ok share f -> ¬ i f < ops_per_thread f -> frame_ok share (past_fold f).
Proof.
  unfold frame_ok. simpl. intros (Hs & Hc & Ht & Hi & _ & _) Hge.
  repeat split; try done; try lia; try apply Hc. intros [|]; discriminate.
Qed.

(** *** The invariant of a run *)

Lemma folded_bound fs t f :
  fs !! t = Some f -> folded f = false ->
  0 <= weigh (fun f => Z.b2z (folded f)) fs
  ∧ weigh (fun f => Z.b2z (folded f)) fs + 1 <= Z.of_nat (length fs).
Proof.
  revert t. induction fs as [|x fs IH]; intros [|t]; cbn [weigh length]; try done.
  - intros [= ->] ->.
    assert (0 <= weigh (fun f => Z.b2z (folded f)) fs
            ∧ weigh (fun f => Z.b2z (folded f)) fs <= Z.of_nat (length fs)) as Hb.
    { clear. induction fs as [|x fs IH]; cbn [weigh length]; [lia|].
      destruct (folded x); simpl; lia. }
    simpl. lia.
  - intros Ht Hf. specialize (IH t Ht Hf). destruct (folded x); simpl in *; lia.
Qed.

Lemma all_folded_weigh fs :
  forallb folded fs = true ->
  weigh (fun f => Z.b2z (folded f)) fs = Z.of_nat (length fs).
Proof.
  induction fs as [|x fs IH]; cbn [weigh length forallb]; [done|].
  intros [Hx Hfs]%andb_true_iff. rewrite Hx, (IH Hfs). simpl. lia.
Qed.

Lemma not_all_folded fs :
  forallb folded fs = false -> ∃ t f, fs !! t = Some f ∧ folded f = false.
Proof.
  induction fs as [|x fs IH]; cbn [forallb]; [done|].
  destruct (folded x) eqn:Hx; simpl.
  - intros (t & f & Ht & Hf)%IH. by exists (S t), f.
  - intros _. by exists 0%nat, x.
Qed.

Lemma sound_update n share σ t f f' π' st' g' :
  sound n share σ ->
  frames σ !! t = Some f ->
  folded f = false ->
  accounted π' -> length (workers π') = n -> after_ops st' ->
  (∀ w', workers π' !! t = Some w' -> agrees w' f') ->
  (∀ t' w' f'', t' ≠ t -> workers π' !! t' = Some w' -> frames σ !! t' = Some f'' ->
                agrees w' f'') ->
  frame_ok share f' ->
  counted g' ->
  (∀ o, counter_of o g' = counter_of o (globals σ) + contribution o f') ->
  total g' = total (globals σ) + share * Z.b2z (folded f') ->
  sound n share {| pool := π'; shared := st';
                   frames := <[t := f']> (frames σ); globals := g' |}.
Proof.
  intros (Hacc & Hlw & Hlf & Hst & Hag & Hfr & Hcg & Hsum & Htot) Ht Hnf
    Hacc' Hlw' Hst' Hmine Hothers Hok Hcg' Hsum' Htot'.
  assert (t < length (frames σ))%nat as Hlt by (by eapply lookup_lt_Some).
  unfold sound. simpl. split_and!; try done.
  - by rewrite length_insert.
  - intros t' w' f'' Hw' Hf''. destruct (decide (t' = t)) as [->|Hne].
    + rewrite list_lookup_insert_eq in Hf'' by done. injection Hf'' as <-. auto.
    + rewrite list_lookup_insert_ne in Hf'' by done. eauto.
  - intros t' f'' Hf''. destruct (decide (t' = t)) as [->|Hne].
    + rewrite list_lookup_insert_eq in Hf'' by done. by injection Hf'' as <-.
    + rewrite list_lookup_insert_ne in Hf'' by done. eauto.
  - intros o. rewrite (weigh_insert _ _ _ f f' Ht), Hsum', Hsum.
    assert (contribution o f = 0) as -> by (unfold contribution; by rewrite Hnf).
    lia.
  - rewrite (weigh_insert _ _ _ f f' Ht), Htot', Htot, Hnf. simpl. lia.
Qed.

Section Steps.

Variable branch : Z -> op_class.
Variable malloc : gmap positive list_node_s -> option positive.
Variable n : nat.
Variable share : Z.

Hypothesis threads_fit : Z.of_nat n <= INT_MAX.
Hypothesis counts_fit : Z.of_nat n * share <= INT_MAX.
Hypothesis malloc_ok : never_fails malloc.

(** A step that a thread can take does not kill the process, and keeps the
    invariant. *)
Lemma step_sound σ t a victim r :
  sound n share σ -> Thread_work branch malloc t a victim σ = Some r ->
  ∃ σ', r = Done σ' ∧ sound n share σ'.
Proof.
  intros Hsound Hstep.
  pose proof Hsound as (Hacc & Hlw & Hlf & Hst & Hag & Hfr & Hcg & Hsum & Htot).
  unfold Thread_work in Hstep. destruct (frames σ !! t) as [f|] eqn:Hf; [|done].
  assert (t < n)%nat as Hlt by (rewrite <- Hlf; by eapply lookup_lt_Some).
  destruct (lookup_lt_is_Some_2 (workers (pool σ)) t) as [w Hw]; [lia|].
  pose proof (Hag t w f Hw Hf) as Hagt. pose proof (Hfr t f Hf) as Hfrt.
  assert (∀ t', is_Some (frames σ !! t') -> is_Some (workers (pool σ) !! t')) as Hboth.
  { intros t' Hs%lookup_lt_is_Some_1. apply lookup_lt_is_Some_2. lia. }
  destruct a, (at_stage f) eqn:Hstage; try discriminate Hstep.
  - (* the head of the loop body, up to the lock call *)
    destruct (Z.ltb_spec (i f) (ops_per_thread f)) as [Hi|]; [|done].
    unfold with_pool in Hstep.
    destruct (pstep t _ victim (pool σ)) as [π'|] eqn:Hp; [|done].
    injection Hstep as <-. eexists. split; [done|].
    destruct (pstep_accounted n _ _ _ _ _ threads_fit Hlw Hacc Hp) as [Hacc' Hlw'].
    assert (acquire_for (which (drawn branch f)) = Acquire_read
            ∨ acquire_for (which (drawn branch f)) = Acquire_write
            ∨ acquire_for (which (drawn branch f)) = Retest) as Hkind
      by (destruct (which (drawn branch f)); auto).
    destruct (pstep_quiet _ _ _ _ _ Hkind Hp) as (w0 & w' & Hw0 & Hmv & Hws').
    destruct (drawn_fields branch f) as (_ & _ & _ & Hd).
    apply (sound_update n share σ t f); try done.
    + unfold folded. by rewrite Hstage.
    + intros w''. rewrite Hws', list_lookup_insert_eq by lia. intros [= <-].
      unfold agrees. rewrite Hd.
      destruct (which (drawn branch f)); simpl in Hmv;
        destruct Hmv as [_ [-> | ->]]; auto.
    + intros t' w'' f'' Hne. rewrite Hws', list_lookup_insert_ne by done. apply Hag.
    + by apply frame_ok_drawn.
    + intros o. unfold contribution, folded. rewrite Hd. lia.
    + unfold folded. rewrite Hd. simpl. lia.
  - (* a new test of the while, after a wake-up *)
    unfold with_pool in Hstep.
    destruct (pstep t Retest victim (pool σ)) as [π'|] eqn:Hp; [|done].
    injection Hstep as <-. eexists. split; [done|].
    destruct (pstep_accounted n _ _ _ _ _ threads_fit Hlw Hacc Hp) as [Hacc' Hlw'].
    destruct (pstep_quiet t Retest _ _ _ ltac:(auto) Hp) as (w0 & w' & Hw0 & Hmv & Hws').
    rewrite Hw in Hw0. injection Hw0 as <-.
    apply (sound_update n share σ t f); try done.
    + unfold folded. by rewrite Hstage.
    + intros w''. rewrite Hws', list_lookup_insert_eq by lia. intros [= <-].
      unfold agrees in *. rewrite Hstage in *. simpl in Hmv.
      destruct (which f);
        destruct Hmv as [[-> [-> | ->]]|[-> [-> | ->]]];
        destruct Hagt as [Ha|[Ha|Ha]]; try discriminate Ha; auto.
    + intros t' w'' f'' Hne. rewrite Hws', list_lookup_insert_ne by done. apply Hag.
    + intros o. unfold contribution, folded. rewrite Hstage. lia.
    + unfold folded. rewrite Hstage. simpl. lia.
  - (* a wake-up without a signal *)
    unfold with_pool in Hstep.
    destruct (pstep t Spurious victim (pool σ)) as [π'|] eqn:Hp; [|done].
    injection Hstep as <-. eexists. split; [done|].
    destruct (pstep_accounted n _ _ _ _ _ threads_fit Hlw Hacc Hp) as [Hacc' Hlw'].
    destruct (pstep_spurious _ _ _ _ Hp) as (c & Hw0 & ->).
    rewrite Hw in Hw0. injection Hw0 as ->.
    apply (sound_update n share σ t f); try done.
    + unfold folded. by rewrite Hstage.
    + intros w''. simpl. rewrite list_lookup_insert_eq by lia. intros [= <-].
      unfold agrees in *. rewrite Hstage in *.
      destruct (which f); destruct Hagt as [Ha|[Ha|Ha]]; try discriminate Ha;
        injection Ha as ->; auto.
    + intros t' w'' f'' Hne. simpl. rewrite list_lookup_insert_ne by done. apply Hag.
    + intros o. unfold contribution, folded. rewrite Hstage. lia.
    + unfold folded. rewrite Hstage. simpl. lia.
  - (* the list call *)
    rewrite Hw in Hstep.
    destruct (list_call_ok malloc (which f) (val f) (shared σ) malloc_ok Hst)
      as (st' & Hcall & Hst').
    rewrite Hcall in Hstep.
    assert (r = Done {| pool := pool σ; shared := st';
                        frames := <[t := operated f]> (frames σ);
                        globals := globals σ |}
            ∧ (w = Searching ∨ w = Updating)) as [-> Hholds].
    { destruct w as [| | |c|c]; try discriminate Hstep;
        injection Hstep as <-; auto. }
    eexists. split; [done|].
    apply (sound_update n share σ t f); try done.
    + unfold folded. by rewrite Hstage.
    + intros w''. rewrite Hw. intros [= <-].
      unfold agrees in *. rewrite Hstage in *. simpl.
      destruct (which f); destruct Hholds as [-> | ->];
        destruct Hagt as [Ha|[Ha|Ha]]; try discriminate Ha; auto.
    + intros t' w'' f'' _. apply Hag.
    + by apply frame_ok_operated.
    + intros o. unfold contribution, folded. simpl. lia.
    + unfold folded. simpl. lia.
  - (* the unlock, the count and the increment of i *)
    unfold with_pool in Hstep.
    destruct (pstep t Release victim (pool σ)) as [π'|] eqn:Hp; [|done].
    injection Hstep as <-. eexists. split; [done|].
    destruct (pstep_accounted n _ _ _ _ _ threads_fit Hlw Hacc Hp) as [Hacc' Hlw'].
    destruct (pstep_release _ _ _ _ Hp) as (w0 & Hw0 & Hholds & _ & Hidle & Hkept).
    assert (share <= INT_MAX) as Hmax.
    { destruct Hfrt as (_ & _ & _ & Hi & _). nia. }
    destruct (frame_ok_finished share f Hmax Hfrt Hstage) as (Hok & _).
    apply (sound_update n share σ t f); try done.
    + unfold folded. by rewrite Hstage.
    + intros w''. rewrite Hidle. by intros [= <-].
    + intros t' w'' f'' Hne Hw'' Hf''.
      destruct (Hboth t') as [x Hx]; [by eexists|].
      destruct (Hkept t' x Hne Hx) as (x' & Hx' & Hk).
      rewrite Hw'' in Hx'. injection Hx' as <-.
      eapply agrees_woken; eauto.
    + intros o. unfold contribution, folded. simpl. lia.
    + unfold folded. simpl. lia.
  - (* the sums under count_mutex *)
    destruct (Z.ltb_spec (i f) (ops_per_thread f)) as [|Hi]; [done|].
    injection Hstep as <-. eexists. split; [done|].
    assert (folded f = false) as Hnf by (unfold folded; by rewrite Hstage).
    destruct (folded_bound _ _ _ Hf Hnf) as [Hf0 Hf1]. rewrite Hlf in Hf1.
    pose proof (frame_ok_past_fold share f Hfrt ltac:(lia)) as Hok.
    destruct Hfrt as (Hs & Hc & Ht & Hi' & _).
    assert (i f = share) as Hdone by lia.
    destruct (fold_in_counts (globals σ) (mine f) Hcg Hc) as (Hc' & Ht' & Ho'); [nia|].
    apply (sound_update n share σ t f); try done.
    + intros w''. rewrite Hw. intros [= <-].
      unfold agrees in *. rewrite Hstage in *. done.
    + intros t' w'' f'' _. apply Hag.
    + rewrite Ht'. unfold folded. simpl. lia.
Qed.

End Steps.

(** *** The start of a run *)

Lemma start_sound now thread_count total_ops st0 σ :
  1 <= thread_count <= INT_MAX -> 0 <= total_ops ->
  after_ops st0 ->
  start now thread_count total_ops st0 = Some σ ->
  sound (Z.to_nat thread_count) (total_ops ÷ thread_count) σ
  ∧ remaining (Z.to_nat thread_count) σ
    = thread_count * ((thread_count + 3) * (total_ops ÷ thread_count) + 1).
Proof.
  intros Htc Hops Hst0. unfold start, int_div.
  pose proof (Z.quot_pos total_ops thread_count) as Hshare.
  set (share := total_ops ÷ thread_count) in *.
  assert (Z.of_nat (Z.to_nat thread_count) = thread_count) as Hn by lia.
  destruct (Z.to_nat thread_count) as [|k] eqn:Hk; [lia|].
  cbv beta iota zeta. remember (S k) as n eqn:Hnk. clear Hnk.
  destruct (Z.eqb_spec thread_count 0) as [|_]; [lia|].
  destruct (Z.eqb_spec total_ops INT_MIN) as [|_]; [unfold INT_MIN in *; lia|].
  cbn [orb andb]. intros [= <-].
  assert (∀ f, f ∈ Thread_entry now share <$> seq 0 n ->
               ∃ rank, f = Thread_entry now share rank) as Hentry.
  { intros f (rank & -> & _)%list_elem_of_fmap_1. eauto. }
  destruct (preachable_accounted n (init_pool n)) as [Hacc Hlen];
    [lia|constructor|].
  split.
  - unfold sound. simpl. split_and!; try done.
    + by rewrite length_fmap, length_seq.
    + intros t w f Hw Hf.
      apply lookup_replicate in Hw as [-> _].
      apply list_elem_of_lookup_2, Hentry in Hf as [rank ->]. done.
    + intros t f Hf.
      apply list_elem_of_lookup_2, Hentry in Hf as [rank ->].
      unfold frame_ok, counted, total. simpl.
      split_and!; try done; try lia. intros [|]; discriminate.
    + intros o. rewrite (weigh_const _ 0).
      * destruct o; simpl; lia.
      * by intros f [rank ->]%Hentry.
    + rewrite (weigh_const _ 0); [unfold total; simpl; lia|].
      by intros f [rank ->]%Hentry.
  - unfold remaining. simpl. counts. rewrite !census_idle by done.
    rewrite (weigh_const _ ((Z.of_nat n + 3) * share + 1)).
    + rewrite length_fmap, length_seq. lia.
    + intros f [rank ->]%Hentry. unfold effort. simpl. lia.
Qed.

(** *** Progress *)

Section Progress.

Variable branch : Z -> op_class.
Variable malloc : gmap positive list_node_s -> option positive.
Variable n : nat.
Variable share : Z.

Hypothesis malloc_ok : never_fails malloc.

(** A thread that holds the lock or has been woken takes its next step on
    its own. *)
Lemma mover_steps σ t w :
  sound n share σ -> workers (pool σ) !! t = Some w -> can_move w = true ->
  ∃ a victim σ',
    a ≠ Spuriously ∧ Thread_work branch malloc t a victim σ = Some (Done σ').
Proof.
  intros (Hacc & Hlw & Hlf & Hst & Hag & Hfr & _) Hw Hmove.
  destruct (lookup_lt_is_Some_2 (frames σ) t) as [f Hf].
  { rewrite Hlf, <- Hlw. by eapply lookup_lt_Some. }
  pose proof (Hag t w f Hw Hf) as Hagt. unfold agrees in Hagt.
  unfold Thread_work. rewrite Hf.
  destruct (at_stage f) eqn:Hstage.
  - subst w. discriminate.
  - destruct w as [| | |c|c]; try discriminate Hmove.
    + destruct (list_call_ok malloc (which f) (val f) (shared σ) malloc_ok Hst)
        as (st' & Hcall & _).
      exists Operate, 0%nat. rewrite Hw, Hcall. eauto.
    + destruct (list_call_ok malloc (which f) (val f) (shared σ) malloc_ok Hst)
        as (st' & Hcall & _).
      exists Operate, 0%nat. rewrite Hw, Hcall. eauto.
    + destruct (retest_enabled t c (pool σ) Hw) as (π' & Hp).
      exists Wake, 0%nat. rewrite Hp. simpl. eauto.
  - destruct (release_enabled t w (pool σ) Hw) as (victim & π' & Hp).
    { destruct (which f); auto. }
    exists Finish, victim. rewrite Hp. simpl. eauto.
  - subst w. discriminate.
Qed.

(** As long as a thread has not folded its counters, some thread can take a
    step, and not one that needs a wake-up without a signal. *)
Lemma progress σ :
  sound n share σ -> all_folded σ = false ->
  ∃ t a victim σ',
    a ≠ Spuriously ∧ Thread_work branch malloc t a victim σ = Some (Done σ').
Proof.
  intros Hsound Hnot.
  pose proof Hsound as (Hacc & Hlw & Hlf & Hst & Hag & Hfr & _).
  destruct (not_all_folded _ Hnot) as (t & f & Hf & Hnf).
  destruct (lookup_lt_is_Some_2 (workers (pool σ)) t) as [w Hw].
  { rewrite Hlw, <- Hlf. by eapply lookup_lt_Some. }
  pose proof (Hag t w f Hw Hf) as Hagt. unfold agrees in Hagt.
  destruct (at_stage f) eqn:Hstage.
  - (* at the test of the loop *)
    subst w. destruct (i f <? ops_per_thread f) eqn:Hi.
    + destruct (acquire_enabled t (acquire_for (which (drawn branch f))) 0 (pool σ) Hw)
        as (π' & Hp); [destruct (which (drawn branch f)); auto|].
      exists t, Begin, 0%nat. unfold Thread_work. rewrite Hf, Hstage, Hi, Hp.
      simpl. eauto.
    + exists t, Fold_in, 0%nat. unfold Thread_work. rewrite Hf, Hstage, Hi. eauto.
  - (* in the lock, or back from it *)
    destruct (can_move w) eqn:Hmove.
    + exists t. by eapply mover_steps.
    + assert (∃ c, w = Asleep c) as [c ->].
      { destruct (which f); destruct Hagt as [->|[->| ->]]; try discriminate Hmove; eauto. }
      destruct (sleeper_has_mover (pool σ) t c Hacc Hw) as (t' & w' & Hw' & Hmove').
      exists t'. by eapply mover_steps.
  - (* after the list call *)
    exists t. eapply mover_steps; eauto. destruct (which f); by subst w.
  - unfold folded in Hnf. by rewrite Hstage in Hnf.
Qed.

End Progress.

(** *** The length of a run *)

Lemma weigh_le g c fs :
  (∀ f, f ∈ fs -> g f <= c) -> weigh g fs <= Z.of_nat (length fs) * c.
Proof.
  induction fs as [|x fs IH]; intros Hg; cbn [weigh length]; [lia|].
  specialize (Hg x (list_elem_of_here _ _)) as Hx.
  assert (weigh g fs <= Z.of_nat (length fs) * c)
    by (apply IH; intros f Hf; apply Hg; by right).
  lia.
Qed.

Lemma effort_bounds n share f :
  frame_ok share f -> 0 <= effort n f <= (Z.of_nat n + 3) * share + 1.
Proof.
  unfold frame_ok, effort. intros (-> & _ & _ & Hi & Hlt & _).
  destruct (at_stage f); try nia.
  assert (i f < share) by (apply Hlt; by right). nia.
Qed.

Lemma remaining_bounds n share σ :
  sound n share σ ->
  0 <= remaining n σ <= Z.of_nat n * ((Z.of_nat n + 3) * share + 2).
Proof.
  intros (_ & Hlw & Hlf & _ & _ & Hfr & _). unfold remaining.
  pose proof (heads_bound (workers (pool σ))) as Hb. rewrite Hlw in Hb.
  assert (∀ f, f ∈ frames σ -> 0 <= effort n f <= (Z.of_nat n + 3) * share + 1) as He.
  { intros f (t & Hf)%list_elem_of_lookup_1. eapply effort_bounds; eauto. }
  pose proof (weigh_nonneg (effort n) (frames σ) (fun f Hf => proj1 (He f Hf))).
  pose proof (weigh_le (effort n) _ (frames σ) (fun f Hf => proj2 (He f Hf))) as Hle.
  rewrite Hlf in Hle. lia.
Qed.

Section Length.

Variable branch : Z -> op_class.
Variable malloc : gmap positive list_node_s -> option positive.
Variable n : nat.
Variable share : Z.

Hypothesis threads_fit : Z.of_nat n <= INT_MAX.
Hypothesis counts_fit : Z.of_nat n * share <= INT_MAX.
Hypothesis malloc_ok : never_fails malloc.

(** Every step but a wake-up without a signal brings the end nearer. *)
Lemma step_remaining σ t a victim σ' :
  sound n share σ -> a ≠ Spuriously ->
  Thread_work branch malloc t a victim σ = Some (Done σ') ->
  remaining n σ' < remaining n σ.
Proof.
  intros Hsound Hreal Hstep.
  pose proof Hsound as (Hacc & Hlw & Hlf & Hst & Hag & Hfr & _).
  unfold Thread_work in Hstep. destruct (frames σ !! t) as [f|] eqn:Hf; [|done].
  assert (t < n)%nat as Hlt by (rewrite <- Hlf; by eapply lookup_lt_Some).
  destruct (lookup_lt_is_Some_2 (workers (pool σ)) t) as [w Hw]; [lia|].
  pose proof (Hag t w f Hw Hf) as Hagt. pose proof (Hfr t f Hf) as Hfrt.
  pose proof (heads_bound (workers (pool σ))) as Hb. rewrite Hlw in Hb.
  unfold remaining.
  destruct a, (at_stage f) eqn:Hstage; try discriminate Hstep; try done.
  - destruct (Z.ltb_spec (i f) (ops_per_thread f)) as [Hi|]; [|done].
    unfold with_pool in Hstep.
    destruct (pstep t _ victim (pool σ)) as [π'|] eqn:Hp; [|done].
    injection Hstep as <-. simpl.
    assert (acquire_for (which (drawn branch f)) = Acquire_read
            ∨ acquire_for (which (drawn branch f)) = Acquire_write
            ∨ acquire_for (which (drawn branch f)) = Retest) as Hkind
      by (destruct (which (drawn branch f)); auto).
    destruct (pstep_quiet _ _ _ _ _ Hkind Hp) as (w0 & w' & Hw0 & Hmv & Hws').
    rewrite Hws', (weigh_insert _ _ _ _ (drawn branch f) Hf).
    destruct (heads_insert _ _ _ w' Hw0) as (_ & _ & _ & -> & _ & ->).
    destruct (drawn_fields branch f) as (Hd1 & Hd2 & _ & Hd4).
    unfold effort. rewrite Hd1, Hd2, Hd4, Hstage.
    destruct (which (drawn branch f)); simpl in Hmv;
      destruct Hmv as [-> [-> | ->]]; simpl; lia.
  - unfold with_pool in Hstep.
    destruct (pstep t Retest victim (pool σ)) as [π'|] eqn:Hp; [|done].
    injection Hstep as <-. simpl.
    destruct (pstep_quiet t Retest _ _ _ ltac:(auto) Hp) as (w0 & w' & Hw0 & Hmv & Hws').
    rewrite Hws', (weigh_insert _ _ _ _ f Hf).
    destruct (heads_insert _ _ _ w' Hw0) as (_ & _ & _ & -> & _ & ->).
    simpl in Hmv.
    destruct Hmv as [[-> [-> | ->]]|[-> [-> | ->]]]; simpl; lia.
  - rewrite Hw in Hstep.
    destruct (list_call malloc (which f) (val f) (shared σ)) as [st'| |];
      destruct w as [| | |c|c]; try discriminate Hstep;
      injection Hstep as <-; simpl;
      rewrite (weigh_insert _ _ _ _ (operated f) Hf);
      unfold effort; simpl; rewrite Hstage; lia.
  - unfold with_pool in Hstep.
    destruct (pstep t Release victim (pool σ)) as [π'|] eqn:Hp; [|done].
    injection Hstep as <-. simpl.
    destruct (pstep_accounted n _ _ _ _ _ threads_fit Hlw Hacc Hp) as [_ Hlw'].
    pose proof (heads_bound (workers π')) as Hb'. rewrite Hlw' in Hb'.
    assert (share <= INT_MAX) as Hmax.
    { destruct Hfrt as (_ & _ & _ & Hi & _). nia. }
    destruct (frame_ok_finished share f Hmax Hfrt Hstage) as (_ & Hi' & _).
    rewrite (weigh_insert _ _ _ _ (finished f) Hf).
    unfold effort at 2 3. rewrite Hi', Hstage. simpl. nia.
  - destruct (Z.ltb_spec (i f) (ops_per_thread f)) as [|Hi]; [done|].
    injection Hstep as <-. simpl.
    rewrite (weigh_insert _ _ _ _ (past_fold f) Hf).
    destruct Hfrt as (Hs & _ & _ & Hi' & _).
    unfold effort. simpl. rewrite Hstage. nia.
Qed.

Lemma run_sound sched σ σ' :
  sound n share σ -> run branch malloc sched σ = Some (Done σ') -> sound n share σ'.
Proof.
  revert σ. induction sched as [|[[t a] victim] sched IH]; intros σ Hsound; simpl.
  - by intros [= <-].
  - destruct (Thread_work branch malloc t a victim σ) as [r|] eqn:Hstep; [|done].
    destruct (step_sound branch malloc n share threads_fit counts_fit malloc_ok
                _ _ _ _ _ Hsound Hstep) as (σ1 & -> & Hsound1).
    by apply IH.
Qed.

(** A run without wake-ups that no signal caused is no longer than what
    remains to be done. *)
Lemma run_length sched σ σ' :
  sound n share σ -> no_spurious sched ->
  run branch malloc sched σ = Some (Done σ') ->
  Z.of_nat (length sched) + remaining n σ' <= remaining n σ.
Proof.
  revert σ. induction sched as [|[[t a] victim] sched IH]; intros σ Hsound Hreal.
  - simpl. intros [= <-]. lia.
  - cbn [run length]. apply Forall_cons in Hreal as [Ha Hreal]. simpl in Ha.
    destruct (Thread_work branch malloc t a victim σ) as [r|] eqn:Hstep; [|done].
    destruct (step_sound branch malloc n share threads_fit counts_fit malloc_ok
                _ _ _ _ _ Hsound Hstep) as (σ1 & -> & Hsound1).
    intros Hrun. specialize (IH σ1 Hsound1 Hreal Hrun).
    pose proof (step_remaining _ _ _ _ _ Hsound Ha Hstep). lia.
Qed.

(** The threads can always be run to the end, with no help from a wake-up
    that no signal caused. *)
Lemma completes σ :
  sound n share σ ->
  ∃ sched σ',
    no_spurious sched ∧ run branch malloc sched σ = Some (Done σ')
    ∧ all_folded σ' = true.
Proof.
  intros Hsound.
  assert (∃ k, remaining n σ <= Z.of_nat k) as [k Hk].
  { exists (Z.to_nat (remaining n σ)). lia. }
  revert σ Hsound Hk. induction k as [|k IH]; intros σ Hsound Hk;
    (destruct (all_folded σ) eqn:Hall;
     [ exists [], σ; split; [constructor|done] | ]);
    destruct (progress branch malloc n share malloc_ok σ Hsound Hall)
      as (t & a & victim & σ1 & Ha & Hstep);
    destruct (step_sound branch malloc n share threads_fit counts_fit malloc_ok
                _ _ _ _ _ Hsound Hstep) as (σ1' & [= <-] & Hsound1);
    pose proof (step_remaining _ _ _ _ _ Hsound Ha Hstep) as Hless;
    pose proof (remaining_bounds n share σ1 Hsound1) as Hpos.
  - lia.
  - destruct (IH σ1 Hsound1) as (sched & σ' & Hreal & Hrun & Hend); [lia|].
    exists ((t, a, victim) :: sched), σ'. split; [by constructor|].
    split; [|done]. simpl. by rewrite Hstep.
Qed.

End Length.

(** *** The states of a run *)

Lemma share_fits thread_count total_ops :
  1 <= thread_count -> 0 <= total_ops <= INT_MAX ->
  Z.of_nat (Z.to_nat thread_count) = thread_count
  ∧ Z.of_nat (Z.to_nat thread_count) * (total_ops ÷ thread_count) <= INT_MAX.
Proof.
  intros Htc Hops. pose proof (Z.mul_quot_le total_ops thread_count). lia.
Qed.

Lemma running_sound branch now malloc thread_count total_ops st0 σ :
  1 <= thread_count <= INT_MAX -> 0 <= total_ops <= INT_MAX ->
  never_fails malloc -> after_ops st0 ->
  running branch now malloc thread_count total_ops st0 σ ->
  sound (Z.to_nat thread_count) (total_ops ÷ thread_count) σ.
Proof.
  intros Htc Hops Hm Hst0.
  destruct (share_fits thread_count total_ops) as [Hn Hfit]; [lia|done|].
  induction 1 as [σ Hstart|σ t a victim σ' _ IH Hstep].
  - apply (start_sound now thread_count total_ops st0 σ); (done || lia).
  - assert (Z.of_nat (Z.to_nat thread_count) <= INT_MAX) as Hfitn by lia.
    destruct (step_sound branch malloc _ _ Hfitn Hfit Hm _ _ _ _ _ IH Hstep)
      as (σ1 & [= <-] & Hsound). done.
Qed.

Lemma run_running branch now malloc thread_count total_ops st0 sched σ σ' :
  running branch now malloc thread_count total_ops st0 σ ->
  run branch malloc sched σ = Some (Done σ') ->
  running branch now malloc thread_count total_ops st0 σ'.
Proof.
  revert σ. induction sched as [|[[t a] victim] sched IH]; intros σ Hrun; simpl.
  - by intros [= <-].
  - destruct (Thread_work branch malloc t a victim σ) as [[σ1| |]|] eqn:Hstep;
      try done.
    apply IH. by eapply running_step.
Qed.

(** C6. Conservation of operation counts.  Take [thread_count >= 1] threads
    and [total_ops >= 0], an allocator that never fails, and the list as a
    sequence of completed [Insert] and [Delete] calls leaves it.  In every
    state of a run of the threads through [Thread_work], with its calls of
    [my_rwlock_rdlock], [my_rwlock_wrlock], [my_rwlock_unlock], [Member],
    [Insert] and [Delete]:
    - there are [thread_count] threads; each has
      [ops_per_thread = total_ops / thread_count] (truncated), its three
      counters add up to the number [i] of operations it has completed, and
      [i] is [ops_per_thread] once it has folded its counters into the
      globals, so it has performed exactly that many operations; the count
      after an operation adds one to exactly one of its three counters, the
      one of the branch taken, and one to [i];
    - no step a thread can take kills the process: the list calls return;
    - as long as some thread has not folded, some thread can take a step
      that is not a wake-up without a signal: no thread is left asleep in
      the lock for good; a run without such wake-ups takes at most
      [thread_count * ((thread_count + 3) * ops_per_thread + 2)] steps from
      here; and there is one that ends with all threads folded and the
      globals adding up to [thread_count * (total_ops / thread_count)];
    - each global counter is the sum of that counter over the threads that
      have folded, no update lost; once all have folded,
      [member_count + insert_count + delete_count] is
      [thread_count * (total_ops / thread_count)]. *)
Theorem conservation_of_counts branch now malloc thread_count total_ops st0 σ :
  1 <= thread_count <= INT_MAX ->
  0 <= total_ops <= INT_MAX ->
  never_fails malloc ->
  after_ops st0 ->
  running branch now malloc thread_count total_ops st0 σ ->
  Z.of_nat (length (frames σ)) = thread_count
  ∧ (∀ t f, frames σ !! t = Some f ->
       ops_per_thread f = total_ops ÷ thread_count
       ∧ counted (mine f)
       ∧ total (mine f) = i f
       ∧ 0 <= i f <= ops_per_thread f
       ∧ (folded f = true -> total (mine f) = total_ops ÷ thread_count)
       ∧ (at_stage f = Operated ->
          i (finished f) = i f + 1
          ∧ counter_of (which f) (mine (finished f))
            = counter_of (which f) (mine f) + 1
          ∧ ∀ o, o ≠ which f ->
                 counter_of o (mine (finished f)) = counter_of o (mine f)))
  ∧ (∀ t a victim r,
       Thread_work branch malloc t a victim σ = Some r -> ∃ σ', r = Done σ')
  ∧ (all_folded σ = false ->
     ∃ t a victim σ',
       a ≠ Spuriously ∧ Thread_work branch malloc t a victim σ = Some (Done σ'))
  ∧ (∀ sched σ',
       no_spurious sched -> run branch malloc sched σ = Some (Done σ') ->
       Z.of_nat (length sched)
       <= thread_count * ((thread_count + 3) * (total_ops ÷ thread_count) + 2))
  ∧ (∃ sched σ',
       no_spurious sched ∧ run branch malloc sched σ = Some (Done σ')
       ∧ all_folded σ' = true
       ∧ total (globals σ') = thread_count * (total_ops ÷ thread_count))
  ∧ counted (globals σ)
  ∧ (∀ o, counter_of o (globals σ) = weigh (contribution o) (frames σ))
  ∧ (all_folded σ = true ->
     total (globals σ) = thread_count * (total_ops ÷ thread_count)).
Proof.
  intros Htc Hops Hm Hst0 Hrun.
  destruct (share_fits thread_count total_ops) as [Hn Hfit]; [lia|done|].
  pose proof (running_sound _ _ _ _ _ _ _ Htc Hops Hm Hst0 Hrun) as Hsound.
  set (n := Z.to_nat thread_count) in *. set (share := total_ops ÷ thread_count) in *.
  assert (Z.of_nat n <= INT_MAX) as Hfitn by lia.
  pose proof Hsound as (_ & _ & Hlf & _ & _ & Hfr & Hcg & Hsum & Htot).
  split_and!; try done.
  - lia.
  - intros t f Hf. pose proof (Hfr t f Hf) as Hok.
    pose proof Hok as (Hs & Hc & Ht & Hi & _ & Hend).
    split_and!; try done; try lia.
    + unfold folded. intros Hfolded. rewrite Ht. apply Hend.
      by destruct (at_stage f).
    + intros Hstage. apply (frame_ok_finished share f); [nia|done|done].
  - intros t a victim r Hstep.
    destruct (step_sound branch malloc n share Hfitn Hfit Hm _ _ _ _ _ Hsound Hstep)
      as (σ' & -> & _).
    eauto.
  - by apply (progress branch malloc n share Hm).
  - intros sched σ' Hreal Hsched.
    pose proof (run_length branch malloc n share Hfitn Hfit Hm _ _ _
                  Hsound Hreal Hsched) as Hlen.
    pose proof (run_sound branch malloc n share Hfitn Hfit Hm _ _ _ Hsound Hsched)
      as Hsound'.
    pose proof (remaining_bounds n share σ Hsound).
    pose proof (remaining_bounds n share σ' Hsound').
    rewrite <- Hn. lia.
  - destruct (completes branch malloc n share Hfitn Hfit Hm σ Hsound)
      as (sched & σ' & Hreal & Hsched & Hall).
    exists sched, σ'. split_and!; try done.
    destruct (run_sound branch malloc n share Hfitn Hfit Hm _ _ _ Hsound Hsched)
      as (_ & _ & Hlf' & _ & _ & _ & _ & _ & Htot').
    rewrite Htot', (all_folded_weigh _ Hall), Hlf'. lia.
  - intros Hall. rewrite Htot, (all_folded_weigh _ Hall), Hlf. lia.
Qed.

Lemma conservation_of_counts_witness :
  Z.of_nat (length (frames two_threads_end)) = 2
  ∧ (∀ t f, frames two_threads_end !! t = Some f ->
       ops_per_thread f = 3 ÷ 2
       ∧ counted (mine f)
       ∧ total (mine f) = i f
       ∧ 0 <= i f <= ops_per_thread f
       ∧ (folded f = true -> total (mine f) = 3 ÷ 2)
       ∧ (at_stage f = Operated ->
          i (finished f) = i f + 1
          ∧ counter_of (which f) (mine (finished f))
            = counter_of (which f) (mine f) + 1
          ∧ ∀ o, o ≠ which f ->
                 counter_of o (mine (finished f)) = counter_of o (mine f)))
  ∧ (∀ t a victim r,
       Thread_work two_threads_branch fresh_malloc t a victim two_threads_end = Some r ->
       ∃ σ', r = Done σ')
  ∧ (all_folded two_threads_end = false ->
     ∃ t a victim σ',
       a ≠ Spuriously
       ∧ Thread_work two_threads_branch fresh_malloc t a victim two_threads_end
         = Some (Done σ'))
  ∧ (∀ sched σ',
       no_spurious sched ->
       run two_threads_branch fresh_malloc sched two_threads_end = Some (Done σ') ->
       Z.of_nat (length sched) <= 2 * ((2 + 3) * (3 ÷ 2) + 2))
  ∧ (∃ sched σ',
       no_spurious sched
       ∧ run two_threads_branch fresh_malloc sched two_threads_end = Some (Done σ')
       ∧ all_folded σ' = true
       ∧ total (globals σ') = 2 * (3 ÷ 2))
  ∧ counted (globals two_threads_end)
  ∧ (∀ o, counter_of o (globals two_threads_end)
          = weigh (contribution o) (frames two_threads_end))
  ∧ (all_folded two_threads_end = true ->
     total (globals two_threads_end) = 2 * (3 ÷ 2)).
Proof.
  apply (conservation_of_counts two_threads_branch (fun _ => 0) fresh_malloc 2 3
           empty_memory two_threads_end).
  - unfold INT_MAX. lia.
  - unfold INT_MAX. lia.
  - exact MainFacts.fresh_malloc_never_fails.
  - constructor.
  - eapply (run_running _ _ _ _ _ _ two_threads_schedule).
    + apply running_start. reflexivity.
    + vm_compute. reflexivity.
Defined.

(** C6, as the claim states it, fails: with one thread and [total_ops = -1]
    the share is [-1], the loop body never runs, the thread folds counters
    that are all 0, and the globals add up to 0, not to [1 * (-1 / 1)]. *)
Lemma conservation_fails_for_negative_total :
  ∃ σ0 σ1,
    start (fun _ => 0) 1 (-1) empty_memory = Some σ0
    ∧ run two_threads_branch fresh_malloc [(0, Fold_in, 0)]%nat σ0 = Some (Done σ1)
    ∧ all_folded σ1 = true
    ∧ total (globals σ1) = 0
    ∧ total (globals σ1) ≠ 1 * (-1 ÷ 1).
Proof.
  eexists. eexists. split; [reflexivity|]. split; [vm_compute; reflexivity|].
  vm_compute. repeat split; discriminate.
Qed.

(** With [malloc] returning [NULL], a thread that draws an insertion dies in
    [Insert], and the process with it: nothing is folded. *)
Lemma Thread_work_dies_in_Insert :
  ∃ σ0,
    start (fun _ => 0) 1 1 empty_memory = Some σ0
    ∧ run (fun _ => Insertion) (fun _ => None)
        [(0, Begin, 0); (0, Operate, 0)]%nat σ0 = Some Fault.
Proof. eexists. split; [reflexivity|]. vm_compute. reflexivity. Qed.

End ProgramFacts.
